(** * Verification of create-album.py (immich-album-creator)

    A shallow embedding of the script [src/create-album.py] and the
    properties its specification states about it.

    Conventions of the embedding:
    - a Python [str] is the [string] of the bytes of its UTF-8 encoding;
      [startswith], slicing after a prefix and [lstrip(os.sep)] work on
      the bytes as on the code points; [len], [strip] and [int] work on
      the characters, with the white space and the decimal digits of
      Unicode; [lower] changes the ASCII letters, which is all the
      comparisons with "y" can see;
    - the platform is POSIX: [os.sep] is "/" and [os.path] is [posixpath];
    - the module globals [IMMICH_HOST], [API_KEY], [LIBRARY_ROOT] and
      [HEADERS] are fields of the threaded state;
    - effects (printing, reading a line, HTTP requests, directory walks)
      are recorded in a chronological trace;
    - the terminal is a finite list of lines and interrupts; an interrupt
      reaches the script while it waits in [input()], and an exhausted
      terminal makes [input()] raise [EOFError];
    - the script proper is embedded with the requests as the server's API
      documents them: a request either raises a [RequestException] or is
      answered, and the body of an answer decodes to the documented
      shape. The module [Wire] embeds the four functions that call the
      server once more, with a library call that may raise any exception
      and a body that may be any JSON value, and shows that the two
      embeddings agree on documented answers;
    - [while True] loops and the two recursive prompts run on fuel; a run
      of the script gets more fuel than the terminal has input, which is
      shown to be enough. The recursion limit of the interpreter is not
      modelled. *)

From Stdlib Require Import String Ascii List ZArith Lia Bool Arith DecimalString
  Permutation.
Import ListNotations.
Open Scope string_scope.

(** ** Python string primitives *)

Module PyStr.

(** [s.startswith(p)] *)
Definition startswith (s p : string) : bool := prefix p s.

(** [s.endswith(p)] *)
Fixpoint endswith (s p : string) : bool :=
  (s =? p) || match s with
              | EmptyString => false
              | String _ s' => endswith s' p
              end.

(** [s[n:]] for [0 <= n] *)
Fixpoint slice_from (n : nat) (s : string) : string :=
  match n, s with
  | O, _ => s
  | S n', String _ s' => slice_from n' s'
  | S _, EmptyString => EmptyString
  end.

(** [c in chars] *)
Fixpoint char_in (c : ascii) (chars : string) : bool :=
  match chars with
  | EmptyString => false
  | String d chars' => Ascii.eqb c d || char_in c chars'
  end.

(** [s.lstrip(chars)]: drops the longest prefix made of characters of
    [chars]. *)
Fixpoint lstrip (chars s : string) : string :=
  match s with
  | EmptyString => EmptyString
  | String c s' => if char_in c chars then lstrip chars s' else s
  end.

(** Truth value of an optional string: [None] and the empty string are falsy. *)
Definition truthy (o : option string) : bool :=
  match o with
  | Some (String _ _) => true
  | _ => false
  end.

(** [c * n] for a one-character string [c] *)
Fixpoint replicate (n : nat) (c : string) : string :=
  match n with
  | O => EmptyString
  | S n' => c ++ replicate n' c
  end.

(** [s.rstrip(chars)] *)
Fixpoint rstrip (chars s : string) : string :=
  match s with
  | EmptyString => EmptyString
  | String c s' =>
      match rstrip chars s' with
      | EmptyString => if char_in c chars then EmptyString else String c EmptyString
      | r => String c r
      end
  end.

(** The UTF-8 encoding of a code point *)
Definition utf8 (c : N) : string :=
  let byte n := String (ascii_of_N n) in
  (if c <? 128 then byte c EmptyString
   else if c <? 2048 then
     byte (192 + c / 64) (byte (128 + c mod 64) EmptyString)
   else if c <? 65536 then
     byte (224 + c / 4096)
       (byte (128 + (c / 64) mod 64) (byte (128 + c mod 64) EmptyString))
   else
     byte (240 + c / 262144)
       (byte (128 + (c / 4096) mod 64)
          (byte (128 + (c / 64) mod 64) (byte (128 + c mod 64) EmptyString))))%N.

(** A byte 10xxxxxx goes on with the character before it. *)
Definition continuation (c : ascii) : bool :=
  let n := N_of_ascii c in ((128 <=? n) && (n <? 192))%N.

(** [list(s)]: the characters of [s], each as the bytes that encode it *)
Fixpoint chars (s : string) : list string :=
  match s with
  | EmptyString => []
  | String c s' =>
      let rest := chars s' in
      match s', rest with
      | String d _, ch :: l =>
          if continuation d then String c ch :: l
          else String c EmptyString :: rest
      | _, _ => String c EmptyString :: rest
      end
  end.

(** [len(s)] *)
Definition len (s : string) : nat := List.length (chars s).

(** The code points [c] for which [chr(c).isspace()] holds: the characters
    [str.strip()] removes. *)
Definition whitespace : list N :=
  [9; 10; 11; 12; 13; 28; 29; 30; 31; 32; 133; 160; 5760;
   8192; 8193; 8194; 8195; 8196; 8197; 8198; 8199; 8200; 8201; 8202;
   8232; 8233; 8239; 8287; 12288]%N.

(** [ch.isspace()] for one character *)
Definition isspace (ch : string) : bool :=
  existsb (fun c => utf8 c =? ch) whitespace.

Fixpoint lstrip_space (l : list string) : list string :=
  match l with
  | [] => []
  | ch :: l' => if isspace ch then lstrip_space l' else l
  end.

Definition rstrip_space (l : list string) : list string :=
  rev (lstrip_space (rev l)).

(** [s.strip()] *)
Definition strip (s : string) : string :=
  String.concat EmptyString (rstrip_space (lstrip_space (chars s))).

(** [s.lower()] on ASCII letters *)
Definition lower_char (c : ascii) : ascii :=
  let n := nat_of_ascii c in
  if (65 <=? n)%nat && (n <=? 90)%nat then ascii_of_nat (n + 32) else c.

Fixpoint lower (s : string) : string :=
  match s with
  | EmptyString => EmptyString
  | String c s' => String (lower_char c) (lower s')
  end.

(** [s[-n:]] for [0 < n] *)
Definition last_chars (n : nat) (s : string) : string :=
  String.concat EmptyString (skipn (len s - n) (chars s)).

(** [str(n)] for a number *)
Definition of_nat (n : nat) : string := NilZero.string_of_uint (Nat.to_uint n).
Definition of_Z (z : Z) : string := NilZero.string_of_int (Z.to_int z).

(** [f"{x}"] for a value that may be [None] *)
Definition format (o : option string) : string :=
  match o with
  | Some s => s
  | None => "None"
  end.

(** [int(s)]; [None] stands for [ValueError].

    The digit zero of every decimal number system of Unicode 14.0, the
    version of CPython 3.11: the code points [c] with
    [unicodedata.decimal(chr(c)) == 0]. The nine code points after each
    are its digits 1 to 9. *)
Definition decimal_zeros : list N :=
  [48; 1632; 1776; 1984; 2406; 2534; 2662; 2790; 2918; 3046; 3174;
   3302; 3430; 3558; 3664; 3792; 3872; 4160; 4240; 6112; 6160; 6470;
   6608; 6784; 6800; 6992; 7088; 7232; 7248; 42528; 43216; 43264;
   43472; 43504; 43600; 44016; 65296; 66720; 68912; 69734; 69872;
   69942; 70096; 70384; 70736; 70864; 71248; 71360; 71472; 71904;
   72016; 72784; 73040; 73120; 92768; 92864; 93008; 120782; 120792;
   120802; 120812; 120822; 123200; 123632; 125264; 130032]%N.

(** [unicodedata.decimal(ch, None)] *)
Definition decimal (ch : string) : option N :=
  let ten := [0; 1; 2; 3; 4; 5; 6; 7; 8; 9]%N in
  let fix search (zeros : list N) : option N :=
    match zeros with
    | [] => None
    | z :: zeros' =>
        match find (fun d => utf8 (z + d) =? ch) ten with
        | Some d => Some d
        | None => search zeros'
        end
    end in
  search decimal_zeros.

(** What [int] reads in place of one character: an ASCII character other
    than DEL is read as it is, another white-space character as a space
    and another decimal digit as its ASCII digit; [None] for a character
    that is none of these. *)
Definition ascii_form (ch : string) : option ascii :=
  match ch with
  | String c EmptyString =>
      if (N_of_ascii c <? 127)%N then Some c else None
  | _ =>
      if isspace ch then Some " "%char
      else option_map (fun d => ascii_of_N (48 + d)) (decimal ch)
  end.

Fixpoint ascii_forms (l : list string) : option string :=
  match l with
  | [] => Some EmptyString
  | ch :: l' =>
      match ascii_form ch, ascii_forms l' with
      | Some c, Some s => Some (String c s)
      | _, _ => None
      end
  end.

(** The blanks [int] skips before and after the number: tab, line feed,
    vertical tab, form feed, carriage return and space. *)
Definition blanks : string :=
  String (ascii_of_nat 9) (String (ascii_of_nat 10) (String (ascii_of_nat 11)
 (String (ascii_of_nat 12) (String (ascii_of_nat 13)
 (String (ascii_of_nat 32) EmptyString))))).

Definition digit_value (c : ascii) : option Z :=
  let n := nat_of_ascii c in
  if (48 <=? n)%nat && (n <=? 57)%nat then Some (Z.of_nat (n - 48)) else None.

(** Decimal digits in which single underscores may separate digits *)
Fixpoint digits (s : string) (acc : Z) (after_digit : bool) : option Z :=
  match s with
  | EmptyString => if after_digit then Some acc else None
  | String c s' =>
      match digit_value c with
      | Some d => digits s' (10 * acc + d)%Z true
      | None =>
          if Ascii.eqb c "_" && after_digit then digits s' acc false else None
      end
  end.

Fixpoint count_digits (s : string) : nat :=
  match s with
  | EmptyString => 0
  | String c s' =>
      match digit_value c with
      | Some _ => S (count_digits s')
      | None => count_digits s'
      end
  end.

(** [sys.get_int_max_str_digits()]: a number of more digits is refused. *)
Definition int_max_str_digits : nat := 4300.

Definition int (s : string) : option Z :=
  match ascii_forms (chars s) with
  | None => None
  | Some a =>
      let a := rstrip blanks (lstrip blanks a) in
      let number (body : string) : option Z :=
        if (int_max_str_digits <? count_digits body)%nat then None
        else digits body 0%Z false in
      match a with
      | String "-" body => option_map Z.opp (number body)
      | String "+" body => number body
      | _ => number a
      end
  end.

(** The line feed *)
Definition nl : string := String (ascii_of_nat 10) EmptyString.

End PyStr.

(** [os.sep] on POSIX *)
Definition os_sep : string := "/".

(** ** Path resolution (lines 90-96) *)

(** [convert_to_immich_path] reads the global [LIBRARY_ROOT]; the global is
    an explicit argument here and the function is pure. *)
Definition convert_to_immich_path (LIBRARY_ROOT : option string)
    (abs_path : string) : string :=
  match LIBRARY_ROOT with
  | Some root =>
      if PyStr.truthy LIBRARY_ROOT && PyStr.startswith abs_path root then
        let relative_path :=
          PyStr.lstrip os_sep (PyStr.slice_from (String.length root) abs_path) in
        relative_path
      else abs_path
  | None => abs_path
  end.

(** The reading of "the root prefix and exactly one leading separator are
    removed": the input is the root, one separator, and the result. *)
Definition strips_root_and_one_separator (root abs_path result : string) : Prop :=
  abs_path = root ++ os_sep ++ result.

(** [s] does not begin with the separator. *)
Definition no_leading_separator (s : string) : Prop :=
  forall s', s <> os_sep ++ s'.

(** ** [posixpath] *)

Module PosixPath.

(** [os.path.join(a, b)] *)
Definition join (a b : string) : string :=
  if PyStr.startswith b os_sep then b
  else if (a =? EmptyString) || PyStr.endswith a os_sep then a ++ b
  else a ++ os_sep ++ b.

(** [p[:p.rfind("/") + 1]] *)
Fixpoint head (p : string) : string :=
  match p with
  | EmptyString => EmptyString
  | String c p' =>
      match head p' with
      | EmptyString => if Ascii.eqb c "/" then os_sep else EmptyString
      | h => String c h
      end
  end.

(** [os.path.dirname(p)] *)
Definition dirname (p : string) : string :=
  let head := head p in
  if negb (head =? EmptyString)
     && negb (head =? PyStr.replicate (String.length head) os_sep)
  then PyStr.rstrip os_sep head
  else head.

End PosixPath.

(** ** The directory tree as [os.walk] sees it

    A directory lists its subdirectories by name, in the order [os.walk]
    reports them. A symbolic link to a directory, which [os.walk] lists but
    does not descend into, is an entry without subdirectories. *)

#[warnings="-register-all"]
Inductive dirtree : Type :=
  | Dir (dirs : list (string * dirtree)).

(** [os.walk(top)], top-down: the triple of a directory comes before the
    triples of its subdirectories. The [files] component, which the script
    never reads, is left out. *)
Fixpoint os_walk (top : string) (t : dirtree) : list (string * list string) :=
  match t with
  | Dir dirs =>
      (top, map fst dirs)
        :: flat_map (fun d => os_walk (PosixPath.join top (fst d)) (snd d)) dirs
  end.

(** ** Insertion-ordered dictionaries

    A Python [dict] keeps its keys in insertion order; assigning to a key
    that is present keeps the key's position. *)

Module PyDict.

Definition t (V : Type) : Type := list (string * V).

(** [d[k] = v] *)
Fixpoint set {V} (d : t V) (k : string) (v : V) : t V :=
  match d with
  | [] => [(k, v)]
  | (k', v') :: d' =>
      if k =? k' then (k', v) :: d' else (k', v') :: set d' k v
  end.

(** [dict.fromkeys(keys)]: every key bound to [None] *)
Definition fromkeys (keys : list string) : t unit :=
  fold_left (fun d k => set d k tt) keys [].

(** [list(d)] *)
Definition keys {V} (d : t V) : list string := map fst d.

End PyDict.

(** ** The server's data *)

(** An item of the folder view; the script reads its ["id"]. *)
Record asset : Type := { asset_id : string }.

(** An album object; the script reads these keys with [dict.get], so each
    may be absent. The dictionary [{"create_new": True, "albumName": n}]
    that [select_album_interactive] builds is an album too. *)
Record album : Type := {
  albumName : option string;
  album_id : option string;
  assetCount : option Z;
  create_new : option bool
}.

Inductive http_method : Type := GET | POST | PUT.

Inductive json_value : Type :=
  | JString (s : string)
  | JStrings (l : list string).

Record request : Type := {
  req_method : http_method;
  req_url : string;
  req_headers : option (list (string * string));
  req_params : list (string * string);
  req_json : list (string * json_value)
}.

(** A response: its status code, the text of the [HTTPError] that
    [raise_for_status] raises for it, and what [response.json()] decodes
    (of the shape the server's API documents). *)
Record response (A : Type) : Type := {
  status_code : Z;
  status_error : string;
  json : A
}.
Arguments status_code {A} _.
Arguments status_error {A} _.
Arguments json {A} _.

(** What [requests.get/post/put] does: raise a [RequestException] (no
    connection, invalid URL, ...) with the given text, or return a
    response. Exceptions of other classes and bodies of other shapes are
    left to the module [Wire]. *)
Inductive reply (A : Type) : Type :=
  | Fails (e : string)
  | Responds (r : response A).
Arguments Fails {A} _.
Arguments Responds {A} _.

(** The server, one oracle per endpoint the script calls; an answer may
    depend on the requests made so far. *)
Record server : Type := {
  view_folder : list request -> request -> reply (list asset);
  list_albums : list request -> request -> reply (list album);
  post_album : list request -> request -> reply unit;
  put_album_assets : list request -> request -> reply unit
}.

(** The file system, unchanged during a run. *)
Record filesystem : Type := {
  fs_expanduser : string -> string;
  fs_abspath : string -> string;
  fs_exists : string -> bool;
  fs_isdir : string -> bool;
  fs_tree : string -> option dirtree
}.

Record environment : Type := {
  env_server : server;
  env_fs : filesystem
}.

(** ** Effects *)

(** What [input()] finds on the terminal: a line, or Ctrl-C. An exhausted
    input is the end of file. *)
Inductive keyboard : Type :=
  | Line (s : string)
  | Interrupt.

Inductive event : Type :=
  | Printed (line : string)
  | Prompted (prompt : string)
  | Requested (r : request)
  | Walked (top : string).

Inductive exn : Type :=
  | KeyboardInterrupt
  | EOFError
  | ValueError
  | TypeError
  | IndexError
  | KeyError
  | AttributeError
  | UnicodeEncodeError
  | RequestException (e : string).

Record world : Type := {
  stdin : list keyboard;
  trace : list event;
  IMMICH_HOST : option string;
  API_KEY : option string;
  LIBRARY_ROOT : option string;
  HEADERS : option (list (string * string))
}.

(** A run returns, raises, or exhausts the fuel given to its loops. *)
Inductive outcome (A : Type) : Type :=
  | Returns (a : A)
  | Raises (e : exn)
  | OutOfFuel.
Arguments Returns {A} _.
Arguments Raises {A} _.
Arguments OutOfFuel {A}.

Definition M (A : Type) : Type := world -> outcome A * world.

Definition ret {A} (a : A) : M A := fun w => (Returns a, w).

Definition bind {A B} (m : M A) (k : A -> M B) : M B :=
  fun w =>
    match m w with
    | (Returns a, w') => k a w'
    | (Raises e, w') => (Raises e, w')
    | (OutOfFuel, w') => (OutOfFuel, w')
    end.

Definition raise {A} (e : exn) : M A := fun w => (Raises e, w).

Definition out_of_fuel {A} : M A := fun w => (OutOfFuel, w).

(** [try: body  except ...: handler]; [handler e] is [None] when no
    [except] clause matches [e]. *)
Definition try_except {A} (body : M A) (handler : exn -> option (M A)) : M A :=
  fun w =>
    match body w with
    | (Raises e, w') =>
        match handler e with
        | Some h => h w'
        | None => (Raises e, w')
        end
    | r => r
    end.

Definition except_KeyboardInterrupt {A} (h : M A) (e : exn) : option (M A) :=
  match e with
  | KeyboardInterrupt => Some h
  | _ => None
  end.

Definition except_RequestException {A} (h : string -> M A) (e : exn)
    : option (M A) :=
  match e with
  | RequestException s => Some (h s)
  | _ => None
  end.

Declare Scope py_scope.
Delimit Scope py_scope with py.
Notation "x <- m ;; k" := (bind m (fun x => k))
  (at level 61, m at next level, right associativity) : py_scope.
Notation "m ;; k" := (bind m (fun _ => k))
  (at level 61, right associativity) : py_scope.
Open Scope py_scope.

Definition get_world : M world := fun w => (Returns w, w).

Definition emit (e : event) : M unit :=
  fun w =>
    (Returns tt,
     {| stdin := stdin w; trace := trace w ++ [e];
        IMMICH_HOST := IMMICH_HOST w; API_KEY := API_KEY w;
        LIBRARY_ROOT := LIBRARY_ROOT w; HEADERS := HEADERS w |}).

(** [print(line)] *)
Definition print (line : string) : M unit := emit (Printed line).

(** [input(prompt)]: writes the prompt and takes what the terminal has. *)
Definition input (prompt : string) : M string :=
  emit (Prompted prompt) ;;
  fun w =>
    match stdin w with
    | [] => (Raises EOFError, w)
    | k :: rest =>
        let w' := {| stdin := rest; trace := trace w;
                     IMMICH_HOST := IMMICH_HOST w; API_KEY := API_KEY w;
                     LIBRARY_ROOT := LIBRARY_ROOT w; HEADERS := HEADERS w |} in
        match k with
        | Line s => (Returns s, w')
        | Interrupt => (Raises KeyboardInterrupt, w')
        end
    end.

(** The requests of a trace, oldest first. *)
Definition requests_of (tr : list event) : list request :=
  flat_map (fun e => match e with Requested r => [r] | _ => [] end) tr.

(** [requests.get/post/put(...)] against one endpoint of the server. *)
Definition send {A} (endpoint : list request -> request -> reply A)
    (r : request) : M (response A) :=
  w <- get_world ;;
  emit (Requested r) ;;
  match endpoint (requests_of (trace w)) r with
  | Fails e => raise (RequestException e)
  | Responds resp => ret resp
  end.

(** [response.raise_for_status()] *)
Definition raise_for_status {A} (resp : response A) : M unit :=
  if (400 <=? status_code resp)%Z && (status_code resp <? 600)%Z
  then raise (RequestException (status_error resp))
  else ret tt.

(** [for x in l: s = body(x, s)] *)
Fixpoint for_in {A S} (l : list A) (s : S) (body : A -> S -> M S) : M S :=
  match l with
  | [] => ret s
  | x :: l' => s' <- body x s ;; for_in l' s' body
  end.

(** One turn of a [while True] loop either goes on to the next turn or
    returns from the function. *)
Inductive turn (A : Type) : Type :=
  | Continue
  | Return (a : A).
Arguments Continue {A}.
Arguments Return {A} _.

Fixpoint while_true {A} (fuel : nat) (body : M (turn A)) : M A :=
  match fuel with
  | O => out_of_fuel
  | S fuel' =>
      t <- body ;;
      match t with
      | Continue => while_true fuel' body
      | Return a => ret a
      end
  end.

Definition set_IMMICH_HOST (v : option string) : M unit :=
  fun w =>
    (Returns tt,
     {| stdin := stdin w; trace := trace w;
        IMMICH_HOST := v; API_KEY := API_KEY w;
        LIBRARY_ROOT := LIBRARY_ROOT w; HEADERS := HEADERS w |}).

Definition set_API_KEY (v : option string) : M unit :=
  fun w =>
    (Returns tt,
     {| stdin := stdin w; trace := trace w;
        IMMICH_HOST := IMMICH_HOST w; API_KEY := v;
        LIBRARY_ROOT := LIBRARY_ROOT w; HEADERS := HEADERS w |}).

Definition set_LIBRARY_ROOT (v : option string) : M unit :=
  fun w =>
    (Returns tt,
     {| stdin := stdin w; trace := trace w;
        IMMICH_HOST := IMMICH_HOST w; API_KEY := API_KEY w;
        LIBRARY_ROOT := v; HEADERS := HEADERS w |}).

Definition set_HEADERS (v : option (list (string * string))) : M unit :=
  fun w =>
    (Returns tt,
     {| stdin := stdin w; trace := trace w;
        IMMICH_HOST := IMMICH_HOST w; API_KEY := API_KEY w;
        LIBRARY_ROOT := LIBRARY_ROOT w; HEADERS := v |}).

(** What [create_album] hands back: the script tests it for truth. *)
Inductive pyvalue : Type :=
  | PyNone
  | PyBool (b : bool).

Definition py_truthy (v : pyvalue) : bool :=
  match v with
  | PyNone => false
  | PyBool b => b
  end.

(** [a == b] where [a] comes from [dict.get] and [b] is a string *)
Definition get_equals (a : option string) (b : string) : bool :=
  match a with
  | Some s => s =? b
  | None => false
  end.

Definition nonempty {A} (l : list A) : bool :=
  match l with
  | [] => false
  | _ :: _ => true
  end.

(** ** The script *)

Section Script.

Variable E : environment.

Let fs := env_fs E.
Let srv := env_server E.

(** lines 12-30 *)
Fixpoint get_immich_host_from_user (fuel : nat) : M (option string) :=
  match fuel with
  | O => out_of_fuel
  | S fuel' =>
      let default_host := "127.0.0.1:2283" in
      try_except
        (host <- input (PyStr.nl ++ "请输入 Immich 服务器地址 ["
                          ++ default_host ++ "]: ") ;;
         let host := PyStr.strip host in
         let host := if host =? EmptyString then default_host else host in
         if negb (PyStr.char_in ":" host) then
           print ("警告: 地址格式可能不正确，建议格式为 IP:端口 (如 "
                    ++ default_host ++ ")") ;;
           confirm <- input "是否继续使用此地址? (y/n): " ;;
           let confirm := PyStr.lower (PyStr.strip confirm) in
           if negb (confirm =? "y") then get_immich_host_from_user fuel'
           else ret (Some host)
         else ret (Some host))
        (except_KeyboardInterrupt
           (print (PyStr.nl ++ "操作已取消") ;; ret None))
  end.

(** lines 33-44 *)
Fixpoint get_api_key_from_user (fuel : nat) : M (option string) :=
  match fuel with
  | O => out_of_fuel
  | S fuel' =>
      try_except
        (api_key <- input (PyStr.nl ++ "请输入 Immich API 密钥: ") ;;
         let api_key := PyStr.strip api_key in
         if api_key =? EmptyString then
           print "API 密钥不能为空" ;;
           get_api_key_from_user fuel'
         else ret (Some api_key))
        (except_KeyboardInterrupt
           (print (PyStr.nl ++ "操作已取消") ;; ret None))
  end.

(** lines 47-52 *)
Definition setup_headers (api_key : string) : list (string * string) :=
  [("x-api-key", api_key); ("Content-Type", "application/json")].

(** lines 58-87: one turn of the loop *)
Definition get_library_root_turn : M (turn (option string)) :=
  try_except
    (path <- input (PyStr.nl ++ "请输入相册导入基础路径 (LIBRARY_ROOT): ") ;;
     let path := PyStr.strip path in
     if path =? EmptyString then
       print "路径不能为空" ;;
       ret Continue
     else
       let full_path := fs_expanduser fs path in
       let full_path := fs_abspath fs full_path in
       if negb (fs_exists fs full_path) then
         print ("路径不存在: " ++ full_path) ;;
         retry <- input "是否重新输入? (y/n): " ;;
         let retry := PyStr.lower (PyStr.strip retry) in
         if negb (retry =? "y") then ret (Return None) else ret Continue
       else if negb (fs_isdir fs full_path) then
         print ("路径不是目录: " ++ full_path) ;;
         retry <- input "是否重新输入? (y/n): " ;;
         let retry := PyStr.lower (PyStr.strip retry) in
         if negb (retry =? "y") then ret (Return None) else ret Continue
       else ret (Return (Some full_path)))
    (except_KeyboardInterrupt
       (print (PyStr.nl ++ "操作已取消") ;; ret (Return None))).

(** lines 55-87 *)
Definition get_library_root_from_user (fuel : nat) : M (option string) :=
  while_true fuel get_library_root_turn.

(** lines 99-105: the two nested loops over the triples of the walk *)
Definition subdirectories_of (triples : list (string * list string))
    : list string :=
  fold_left
    (fun subdirs triple =>
       fold_left
         (fun subdirs dir_name =>
            (subdirs ++ [PosixPath.join (fst triple) dir_name])%list)
         (snd triple) subdirs)
    triples [].

(** lines 99-105; [os.walk] yields nothing for a path it cannot list. *)
Definition get_all_subdirectories (root_dir : string) : M (list string) :=
  emit (Walked root_dir) ;;
  ret (subdirectories_of
         match fs_tree fs root_dir with
         | Some t => os_walk root_dir t
         | None => []
         end).

(** lines 108-122 *)
Definition get_folder_assets (abs_folder_path : string) : M (list string) :=
  w <- get_world ;;
  let immich_path := convert_to_immich_path (LIBRARY_ROOT w) abs_folder_path in
  let url := "http://" ++ PyStr.format (IMMICH_HOST w) ++ "/api/view/folder" in
  let params := [("path", immich_path)] in
  try_except
    (response <- send (view_folder srv)
                   {| req_method := GET; req_url := url;
                      req_headers := HEADERS w; req_params := params;
                      req_json := [] |} ;;
     raise_for_status response ;;
     let data := json response in
     let asset_ids := map asset_id data in
     ret asset_ids)
    (except_RequestException
       (fun e =>
          print ("[ERROR] Failed to get assets for '" ++ immich_path
                   ++ "': " ++ e) ;;
          ret [])).

(** lines 125-145 *)
Definition get_all_assets_recursive (root_folder : string) : M (list string) :=
  let all_asset_ids : list string := [] in
  root_assets <- get_folder_assets root_folder ;;
  let all_asset_ids := (all_asset_ids ++ root_assets)%list in
  subdirs <- get_all_subdirectories root_folder ;;
  all_asset_ids <-
    for_in subdirs all_asset_ids
      (fun subdir all_asset_ids =>
         subdir_assets <- get_folder_assets subdir ;;
         let all_asset_ids := (all_asset_ids ++ subdir_assets)%list in
         (if nonempty subdir_assets then
            w <- get_world ;;
            let immich_path := convert_to_immich_path (LIBRARY_ROOT w) subdir in
            print ("  Found " ++ PyStr.of_nat (List.length subdir_assets)
                     ++ " assets in: " ++ immich_path)
          else ret tt) ;;
         ret all_asset_ids) ;;
  let unique_assets := PyDict.keys (PyDict.fromkeys all_asset_ids) in
  ret unique_assets.

(** lines 148-158 *)
Definition get_all_albums : M (list album) :=
  w <- get_world ;;
  let url := "http://" ++ PyStr.format (IMMICH_HOST w) ++ "/api/albums" in
  try_except
    (response <- send (list_albums srv)
                   {| req_method := GET; req_url := url;
                      req_headers := HEADERS w; req_params := [];
                      req_json := [] |} ;;
     raise_for_status response ;;
     let albums := json response in
     ret albums)
    (except_RequestException
       (fun e =>
          print ("[ERROR] Failed to get albums: " ++ e) ;;
          ret [])).

(** lines 161-164 *)
Definition album_exists (album_name : string) : M bool :=
  albums <- get_all_albums ;;
  ret (existsb (fun album => get_equals (albumName album) album_name) albums).

(** lines 167-189 *)
Definition create_album (album_name : string) (asset_ids : list string)
    (dry_run : bool) : M pyvalue :=
  exists_ <- album_exists album_name ;;
  if exists_ then
    print ("[SKIP] Album '" ++ album_name ++ "' already exists.") ;;
    ret PyNone
  else if dry_run then
    print ("[DRY-RUN] Would create album '" ++ album_name ++ "' with "
             ++ PyStr.of_nat (List.length asset_ids) ++ " assets.") ;;
    ret PyNone
  else
    w <- get_world ;;
    let url := "http://" ++ PyStr.format (IMMICH_HOST w) ++ "/api/albums" in
    let payload := [("albumName", JString album_name);
                    ("assetIds", JStrings asset_ids);
                    ("description", JString EmptyString)] in
    try_except
      (response <- send (post_album srv)
                     {| req_method := POST; req_url := url;
                        req_headers := HEADERS w; req_params := [];
                        req_json := payload |} ;;
       raise_for_status response ;;
       print ("[OK] Album created: " ++ album_name ++ " ("
                ++ PyStr.of_nat (List.length asset_ids) ++ " assets)") ;;
       ret PyNone)
      (except_RequestException
         (fun e =>
            print ("[ERROR] Failed to create album '" ++ album_name
                     ++ "': " ++ e) ;;
            ret PyNone)).

(** lines 192-212 *)
Definition add_assets_to_album (album_id : option string)
    (asset_ids : list string) (dry_run : bool) : M bool :=
  if negb (nonempty asset_ids) then
    print "[ERROR] No assets to add." ;;
    ret false
  else if dry_run then
    print ("[DRY-RUN] Would add " ++ PyStr.of_nat (List.length asset_ids)
             ++ " assets to album.") ;;
    ret true
  else
    w <- get_world ;;
    let url := "http://" ++ PyStr.format (IMMICH_HOST w) ++ "/api/albums/"
                 ++ PyStr.format album_id ++ "/assets" in
    let payload := [("ids", JStrings asset_ids)] in
    try_except
      (response <- send (put_album_assets srv)
                     {| req_method := PUT; req_url := url;
                        req_headers := HEADERS w; req_params := [];
                        req_json := payload |} ;;
       raise_for_status response ;;
       print ("[OK] Added " ++ PyStr.of_nat (List.length asset_ids)
                ++ " assets to album.") ;;
       ret true)
      (except_RequestException
         (fun e =>
            print ("[ERROR] Failed to add assets to album: " ++ e) ;;
            ret false)).

(** lines 217-232: one turn of the loop *)
Definition get_new_album_name_turn : M (turn (option string)) :=
  try_except
    (album_name <- input (PyStr.nl ++ "请输入新相册名称: ") ;;
     let album_name := PyStr.strip album_name in
     if album_name =? EmptyString then
       print "相册名称不能为空" ;;
       ret Continue
     else
       exists_ <- album_exists album_name ;;
       if exists_ then
         print ("相册 '" ++ album_name ++ "' 已存在，请使用其他名称") ;;
         ret Continue
       else ret (Return (Some album_name)))
    (except_KeyboardInterrupt
       (print (PyStr.nl ++ "操作已取消") ;; ret (Return None))).

(** lines 215-232 *)
Definition get_new_album_name (fuel : nat) : M (option string) :=
  while_true fuel get_new_album_name_turn.

(** lines 247-269: one turn of the loop *)
Definition select_album_turn (fuel : nat) (albums : list album)
    : M (turn (option album)) :=
  try_except
    (choice <- input (PyStr.nl ++ "请选择相册 (0-"
                        ++ PyStr.of_nat (List.length albums) ++ "): ") ;;
     let choice := PyStr.strip choice in
     if choice =? EmptyString then ret Continue
     else
       match PyStr.int choice with
       | None => raise ValueError
       | Some choice_num =>
           if (choice_num =? 0)%Z then
             new_album_name <- get_new_album_name fuel ;;
             if PyStr.truthy new_album_name then
               ret (Return (Some {| albumName := new_album_name;
                                    album_id := None;
                                    assetCount := None;
                                    create_new := Some true |}))
             else ret (Return None)
           else if (1 <=? choice_num)%Z
                   && (choice_num <=? Z.of_nat (List.length albums))%Z then
             match nth_error albums (Z.to_nat (choice_num - 1)) with
             | Some a => ret (Return (Some a))
             | None => raise IndexError
             end
           else
             print ("请输入 0 到 " ++ PyStr.of_nat (List.length albums)
                      ++ " 之间的数字") ;;
             ret Continue
       end)
    (fun e =>
       match e with
       | ValueError => Some (print "请输入有效的数字" ;; ret Continue)
       | KeyboardInterrupt =>
           Some (print (PyStr.nl ++ "操作已取消") ;; ret (Return None))
       | _ => None
       end).

(** lines 235-269 *)
Definition select_album_interactive (fuel : nat) : M (option album) :=
  albums <- get_all_albums ;;
  print (PyStr.nl ++ "发现 " ++ PyStr.of_nat (List.length albums)
           ++ " 个相册:") ;;
  print "0. 创建新相册" ;;
  for_in (combine (seq 1 (List.length albums)) albums) tt
    (fun entry _ =>
       let idx := fst entry in
       let album := snd entry in
       let album_name :=
         match albumName album with
         | Some n => n
         | None => "未命名相册"
         end in
       let asset_count :=
         match assetCount album with
         | Some c => c
         | None => 0%Z
         end in
       print (PyStr.of_nat idx ++ ". " ++ album_name ++ " ("
                ++ PyStr.of_Z asset_count ++ " 个资源)")) ;;
  while_true fuel (select_album_turn fuel albums).

(** lines 294-298 and 374-378: the conditional that collects the assets
    of a path, written out in [get_path_from_user] and again in
    [interactive_album_manager]. *)
Definition collect_assets (path : string) : M (list string) :=
  if fs_isdir fs path then get_all_assets_recursive path
  else get_folder_assets (PosixPath.dirname path).

(** lines 274-314: one turn of the loop; [os.path.join] raises
    [TypeError] on [None]. *)
Definition get_path_turn : M (turn (option string * nat)) :=
  try_except
    (w <- get_world ;;
     path <- input (PyStr.nl ++ "请输入要添加到相册的路径 (相对于基础路径):"
                      ++ PyStr.nl ++ PyStr.format (LIBRARY_ROOT w) ++ "/") ;;
     let path := PyStr.strip path in
     if path =? EmptyString then
       print "路径不能为空" ;;
       ret Continue
     else
       match LIBRARY_ROOT w with
       | None => raise TypeError
       | Some library_root =>
           let full_path := PosixPath.join library_root path in
           if negb (fs_exists fs full_path) then
             print ("路径不存在: " ++ full_path) ;;
             retry <- input "是否重新输入? (y/n): " ;;
             let retry := PyStr.lower (PyStr.strip retry) in
             if negb (retry =? "y") then ret (Return (None, 0))
             else ret Continue
           else
             print (PyStr.nl ++ "正在查询路径中的资源: " ++ full_path) ;;
             asset_ids <- collect_assets full_path ;;
             let asset_count := List.length asset_ids in
             print ("在该路径中找到 " ++ PyStr.of_nat asset_count
                      ++ " 个资源") ;;
             if (asset_count =? 0)%nat then
               print "⚠️  该路径中没有找到任何资源" ;;
               retry <- input "是否重新输入路径? (y/n): " ;;
               let retry := PyStr.lower (PyStr.strip retry) in
               if negb (retry =? "y") then ret (Return (None, 0))
               else ret Continue
             else ret (Return (Some full_path, asset_count))
       end)
    (except_KeyboardInterrupt
       (print (PyStr.nl ++ "操作已取消") ;; ret (Return (None, 0)))).

(** lines 272-314 *)
Definition get_path_from_user (fuel : nat) : M (option string * nat) :=
  while_true fuel get_path_turn.

(** lines 384-404: the last step of [interactive_album_manager] *)
Definition perform_operation (is_new_album : bool) (album_name : string)
    (album_id : option string) (asset_ids : list string) (dry_run : bool)
    : M unit :=
  if is_new_album then
    success <- create_album album_name asset_ids dry_run ;;
    if py_truthy success || dry_run then
      if dry_run then
        print ("[DRY-RUN] 模拟完成：创建新相册 '" ++ album_name ++ "' 包含 "
                 ++ PyStr.of_nat (List.length asset_ids) ++ " 个资源")
      else
        print ("成功创建新相册 '" ++ album_name ++ "' 包含 "
                 ++ PyStr.of_nat (List.length asset_ids) ++ " 个资源")
    else print "创建新相册失败"
  else
    success <- add_assets_to_album album_id asset_ids dry_run ;;
    if success then
      if dry_run then
        print ("[DRY-RUN] 模拟完成：将 "
                 ++ PyStr.of_nat (List.length asset_ids)
                 ++ " 个资源添加到相册 '" ++ album_name ++ "'")
      else
        print ("成功将 " ++ PyStr.of_nat (List.length asset_ids)
                 ++ " 个资源添加到相册 '" ++ album_name ++ "'")
    else print "添加资源到相册失败".

(** lines 350-404: what [interactive_album_manager] does once the three
    settings are in place *)
Definition manage_album (fuel : nat) (dry_run : bool) : M unit :=
  selected_album <- select_album_interactive fuel ;;
  match selected_album with
  | None => print "操作已取消。"
  | Some selected_album =>
      let is_new_album :=
        match create_new selected_album with
        | Some b => b
        | None => false
        end in
      let album_name :=
        match albumName selected_album with
        | Some n => n
        | None => "未命名相册"
        end in
      album_id <-
        (if is_new_album then
           print (PyStr.nl ++ "将创建新相册: " ++ album_name) ;;
           ret None
         else
           let album_id := album_id selected_album in
           print (PyStr.nl ++ "已选择现有相册: " ++ album_name) ;;
           ret album_id) ;;
      found <- get_path_from_user fuel ;;
      match fst found with
      | None => print "操作已取消。"
      | Some target_path =>
          asset_ids <- collect_assets target_path ;;
          if negb (nonempty asset_ids) then
            print ("在路径 " ++ target_path ++ " 中未找到任何资源")
          else
            perform_operation is_new_album album_name album_id asset_ids
              dry_run
      end
  end.

(** lines 317-404 *)
Definition interactive_album_manager (fuel : nat) (dry_run : bool) : M unit :=
  print (PyStr.nl ++ "=== Immich 相册管理工具 ===") ;;
  print (PyStr.nl ++ "--- 配置设置 ---") ;;
  host <- get_immich_host_from_user fuel ;;
  set_IMMICH_HOST host ;;
  match host with
  | None => print "未设置 Immich 服务器地址，程序退出。"
  | Some host =>
      api_key <- get_api_key_from_user fuel ;;
      set_API_KEY api_key ;;
      match api_key with
      | None => print "未设置 API 密钥，程序退出。"
      | Some api_key =>
          set_HEADERS (Some (setup_headers api_key)) ;;
          library_root <- get_library_root_from_user fuel ;;
          set_LIBRARY_ROOT library_root ;;
          match library_root with
          | None => print "未设置基础路径，程序退出。"
          | Some library_root =>
              print (PyStr.nl ++ "✓ Immich 服务器: " ++ host) ;;
              print ("✓ API 密钥: "
                       ++ PyStr.replicate (PyStr.len api_key - 4) "*"
                       ++ PyStr.last_chars 4 api_key) ;;
              print ("✓ 基础路径: " ++ library_root) ;;
              print (PyStr.nl ++ "=== 相册资源管理 ===") ;;
              manage_album fuel dry_run
          end
      end
  end.

(** lines 409-414: a run of the script with the [--dry-run] flag given
    or not; the loops get more fuel than the terminal has input. *)
Definition main (dry_run : bool) : M unit :=
  w <- get_world ;;
  interactive_album_manager (S (List.length (stdin w))) dry_run.

End Script.

(** The state a run starts in: nothing printed or requested, the globals
    [None]. *)
Definition initial_world (keys : list keyboard) : world :=
  {| stdin := keys; trace := [];
     IMMICH_HOST := None; API_KEY := None;
     LIBRARY_ROOT := None; HEADERS := None |}.

(** ** Vocabulary of the properties *)

(** The calls that change the server: the album-create POST and the
    asset-append PUT. *)
Definition mutating (e : event) : bool :=
  match e with
  | Requested r =>
      match req_method r with
      | GET => false
      | POST | PUT => true
      end
  | _ => false
  end.

Definition is_request (e : event) : bool :=
  match e with
  | Requested _ => true
  | _ => false
  end.

Definition is_walk (e : event) : bool :=
  match e with
  | Walked _ => true
  | _ => false
  end.

(** A request fails when [requests] raises or the status is an error
    status, which [raise_for_status] turns into an exception. *)
Definition request_fails {A} (r : reply A) : bool :=
  match r with
  | Fails _ => true
  | Responds resp => (400 <=? status_code resp)%Z && (status_code resp <? 600)%Z
  end.

(** Deduplication by first occurrence, in the specification's words: an
    identifier is kept where it is first seen and dropped afterwards. *)
Fixpoint first_occurrences_from (seen l : list string) : list string :=
  match l with
  | [] => []
  | x :: l' =>
      if existsb (String.eqb x) seen then first_occurrences_from seen l'
      else x :: first_occurrences_from (x :: seen) l'
  end.

Definition first_occurrences (l : list string) : list string :=
  first_occurrences_from [] l.

(** ** Judgements on runs *)

(** The globals are the same in [w] and [w']. *)
Definition same_globals (w w' : world) : Prop :=
  IMMICH_HOST w' = IMMICH_HOST w /\ API_KEY w' = API_KEY w /\
  LIBRARY_ROOT w' = LIBRARY_ROOT w /\ HEADERS w' = HEADERS w.

(** An invariant that only looks at the globals. *)
Definition stable (I : world -> Prop) : Prop :=
  forall w w', same_globals w w' -> I w -> I w'.

(** [w'] continues [w]: the trace has grown by events that satisfy [ev]
    and the pending input has not grown. *)
Definition continues (ev : event -> bool) (w w' : world) : Prop :=
  (exists l, trace w' = (trace w ++ l)%list /\ forallb ev l = true) /\
  List.length (stdin w') <= List.length (stdin w).

(** The run has ended, by returning or by an exception that satisfies
    [ex]. *)
Definition outcome_ok {A} (ex : exn -> bool) (o : outcome A) : Prop :=
  match o with
  | Returns _ => True
  | Raises e => ex e = true
  | OutOfFuel => False
  end.

(** From a state that satisfies [I] and has fewer than [n] pending inputs,
    [m] emits only events that satisfy [ev], keeps [I], raises only
    exceptions that satisfy [ex], and does not run out of fuel. *)
Definition run_ok {A} (n : nat) (I : world -> Prop) (ev : event -> bool)
    (ex : exn -> bool) (m : M A) : Prop :=
  forall w, List.length (stdin w) < n -> I w ->
    continues ev w (snd (m w)) /\ I (snd (m w)) /\ outcome_ok ex (fst (m w)).

(** When [m] returns it has taken some input. *)
Definition consuming {A} (n : nat) (I : world -> Prop) (m : M A) : Prop :=
  forall w, List.length (stdin w) < n -> I w ->
    match fst (m w) with
    | Returns _ => List.length (stdin (snd (m w))) < List.length (stdin w)
    | _ => True
    end.

Definition handles {A} (handler : exn -> option (M A)) (e : exn) : bool :=
  match handler e with
  | Some _ => true
  | None => false
  end.

Definition is_EOFError (e : exn) : bool :=
  match e with
  | EOFError => true
  | _ => false
  end.

Definition no_exn (e : exn) : bool := false.

Definition any_event (e : event) : bool := true.

Definition not_mutating (e : event) : bool := negb (mutating e).

(** The events a run with the given flag may emit: all of them, or with
    [--dry-run] the ones that do not change the server. *)
Definition allowed (dry_run : bool) : event -> bool :=
  if dry_run then not_mutating else any_event.

Definition root_set (w : world) : Prop := LIBRARY_ROOT w <> None.

(** ** Vocabulary of the aggregation property *)

(** The value of a query parameter. *)
Fixpoint lookup (name : string) (params : list (string * string))
    : option string :=
  match params with
  | [] => None
  | (k, v) :: params' => if k =? name then Some v else lookup name params'
  end.

(** The folder a folder-view request asks about. *)
Definition requested_folder (r : request) : string :=
  match lookup "path" (req_params r) with
  | Some p => p
  | None => EmptyString
  end.

(** The folder view answers as an oracle: whatever was requested before,
    the request for a folder succeeds and reports the identifiers that
    [table] assigns to the folder. *)
Definition folder_oracle (E : environment) (table : string -> list string)
    : Prop :=
  forall history r,
    exists resp,
      view_folder (env_server E) history r = Responds resp /\
      request_fails (Responds resp) = false /\
      map asset_id (json resp) = table (requested_folder r).

(** The descendants of a directory, each listed before its own
    descendants. *)
Fixpoint descendants (top : string) (t : dirtree) : list string :=
  match t with
  | Dir dirs =>
      flat_map
        (fun d =>
           PosixPath.join top (fst d)
             :: descendants (PosixPath.join top (fst d)) (snd d))
        dirs
  end.

(** [w] after the events [l]. *)
Definition after (w : world) (l : list event) : world :=
  {| stdin := stdin w; trace := trace w ++ l;
     IMMICH_HOST := IMMICH_HOST w; API_KEY := API_KEY w;
     LIBRARY_ROOT := LIBRARY_ROOT w; HEADERS := HEADERS w |}.

(** The four requests of the script, as sent from the state [w]. *)
Definition folder_request (w : world) (abs_folder_path : string) : request :=
  {| req_method := GET;
     req_url := "http://" ++ PyStr.format (IMMICH_HOST w) ++ "/api/view/folder";
     req_headers := HEADERS w;
     req_params :=
       [("path", convert_to_immich_path (LIBRARY_ROOT w) abs_folder_path)];
     req_json := [] |}.

Definition albums_request (w : world) : request :=
  {| req_method := GET;
     req_url := "http://" ++ PyStr.format (IMMICH_HOST w) ++ "/api/albums";
     req_headers := HEADERS w;
     req_params := [];
     req_json := [] |}.

Definition create_request (w : world) (album_name : string)
    (asset_ids : list string) : request :=
  {| req_method := POST;
     req_url := "http://" ++ PyStr.format (IMMICH_HOST w) ++ "/api/albums";
     req_headers := HEADERS w;
     req_params := [];
     req_json := [("albumName", JString album_name);
                  ("assetIds", JStrings asset_ids);
                  ("description", JString EmptyString)] |}.

Definition append_request (w : world) (album_id : option string)
    (asset_ids : list string) : request :=
  {| req_method := PUT;
     req_url := "http://" ++ PyStr.format (IMMICH_HOST w) ++ "/api/albums/"
                  ++ PyStr.format album_id ++ "/assets";
     req_headers := HEADERS w;
     req_params := [];
     req_json := [("ids", JStrings asset_ids)] |}.

(** The text of the exception a failing request ends in. *)
Definition failure_text {A} (r : reply A) : string :=
  match r with
  | Fails e => e
  | Responds resp => status_error resp
  end.

(** The order in which the walk lists the directories below [top]: the
    subdirectories of [top] as [os.walk] reports them, then, for each of
    them in turn, the directories below it in the same order. *)
Fixpoint walk_order (top : string) (t : dirtree) : list string :=
  match t with
  | Dir dirs =>
      (map (fun d => PosixPath.join top (fst d)) dirs
         ++ flat_map (fun d => walk_order (PosixPath.join top (fst d)) (snd d))
              dirs)%list
  end.

(** A deeper tree: "a" holds "x", "b" holds "y". *)
Definition two_levels : dirtree :=
  Dir [("a", Dir [("x", Dir [])]); ("b", Dir [("y", Dir [])])].

(** ** A small library, for running the script

    The library root "/lib" holds the folders "a" and "b" and the file
    "x.jpg", the folder "a" the file "p.jpg"; the server knows the assets
    1 and 2 in "a", 2 and 3 in "b", and the album "Holiday"; an album
    created by a POST is listed from then on. *)

Module Demo.

Definition tree_lib : dirtree := Dir [("a", Dir []); ("b", Dir [])].

Definition files : filesystem :=
  {| fs_expanduser := fun p => p;
     fs_abspath := fun p => p;
     fs_exists := fun p =>
       existsb (String.eqb p)
         ["/lib"; "/lib/a"; "/lib/b"; "/lib/x.jpg"; "/lib/a/p.jpg"];
     fs_isdir := fun p => existsb (String.eqb p) ["/lib"; "/lib/a"; "/lib/b"];
     fs_tree := fun p =>
       if p =? "/lib" then Some tree_lib
       else if (p =? "/lib/a") || (p =? "/lib/b") then Some (Dir [])
       else None |}.

Definition ok {A} (code : Z) (body : A) : reply A :=
  Responds {| status_code := code; status_error := EmptyString; json := body |}.

Definition folder_table (path : string) : list string :=
  if path =? "a" then ["1"; "2"]
  else if path =? "b" then ["2"; "3"]
  else [].

Definition holiday : album :=
  {| albumName := Some "Holiday"; album_id := Some "alb-1";
     assetCount := Some 3%Z; create_new := None |}.

Definition created_album (r : request) : list album :=
  match req_method r, req_json r with
  | POST, (_, JString name) :: _ =>
      [{| albumName := Some name; album_id := Some "alb-new";
          assetCount := Some 0%Z; create_new := None |}]
  | _, _ => []
  end.

Definition immich : server :=
  {| view_folder := fun _ r =>
       ok 200 (map (fun i => {| asset_id := i |}) (folder_table (requested_folder r)));
     list_albums := fun history _ =>
       ok 200 (holiday :: flat_map created_album history);
     post_album := fun _ _ => ok 201 tt;
     put_album_assets := fun _ _ => ok 200 tt |}.

(** The same server when it cannot be reached. *)
Definition unreachable : server :=
  {| view_folder := fun _ _ => Fails "Connection refused";
     list_albums := fun _ _ => Fails "Connection refused";
     post_album := fun _ _ => Fails "Connection refused";
     put_album_assets := fun _ _ => Fails "Connection refused" |}.

Definition env : environment := {| env_server := immich; env_fs := files |}.

Definition offline : environment :=
  {| env_server := unreachable; env_fs := files |}.

(** A session: the default server address, a key, the library root, a new
    album "Trip", and the folder "a". *)
Definition session_new_album : list keyboard :=
  [Line EmptyString; Line "secret-key"; Line "/lib"; Line "0"; Line "Trip"; Line "a"].

(** A session that picks the existing album "Holiday" and the folder
    "b". *)
Definition session_existing_album : list keyboard :=
  [Line EmptyString; Line "secret-key"; Line "/lib"; Line "1"; Line "b"].

(** A session that picks "Holiday" and names a file of the folder "a". *)
Definition session_file : list keyboard :=
  [Line ""; Line "secret-key"; Line "/lib"; Line "1"; Line "a/p.jpg"].

(** A session with the server out of reach: a new album "Trip", the
    folder "a", and no second try. *)
Definition session_offline : list keyboard :=
  [Line EmptyString; Line "secret-key"; Line "/lib"; Line "0"; Line "Trip"; Line "a";
   Line "n"].

(** The state after the settings have been entered. *)
Definition configured (keys : list keyboard) : world :=
  {| stdin := keys; trace := [];
     IMMICH_HOST := Some "127.0.0.1:2283"; API_KEY := Some "secret-key";
     LIBRARY_ROOT := Some "/lib";
     HEADERS := Some (setup_headers "secret-key") |}.

End Demo.

(** ** Vocabulary of the further properties *)

(** The default server address of [get_immich_host_from_user]. *)
Definition default_host : string := "127.0.0.1:2283".

(** The lines the terminal still holds. *)
Definition typed (s : string) (w : world) : Prop := In (Line s) (stdin w).

(** Ctrl-C is among what the terminal still holds. *)
Definition interrupted (w : world) : Prop := In Interrupt (stdin w).

(** [m] reads nothing from the terminal and writes no global. *)
Definition quiet {A} (m : M A) : Prop :=
  forall w, stdin (snd (m w)) = stdin w /\ same_globals w (snd (m w)).

(** What the terminal holds in [w'] it already held in [w]. *)
Definition later_input (w w' : world) : Prop :=
  forall k, In k (stdin w') -> In k (stdin w).

(** The path that [get_library_root_from_user] makes of a typed line *)
Definition library_root_of (E : environment) (s : string) : string :=
  fs_abspath (env_fs E) (fs_expanduser (env_fs E) (PyStr.strip s)).

(** What [get_library_root_from_user] returns when it runs from [w] to
    [w']. With [read] what it took from the terminal: a path is returned
    for the last line read, which names an existing directory; [None] is
    returned when the last thing read is Ctrl-C, or when the last two
    lines read are a path that does not exist or is no directory and an
    answer other than "y" to the question whether to try again. *)
Definition library_root_answer (E : environment) (w w' : world)
    (o : option string) : Prop :=
  exists read,
    stdin w = (read ++ stdin w')%list /\
    match o with
    | Some p =>
        exists before s,
          read = (before ++ [Line s])%list /\
          PyStr.strip s <> EmptyString /\ p = library_root_of E s /\
          fs_exists (env_fs E) p = true /\ fs_isdir (env_fs E) p = true
    | None =>
        (exists before, read = (before ++ [Interrupt])%list) \/
        exists before s r,
          read = (before ++ [Line s; Line r])%list /\
          PyStr.strip s <> EmptyString /\
          (fs_exists (env_fs E) (library_root_of E s) = false \/
           fs_isdir (env_fs E) (library_root_of E s) = false) /\
          PyStr.lower (PyStr.strip r) <> "y"
    end.

(** [m] takes input from the terminal, if any, and writes no global. *)
Definition reading {A} (m : M A) : Prop :=
  forall w, later_input w (snd (m w)) /\ same_globals w (snd (m w)).

(** What [get_new_album_name] may return when it runs from [w] to [w']: a
    typed, non-empty name that the last look at the server's albums did
    not find, or [None] after Ctrl-C. *)
Definition new_album_name_answer (E : environment) (w w' : world)
    (o : option string) : Prop :=
  match o with
  | Some name =>
      name <> EmptyString /\
      (exists s, typed s w /\ name = PyStr.strip s) /\
      exists w0, album_exists E name w0 = (Returns false, w')
  | None => interrupted w
  end.

(** What [select_album_interactive] may choose when the server lists
    [albums]: a new album under a typed, non-empty name, or the album at
    the typed position of the list, counted from 1. *)
Definition album_choice (albums : list album) (w : world) (a : album) : Prop :=
  (create_new a = Some true /\ album_id a = None /\ assetCount a = None /\
   exists name s,
     albumName a = Some name /\ name <> EmptyString /\
     typed s w /\ name = PyStr.strip s) \/
  (exists s k,
     typed s w /\ PyStr.int (PyStr.strip s) = Some k /\
     (1 <= k <= Z.of_nat (List.length albums))%Z /\
     nth_error albums (Z.to_nat (k - 1)) = Some a).

(** What [get_path_from_user] may return from [w]: a path below the
    library root, typed relative to it, that exists and for which a
    positive number of assets was collected, or [(None, 0)]. *)
Definition path_answer (E : environment) (w : world)
    (r : option string * nat) : Prop :=
  match r with
  | (Some p, n) =>
      0 < n /\ fs_exists (env_fs E) p = true /\
      (exists root s,
         LIBRARY_ROOT w = Some root /\ typed s w /\
         PyStr.strip s <> EmptyString /\
         p = PosixPath.join root (PyStr.strip s)) /\
      exists w1 w2 ids,
        collect_assets E p w1 = (Returns ids, w2) /\ n = List.length ids
  | (None, n) => n = 0
  end.

(** The directories [get_all_subdirectories] lists below [root]: those of
    the walk, or none when the walk finds nothing to list. *)
Definition listed (E : environment) (root : string) : list string :=
  match fs_tree (env_fs E) root with
  | Some t => walk_order root t
  | None => []
  end.

(** The events of a run change the server at most once, and by the last
    request: a stretch without POST or PUT, then nothing, or one POST or
    PUT followed by no further request. *)
Definition mutates_last (l : list event) : Prop :=
  exists pre post,
    l = (pre ++ post)%list /\ forallb not_mutating pre = true /\
    (post = [] \/
     exists r rest,
       post = Requested r :: rest /\ mutating (Requested r) = true /\
       forallb (fun e => negb (is_request e)) rest = true).

(** From a state that satisfies [I] and has fewer than [n] pending inputs,
    the events of [m] change the server at most once, and by the last
    request. *)
Definition run_once {A} (n : nat) (I : world -> Prop) (m : M A) : Prop :=
  forall w, List.length (stdin w) < n -> I w ->
    exists l, trace (snd (m w)) = (trace w ++ l)%list /\ mutates_last l.

(** Equality of the headers of two requests is decidable. *)
Definition headers_dec (a b : option (list (string * string)))
    : {a = b} + {a <> b}.
Proof. repeat decide equality. Defined.

(** The settings are in place, with the given address and key. *)
Definition configured_with (host key : string) (w : world) : Prop :=
  IMMICH_HOST w = Some host /\ API_KEY w = Some key /\
  HEADERS w = Some (setup_headers key) /\ LIBRARY_ROOT w <> None.

(** A request carries the key in its headers and goes to the API of the
    address; other events pass. *)
Definition sent_with (host key : string) (e : event) : bool :=
  match e with
  | Requested r =>
      (if headers_dec (req_headers r) (Some (setup_headers key))
       then true else false)
      && PyStr.startswith (req_url r) ("http://" ++ host ++ "/api/")
  | _ => true
  end.

Definition no_request (e : event) : bool := negb (is_request e).

(** Every request of the trace of [w] was sent as the settings of [w]
    say: there are an address and a key, both not empty, and a library
    root, and the request carries the key and goes to the address. *)
Definition sent_as_configured (w : world) : Prop :=
  forall r, In r (requests_of (trace w)) ->
    exists host key,
      configured_with host key w /\
      host <> EmptyString /\ key <> EmptyString /\
      req_headers r = Some (setup_headers key) /\
      PyStr.startswith (req_url r) ("http://" ++ host ++ "/api/") = true.

(** From a state without requests that satisfies [P] and has fewer than
    [n] pending inputs, [m] ends in a state whose requests were sent as
    configured. *)
Definition ends_sent {A} (n : nat) (P : world -> Prop) (m : M A) : Prop :=
  forall w, List.length (stdin w) < n -> requests_of (trace w) = [] -> P w ->
    sent_as_configured (snd (m w)).

(** When [m] raises [EOFError], the terminal has nothing left. *)
Definition eof_at_end {A} (m : M A) : Prop :=
  forall w, fst (m w) = Raises EOFError -> stdin (snd (m w)) = [].

(** ** The requests as the library performs them

    The four functions that call the server, embedded once more with all
    that the calls inside their [try] blocks can do: [requests.get],
    [requests.post] and [requests.put] return a response or raise an
    exception of any class ([http.client] encodes the header values in
    latin-1, so an API key with another character raises
    [UnicodeEncodeError]); [response.json()] returns the decoded body,
    which is any JSON value, or raises; what the script does with the
    value follows Python's rules for iterating, subscripting and [get]. *)

Module Wire.

(** A decoded JSON value: [None], a [bool], a number (kept as its text),
    a [str], a [list], or a [dict] with its keys in insertion order. *)
#[warnings="-register-all"]
Inductive value : Type :=
  | JNull
  | JBool (b : bool)
  | JNumber (text : string)
  | JStr (s : string)
  | JList (items : list value)
  | JDict (members : list (string * value)).

(** A response: its status code, the text of the [HTTPError] that
    [raise_for_status] raises for it, and what [response.json()] does,
    which is to raise (the body is not JSON) or to return a value. *)
Record response : Type := {
  status : Z;
  reason : string;
  decoded : exn + value
}.

(** What a call of [requests.get/post/put] does. *)
Inductive result : Type :=
  | Throws (e : exn)
  | Gives (r : response).

(** The library in front of the server, one oracle per call site; what a
    call does may depend on the requests made so far. *)
Record library : Type := {
  folder_call : list request -> request -> result;
  albums_call : list request -> request -> result;
  create_call : list request -> request -> result;
  append_call : list request -> request -> result
}.

(** [requests.get/post/put(...)] at one call site. The event records the
    call, whether or not anything reaches the server. *)
Definition call (endpoint : list request -> request -> result)
    (r : request) : M response :=
  w <- get_world ;;
  emit (Requested r) ;;
  match endpoint (requests_of (trace w)) r with
  | Throws e => raise e
  | Gives resp => ret resp
  end.

(** [response.raise_for_status()] *)
Definition raise_for_status (resp : response) : M unit :=
  if (400 <=? status resp)%Z && (status resp <? 600)%Z
  then raise (RequestException (reason resp))
  else ret tt.

(** [response.json()] *)
Definition response_json (resp : response) : M value :=
  match decoded resp with
  | inl e => raise e
  | inr v => ret v
  end.

(** [d[key]] and [d.get(key)] look a key up. *)
Definition member (key : string) (members : list (string * value))
    : option value :=
  option_map snd (find (fun m => fst m =? key) members).

(** [iter(v)]: a list yields its items, a [dict] its keys, a [str] its
    characters; other values are not iterable. *)
Definition iterate (v : value) : M (list value) :=
  match v with
  | JList items => ret items
  | JDict members => ret (map (fun m => JStr (fst m)) members)
  | JStr s => ret (map JStr (PyStr.chars s))
  | JNull | JBool _ | JNumber _ => raise TypeError
  end.

(** [v[key]] for a [str] key: a [dict] has the key or raises [KeyError];
    a list or a [str] takes no [str] index and the other values take no
    index at all. *)
Definition getitem (v : value) (key : string) : M value :=
  match v with
  | JDict members =>
      match member key members with
      | Some x => ret x
      | None => raise KeyError
      end
  | _ => raise TypeError
  end.

(** [v.get(key)]: only a [dict] has the method. *)
Definition get (v : value) (key : string) : M value :=
  match v with
  | JDict members =>
      match member key members with
      | Some x => ret x
      | None => ret JNull
      end
  | _ => raise AttributeError
  end.

(** [v == s] for a [str] [s] *)
Definition equals (v : value) (s : string) : bool :=
  match v with
  | JStr t => t =? s
  | _ => false
  end.

(** [any(test(x) for x in l)] stops at the first item that passes. *)
Fixpoint any {A} (l : list A) (test : A -> M bool) : M bool :=
  match l with
  | [] => ret false
  | x :: l' => b <- test x ;; if b then ret true else any l' test
  end.

Section Calls.

Variable L : library.

(** lines 108-122 *)
Definition get_folder_assets (abs_folder_path : string) : M (list value) :=
  w <- get_world ;;
  let immich_path := convert_to_immich_path (LIBRARY_ROOT w) abs_folder_path in
  let url := "http://" ++ PyStr.format (IMMICH_HOST w) ++ "/api/view/folder" in
  let params := [("path", immich_path)] in
  try_except
    (response <- call (folder_call L)
                   {| req_method := GET; req_url := url;
                      req_headers := HEADERS w; req_params := params;
                      req_json := [] |} ;;
     raise_for_status response ;;
     data <- response_json response ;;
     items <- iterate data ;;
     asset_ids <-
       for_in items []
         (fun item asset_ids =>
            id <- getitem item "id" ;;
            ret (asset_ids ++ [id])%list) ;;
     ret asset_ids)
    (except_RequestException
       (fun e =>
          print ("[ERROR] Failed to get assets for '" ++ immich_path
                   ++ "': " ++ e) ;;
          ret [])).

(** lines 148-158 *)
Definition get_all_albums : M value :=
  w <- get_world ;;
  let url := "http://" ++ PyStr.format (IMMICH_HOST w) ++ "/api/albums" in
  try_except
    (response <- call (albums_call L)
                   {| req_method := GET; req_url := url;
                      req_headers := HEADERS w; req_params := [];
                      req_json := [] |} ;;
     raise_for_status response ;;
     albums <- response_json response ;;
     ret albums)
    (except_RequestException
       (fun e =>
          print ("[ERROR] Failed to get albums: " ++ e) ;;
          ret (JList []))).

(** lines 161-164 *)
Definition album_exists (album_name : string) : M bool :=
  albums <- get_all_albums ;;
  items <- iterate albums ;;
  any items
    (fun album =>
       name <- get album "albumName" ;;
       ret (equals name album_name)).

(** lines 167-189 *)
Definition create_album (album_name : string) (asset_ids : list string)
    (dry_run : bool) : M pyvalue :=
  exists_ <- album_exists album_name ;;
  if exists_ then
    print ("[SKIP] Album '" ++ album_name ++ "' already exists.") ;;
    ret PyNone
  else if dry_run then
    print ("[DRY-RUN] Would create album '" ++ album_name ++ "' with "
             ++ PyStr.of_nat (List.length asset_ids) ++ " assets.") ;;
    ret PyNone
  else
    w <- get_world ;;
    let url := "http://" ++ PyStr.format (IMMICH_HOST w) ++ "/api/albums" in
    let payload := [("albumName", JString album_name);
                    ("assetIds", JStrings asset_ids);
                    ("description", JString EmptyString)] in
    try_except
      (response <- call (create_call L)
                     {| req_method := POST; req_url := url;
                        req_headers := HEADERS w; req_params := [];
                        req_json := payload |} ;;
       raise_for_status response ;;
       print ("[OK] Album created: " ++ album_name ++ " ("
                ++ PyStr.of_nat (List.length asset_ids) ++ " assets)") ;;
       ret PyNone)
      (except_RequestException
         (fun e =>
            print ("[ERROR] Failed to create album '" ++ album_name
                     ++ "': " ++ e) ;;
            ret PyNone)).

(** lines 192-212 *)
Definition add_assets_to_album (album_id : option string)
    (asset_ids : list string) (dry_run : bool) : M bool :=
  if negb (nonempty asset_ids) then
    print "[ERROR] No assets to add." ;;
    ret false
  else if dry_run then
    print ("[DRY-RUN] Would add " ++ PyStr.of_nat (List.length asset_ids)
             ++ " assets to album.") ;;
    ret true
  else
    w <- get_world ;;
    let url := "http://" ++ PyStr.format (IMMICH_HOST w) ++ "/api/albums/"
                 ++ PyStr.format album_id ++ "/assets" in
    let payload := [("ids", JStrings asset_ids)] in
    try_except
      (response <- call (append_call L)
                     {| req_method := PUT; req_url := url;
                        req_headers := HEADERS w; req_params := [];
                        req_json := payload |} ;;
       raise_for_status response ;;
       print ("[OK] Added " ++ PyStr.of_nat (List.length asset_ids)
                ++ " assets to album.") ;;
       ret true)
      (except_RequestException
         (fun e =>
            print ("[ERROR] Failed to add assets to album: " ++ e) ;;
            ret false)).

End Calls.

(** The exception in which a call, or [raise_for_status] after it, ends,
    if it does. *)
Definition call_error (a : result) : option exn :=
  match a with
  | Throws e => Some e
  | Gives resp =>
      if (400 <=? status resp)%Z && (status resp <? 600)%Z
      then Some (RequestException (reason resp))
      else None
  end.

End Wire.

(** The reading of "no exception from these calls propagates": from the
    state [w] the function returns. *)
Definition degrades {A} (f : M A) (w : world) : Prop :=
  exists a, fst (f w) = Returns a.

(** No [RequestException] leaves [m]. *)
Definition contained {A} (m : M A) : Prop :=
  forall w t, fst (m w) <> Raises (RequestException t).

(** *** The documented answers, as the library hands them over *)

Definition asset_value (a : asset) : Wire.value :=
  Wire.JDict [("id", Wire.JStr (asset_id a))].

Definition album_value (a : album) : Wire.value :=
  Wire.JDict
    ((match albumName a with
      | Some n => [("albumName", Wire.JStr n)]
      | None => []
      end)
     ++ (match album_id a with
         | Some i => [("id", Wire.JStr i)]
         | None => []
         end)
     ++ (match assetCount a with
         | Some c => [("assetCount", Wire.JNumber (PyStr.of_Z c))]
         | None => []
         end)
     ++ (match create_new a with
         | Some b => [("create_new", Wire.JBool b)]
         | None => []
         end))%list.

Definition documented_reply {A} (body : A -> Wire.value) (r : reply A)
    : Wire.result :=
  match r with
  | Fails e => Wire.Throws (RequestException e)
  | Responds resp =>
      Wire.Gives {| Wire.status := status_code resp;
                    Wire.reason := status_error resp;
                    Wire.decoded := inr (body (json resp)) |}
  end.

(** The library in front of a server that answers as documented. *)
Definition documented (srv : server) : Wire.library :=
  {| Wire.folder_call := fun history r =>
       documented_reply (fun assets => Wire.JList (map asset_value assets))
         (view_folder srv history r);
     Wire.albums_call := fun history r =>
       documented_reply (fun albums => Wire.JList (map album_value albums))
         (list_albums srv history r);
     Wire.create_call := fun history r =>
       documented_reply (fun _ => Wire.JDict []) (post_album srv history r);
     Wire.append_call := fun history r =>
       documented_reply (fun _ => Wire.JList []) (put_album_assets srv history r) |}.

(** The result of a run, with its value seen through [f]. *)
Definition through {A B} (f : A -> B) (r : outcome A * world)
    : outcome B * world :=
  (match fst r with
   | Returns a => Returns (f a)
   | Raises e => Raises e
   | OutOfFuel => OutOfFuel
   end, snd r).

(** *** Two libraries that do something else *)

Module WireDemo.

(** A server that answers every request with the status 200 and the
    object [{"message": "ok"}]. *)
Definition message : Wire.result :=
  Wire.Gives {| Wire.status := 200;
                Wire.reason := EmptyString;
                Wire.decoded :=
                  inr (Wire.JDict [("message", Wire.JStr "ok")]) |}.

Definition talkative : Wire.library :=
  {| Wire.folder_call := fun _ _ => message;
     Wire.albums_call := fun _ _ => message;
     Wire.create_call := fun _ _ => message;
     Wire.append_call := fun _ _ => message |}.

(** [s.encode("latin-1")] succeeds: every character of [s] is one byte,
    or two bytes of which the first is 0xC2 or 0xC3. *)
Definition latin1 (s : string) : bool :=
  forallb
    (fun ch =>
       match ch with
       | String _ EmptyString => true
       | String c (String _ EmptyString) => (N_of_ascii c <? 196)%N
       | _ => false
       end)
    (PyStr.chars s).

(** [http.client] encodes the value of every header in latin-1 before
    anything is sent. *)
Definition encodes (r : request) : bool :=
  match req_headers r with
  | Some headers => forallb (fun h => latin1 (snd h)) headers
  | None => true
  end.

Definition checked (endpoint : list request -> request -> Wire.result)
    (history : list request) (r : request) : Wire.result :=
  if encodes r then endpoint history r else Wire.Throws UnicodeEncodeError.

(** The library in front of the server of [Demo]. *)
Definition immich : Wire.library :=
  let lib := documented Demo.immich in
  {| Wire.folder_call := checked (Wire.folder_call lib);
     Wire.albums_call := checked (Wire.albums_call lib);
     Wire.create_call := checked (Wire.create_call lib);
     Wire.append_call := checked (Wire.append_call lib) |}.

(** The state after the settings have been entered with the given key. *)
Definition configured (api_key : string) : world :=
  {| stdin := []; trace := [];
     IMMICH_HOST := Some "127.0.0.1:2283"; API_KEY := Some api_key;
     LIBRARY_ROOT := Some "/lib";
     HEADERS := Some (setup_headers api_key) |}.

End WireDemo.
(** * Properties *)

(** ** Strings *)

Lemma startswith_app (s p : string) :
  PyStr.startswith s p = true -> s = p ++ PyStr.slice_from (String.length p) s.
Proof.
  unfold PyStr.startswith. revert s.
  induction p as [|c p IH]; intros s H; simpl.
  - destruct s; reflexivity.
  - destruct s as [|d s]; simpl in H; [discriminate|].
    destruct (ascii_dec c d) as [->|]; [|discriminate].
    simpl. f_equal. apply IH, H.
Qed.

Lemma startswith_of_app (p r : string) : PyStr.startswith (p ++ r) p = true.
Proof.
  unfold PyStr.startswith.
  induction p as [|c p IH]; simpl.
  - destruct r; reflexivity.
  - destruct (ascii_dec c c); [exact IH | congruence].
Qed.

Lemma slice_from_app (p r : string) :
  PyStr.slice_from (String.length p) (p ++ r) = r.
Proof. induction p; simpl; [destruct r|]; auto. Qed.

Lemma lstrip_sep_decompose (s : string) :
  exists k, s = PyStr.replicate k os_sep ++ PyStr.lstrip os_sep s.
Proof.
  induction s as [|c s [k IH]].
  - exists 0. reflexivity.
  - simpl. rewrite orb_false_r.
    destruct (Ascii.eqb_spec c "/") as [->|].
    + exists (S k). simpl. f_equal. exact IH.
    + exists 0. reflexivity.
Qed.

Lemma lstrip_sep_no_leading (s : string) :
  no_leading_separator (PyStr.lstrip os_sep s).
Proof.
  induction s as [|c s IH]; intros s'; simpl.
  - discriminate.
  - rewrite orb_false_r. destruct (Ascii.eqb_spec c "/") as [->|Hc].
    + apply IH.
    + unfold os_sep. simpl. congruence.
Qed.

Lemma lstrip_sep_fixed (s : string) :
  no_leading_separator s -> PyStr.lstrip os_sep s = s.
Proof.
  intros H. destruct s as [|c s]; [reflexivity|].
  simpl. rewrite orb_false_r.
  destruct (Ascii.eqb_spec c "/") as [->|]; [|reflexivity].
  exfalso. exact (H s eq_refl).
Qed.

Lemma startswith_leading (s : string) (c : ascii) (p : string) :
  PyStr.startswith s (String c p) = true -> exists s', s = String c s'.
Proof.
  unfold PyStr.startswith. destruct s as [|d s]; simpl; [discriminate|].
  destruct (ascii_dec c d) as [->|]; [eauto | discriminate].
Qed.

(** ** Path resolution *)

Lemma convert_unset (p : string) : convert_to_immich_path None p = p.
Proof. reflexivity. Qed.

Lemma convert_empty_root (p : string) : convert_to_immich_path (Some EmptyString) p = p.
Proof. reflexivity. Qed.

Lemma convert_under_root (root p : string) :
  root <> EmptyString -> PyStr.startswith p root = true ->
  convert_to_immich_path (Some root) p =
  PyStr.lstrip os_sep (PyStr.slice_from (String.length root) p).
Proof.
  intros Hr Hp. unfold convert_to_immich_path. rewrite Hp.
  destruct root; [congruence | reflexivity].
Qed.

(** C1 as stated fails: after the root prefix the code strips every
    leading separator, which is two of them for "/lib//a" and none for the
    root "/lib" itself. *)
Lemma convert_not_exactly_one_separator :
  (PyStr.startswith "/lib//a" "/lib" = true /\
   convert_to_immich_path (Some "/lib") "/lib//a" = "a" /\
   ~ strips_root_and_one_separator "/lib" "/lib//a"
       (convert_to_immich_path (Some "/lib") "/lib//a")) /\
  (PyStr.startswith "/lib" "/lib" = true /\
   convert_to_immich_path (Some "/lib") "/lib" = EmptyString /\
   ~ strips_root_and_one_separator "/lib" "/lib"
       (convert_to_immich_path (Some "/lib") "/lib")).
Proof.
  unfold strips_root_and_one_separator.
  repeat split; try reflexivity; vm_compute; discriminate.
Qed.

(** The same happens on paths the program itself builds: with the library
    root "/", the folder "/photos" maps to "photos"; a sibling such as
    "/library" of the root "/lib" also starts with the root. *)
Example convert_root_slash :
  convert_to_immich_path (Some "/") "/photos" = "photos".
Proof. reflexivity. Qed.

Example convert_sibling :
  convert_to_immich_path (Some "/lib") "/library/x" = "rary/x".
Proof. reflexivity. Qed.

(** C1 (amended): for a set, non-empty library root and a path that starts
    with it, [convert_to_immich_path] returns the path with the root prefix
    and all the separators that follow it (none, one or several) removed:
    the path is the root, [k] separators and the result, the result does
    not begin with a separator, and when exactly one separator follows the
    root exactly that one is removed. *)
Theorem convert_strips_root_and_separators (root p : string) :
  root <> EmptyString -> PyStr.startswith p root = true ->
  (exists k,
      p = root ++ PyStr.replicate k os_sep ++ convert_to_immich_path (Some root) p) /\
  no_leading_separator (convert_to_immich_path (Some root) p) /\
  (forall r, p = root ++ os_sep ++ r -> no_leading_separator r ->
             convert_to_immich_path (Some root) p = r).
Proof.
  intros Hr Hp. rewrite (convert_under_root _ _ Hr Hp).
  split; [|split].
  - destruct (lstrip_sep_decompose (PyStr.slice_from (String.length root) p))
      as [k Hk].
    exists k. rewrite <- Hk. apply startswith_app, Hp.
  - apply lstrip_sep_no_leading.
  - intros r -> Hnl. rewrite slice_from_app.
    change (os_sep ++ r) with (String "/" r). simpl.
    apply lstrip_sep_fixed, Hnl.
Qed.

Lemma convert_strips_root_and_separators_witness :
  (exists k,
      "/lib/a/b" = "/lib" ++ PyStr.replicate k os_sep
                     ++ convert_to_immich_path (Some "/lib") "/lib/a/b") /\
  no_leading_separator (convert_to_immich_path (Some "/lib") "/lib/a/b") /\
  (forall r, "/lib/a/b" = "/lib" ++ os_sep ++ r -> no_leading_separator r ->
             convert_to_immich_path (Some "/lib") "/lib/a/b" = r).
Proof.
  apply (convert_strips_root_and_separators "/lib" "/lib/a/b");
    [discriminate | reflexivity].
Defined.

(** C2: a path that does not start with the library root is returned
    unchanged. *)
Theorem convert_outside_root_unchanged (root p : string) :
  PyStr.startswith p root = false ->
  convert_to_immich_path (Some root) p = p.
Proof.
  intros H. unfold convert_to_immich_path. rewrite H, andb_false_r.
  reflexivity.
Qed.

Lemma convert_outside_root_unchanged_witness :
  convert_to_immich_path (Some "/lib") "/mnt/photos" = "/mnt/photos".
Proof.
  apply (convert_outside_root_unchanged "/lib" "/mnt/photos"). reflexivity.
Defined.

(** C9: when the library root begins with the separator (a non-empty
    absolute path), converting twice is converting once. *)
Theorem convert_idempotent (root p : string) :
  PyStr.startswith root os_sep = true ->
  convert_to_immich_path (Some root)
    (convert_to_immich_path (Some root) p)
  = convert_to_immich_path (Some root) p.
Proof.
  intros Habs. apply startswith_leading in Habs as [root' ->].
  set (root := String "/" root').
  destruct (PyStr.startswith p root) eqn:Hp.
  - rewrite (convert_under_root root p) by (discriminate || exact Hp).
    set (r := PyStr.lstrip os_sep _).
    apply convert_outside_root_unchanged.
    destruct (PyStr.startswith r root) eqn:Hr; [|reflexivity].
    exfalso. apply startswith_leading in Hr as [s' Hs'].
    exact (lstrip_sep_no_leading _ s' Hs').
  - rewrite (convert_outside_root_unchanged _ _ Hp).
    apply convert_outside_root_unchanged, Hp.
Qed.

Lemma convert_idempotent_witness :
  convert_to_immich_path (Some "/lib")
    (convert_to_immich_path (Some "/lib") "/lib/a/b")
  = convert_to_immich_path (Some "/lib") "/lib/a/b".
Proof. apply (convert_idempotent "/lib" "/lib/a/b"). reflexivity. Defined.

(** ** The judgements *)

Lemma continues_refl ev w : continues ev w w.
Proof.
  split; [|lia]. exists []. rewrite app_nil_r. auto.
Qed.

Lemma continues_trans ev w1 w2 w3 :
  continues ev w1 w2 -> continues ev w2 w3 -> continues ev w1 w3.
Proof.
  intros [(l1 & H1 & F1) L1] [(l2 & H2 & F2) L2]. split; [|lia].
  exists (l1 ++ l2)%list. rewrite H2, H1, app_assoc, forallb_app, F1, F2. auto.
Qed.

Lemma continues_stdin ev w w' n :
  continues ev w w' -> List.length (stdin w) < n -> List.length (stdin w') < n.
Proof. intros [_ H] Hn. lia. Qed.

Lemma stable_root_set : stable root_set.
Proof. intros w w' (_ & _ & H & _) Hw. unfold root_set. rewrite H. exact Hw. Qed.

Lemma stable_True : stable (fun _ => True).
Proof. intros w w' _ _. exact Logic.I. Qed.

Section Rules.

Context {ev : event -> bool}.
Variable I : world -> Prop.
Hypothesis I_stable : stable I.

Lemma run_ok_ret {A} n ex (a : A) : run_ok n I ev ex (ret a).
Proof.
  intros w _ HI. simpl. split; [apply continues_refl | split; [exact HI | exact Logic.I]].
Qed.

Lemma run_ok_weaken {A} n n' ex ex' (m : M A) :
  run_ok n I ev ex m -> n' <= n -> (forall e, ex e = true -> ex' e = true) ->
  run_ok n' I ev ex' m.
Proof.
  intros H Hn Hex w Hw HI.
  assert (Hw' : List.length (stdin w) < n) by lia.
  destruct (H w Hw' HI) as (Hc & HI' & Ho).
  split; [exact Hc | split; [exact HI'|]].
  destruct (fst (m w)); simpl in *; auto.
Qed.

Lemma run_ok_bind {A B} n ex (m : M A) (k : A -> M B) :
  run_ok n I ev ex m -> (forall a, run_ok n I ev ex (k a)) ->
  run_ok n I ev ex (bind m k).
Proof.
  intros Hm Hk w Hw HI. unfold bind.
  destruct (Hm w Hw HI) as (Hc & HI' & Ho).
  destruct (m w) as [o w1]; simpl in *.
  destruct o as [a|e|]; simpl in *.
  - destruct (Hk a w1 (continues_stdin _ _ _ _ Hc Hw) HI') as (Hc2 & HI2 & Ho2).
    split; [eapply continues_trans; eauto | auto].
  - auto.
  - contradiction.
Qed.

Lemma run_ok_get_world {B} n ex (k : world -> M B) :
  (forall w0, I w0 -> run_ok n I ev ex (k w0)) ->
  run_ok n I ev ex (bind get_world k).
Proof.
  intros Hk w Hw HI. unfold bind, get_world. apply Hk; auto.
Qed.

Lemma emit_globals e w : same_globals w (snd (emit e w)).
Proof. repeat split. Qed.

Lemma run_ok_emit n ex e : ev e = true -> run_ok n I ev ex (emit e).
Proof.
  intros He w Hw HI. simpl. split; [split; [|simpl; lia] | split].
  - exists [e]. simpl. rewrite He. auto.
  - apply (I_stable w); [apply (emit_globals e) | exact HI].
  - exact Logic.I.
Qed.

Lemma run_ok_print n ex s :
  ev (Printed s) = true -> run_ok n I ev ex (print s).
Proof. apply run_ok_emit. Qed.

Lemma run_ok_raise {A} n ex e : ex e = true -> run_ok n I ev ex (@raise A e).
Proof.
  intros He w _ HI. simpl. split; [apply continues_refl | split; auto].
Qed.

(** [input] either takes one pending input or raises [EOFError]. *)
Lemma input_cases p w :
  (stdin w = [] /\ fst (input p w) = Raises EOFError) \/
  (exists k rest, stdin w = k :: rest /\ stdin (snd (input p w)) = rest /\
     match k with
     | Line s => fst (input p w) = Returns s
     | Interrupt => fst (input p w) = Raises KeyboardInterrupt
     end).
Proof.
  unfold input, bind, emit. simpl.
  destruct (stdin w) as [|[s|] rest]; [left | right; exists (Line s), rest
                                        | right; exists Interrupt, rest]; auto.
Qed.

Lemma input_continues p w :
  ev (Prompted p) = true ->
  continues ev w (snd (input p w)) /\ same_globals w (snd (input p w)).
Proof.
  intros He. unfold input, bind, emit, continues, same_globals. simpl.
  assert (Hp : exists l, (trace w ++ [Prompted p])%list = (trace w ++ l)%list
                         /\ forallb ev l = true)
    by (exists [Prompted p]; simpl; rewrite He; auto).
  destruct (stdin w) as [|[s|] rest]; simpl; repeat split; auto.
Qed.

Lemma run_ok_input n ex p :
  ev (Prompted p) = true -> ex EOFError = true ->
  ex KeyboardInterrupt = true -> run_ok n I ev ex (input p).
Proof.
  intros He Heof Hki w Hw HI.
  destruct (input_continues p w He) as [Hc Hg].
  split; [exact Hc | split; [apply (I_stable w); auto|]].
  destruct (input_cases p w) as [[_ ->]|(k & rest & _ & _ & Hk)]; auto.
  destruct k; rewrite Hk; simpl; auto.
Qed.

Lemma run_ok_send {A} n ex (endpoint : list request -> request -> reply A) r :
  ev (Requested r) = true -> (forall e, ex (RequestException e) = true) ->
  run_ok n I ev ex (send endpoint r).
Proof.
  intros He Hex. unfold send. apply run_ok_get_world. intros w0 _.
  apply run_ok_bind; [apply run_ok_emit, He|]. intros _.
  destruct (endpoint _ r); [apply run_ok_raise, Hex | apply run_ok_ret].
Qed.

Lemma run_ok_raise_for_status {A} n ex (resp : response A) :
  (forall e, ex (RequestException e) = true) ->
  run_ok n I ev ex (raise_for_status resp).
Proof.
  intros Hex. unfold raise_for_status.
  destruct (_ && _); [apply run_ok_raise, Hex | apply run_ok_ret].
Qed.

(** What a handler adds to a run that has got as far as [w1]. *)
Lemma handled {A} n ex (handler : exn -> option (M A)) w w1 e :
  (forall e h, handler e = Some h -> run_ok n I ev ex h) ->
  continues ev w w1 -> List.length (stdin w) < n -> I w1 ->
  handles handler e || ex e = true ->
  let r := match handler e with
           | Some h => h w1
           | None => (Raises e, w1)
           end in
  continues ev w (snd r) /\ I (snd r) /\ outcome_ok ex (fst r).
Proof.
  intros Hh Hc Hw HI1 He. unfold handles in He.
  destruct (handler e) as [h|] eqn:Hhe; simpl in *.
  - destruct (Hh e h Hhe w1 (continues_stdin _ _ _ _ Hc Hw) HI1)
      as (Hc2 & HI2 & Ho2).
    split; [eapply continues_trans; eauto | auto].
  - auto.
Qed.

Lemma run_ok_try {A} n ex (body : M A) handler :
  run_ok n I ev (fun e => handles handler e || ex e) body ->
  (forall e h, handler e = Some h -> run_ok n I ev ex h) ->
  run_ok n I ev ex (try_except body handler).
Proof.
  intros Hb Hh w Hw HI. unfold try_except.
  destruct (Hb w Hw HI) as (Hc & HI' & Ho).
  destruct (body w) as [o w1]; simpl in *.
  destruct o as [a|e|]; simpl in *; auto.
  apply (handled n ex handler w w1 e); auto.
Qed.

Lemma run_ok_for_in {A S} n ex (l : list A) (body : A -> S -> M S) :
  (forall x s, run_ok n I ev ex (body x s)) ->
  forall s, run_ok n I ev ex (for_in l s body).
Proof.
  intros Hb. induction l as [|x l IH]; intros s; simpl.
  - apply run_ok_ret.
  - apply run_ok_bind; auto.
Qed.

Lemma run_ok_while {A} n ex fuel (body : M (turn A)) :
  run_ok n I ev ex body -> consuming n I body -> n <= fuel ->
  run_ok n I ev ex (while_true fuel body).
Proof.
  intros Hb Hc Hn w Hw. assert (Hf : List.length (stdin w) < fuel) by lia.
  clear Hn. revert w Hw Hf.
  induction fuel as [|fuel IH]; intros w Hw Hf HI; [lia|].
  simpl. unfold bind.
  destruct (Hb w Hw HI) as (Hcont & HI' & Ho). specialize (Hc w Hw HI).
  destruct (body w) as [o w1]; simpl in *.
  destruct o as [[|a]|e|]; simpl in *; auto.
  assert (Hf1 : List.length (stdin w1) < fuel) by lia.
  destruct (IH w1 (continues_stdin _ _ _ _ Hcont Hw) Hf1 HI') as (Hc2 & HI2 & Ho2).
  split; [eapply continues_trans; eauto | auto].
Qed.

(** A [try] block that starts by reading a line: the rest of the block
    runs with one pending input less, and the block has taken input when
    it returns. *)
Lemma try_input {A} n ex p (k : string -> M A) handler :
  ev (Prompted p) = true -> ex EOFError = true -> handler EOFError = None ->
  handles handler KeyboardInterrupt || ex KeyboardInterrupt = true ->
  (forall s, run_ok (n - 1) I ev (fun e => handles handler e || ex e) (k s)) ->
  (forall e h, handler e = Some h -> run_ok n I ev ex h) ->
  run_ok n I ev ex (try_except (bind (input p) k) handler) /\
  consuming n I (try_except (bind (input p) k) handler).
Proof.
  intros He Heof Hh Hki Hk Hhs.
  assert (H : forall w, List.length (stdin w) < n -> I w ->
    let r := try_except (bind (input p) k) handler w in
    (continues ev w (snd r) /\ I (snd r) /\ outcome_ok ex (fst r)) /\
    match fst r with
    | Returns _ => List.length (stdin (snd r)) < List.length (stdin w)
    | _ => True
    end).
  { intros w Hw HI. unfold try_except, bind.
    destruct (input_continues p w He) as [Hc Hg].
    pose proof (I_stable _ _ Hg HI) as HI1.
    destruct (input_cases p w) as [[_ Ho]|(key & rest & Hs & Hs1 & Ho)].
    - destruct (input p w) as [o w1]; simpl in *; subst o. rewrite Hh.
      simpl. auto.
    - assert (Hl : List.length (stdin (snd (input p w))) < n - 1)
        by (rewrite Hs1; rewrite Hs in Hw; simpl in Hw; lia).
      assert (Hlt : List.length (stdin (snd (input p w)))
                    < List.length (stdin w))
        by (rewrite Hs1, Hs; simpl; lia).
      destruct (input p w) as [o w1]; simpl in *. destruct key; subst o.
      + destruct (Hk s w1 Hl HI1) as (Hc2 & HI2 & Ho2).
        destruct (k s w1) as [o2 w2]; simpl in *.
        destruct o2 as [a|e|]; simpl in *.
        * pose proof (continues_trans _ _ _ _ Hc Hc2). destruct Hc2.
          split; [auto | lia].
        * assert (Hl1 : List.length (stdin w1) < n) by lia.
          pose proof (handled n ex handler w1 w2 e Hhs Hc2 Hl1 HI2 Ho2) as Hd.
          simpl in Hd. destruct (handler e) as [h|].
          -- destruct Hd as (Hd & HId & Hod).
             pose proof (continues_trans _ _ _ _ Hc Hd). destruct Hd.
             split; [auto|]. destruct (fst (h w2)); auto. lia.
          -- destruct Hd as (Hd & HId & Hod).
             pose proof (continues_trans _ _ _ _ Hc Hd). simpl. auto.
        * contradiction.
      + assert (Hl1 : List.length (stdin w1) < n) by lia.
        pose proof (handled n ex handler w1 w1 KeyboardInterrupt Hhs
                      (continues_refl _ _) Hl1 HI1 Hki) as Hd.
        simpl in Hd. destruct (handler KeyboardInterrupt) as [h|].
        * destruct Hd as (Hd & HId & Hod).
          pose proof (continues_trans _ _ _ _ Hc Hd). destruct Hd.
          split; [auto|]. destruct (fst (h w1)); auto. lia.
        * destruct Hd as (Hd & HId & Hod). simpl. auto. }
  split; intros w Hw HI; apply (H w Hw HI).
Qed.

End Rules.

(** ** The functions of the script, one by one *)

Lemma allowed_not_mutating dry e : mutating e = false -> allowed dry e = true.
Proof. intros H. destruct dry; unfold allowed, not_mutating; [rewrite H|]; auto. Qed.

Lemma allowed_real e : allowed false e = true.
Proof. reflexivity. Qed.

Lemma run_ok_exn {A} n I ev ex ex' (m : M A) :
  run_ok n I ev ex m -> (forall e, ex e = true -> ex' e = true) ->
  run_ok n I ev ex' m.
Proof. intros H Hex. apply (run_ok_weaken I n n ex ex' m H); auto. Qed.

Create HintDb runs discriminated.

Ltac ev_side :=
  solve [ assumption | reflexivity
        | apply allowed_not_mutating; reflexivity | apply allowed_real ].

Ltac ex_side :=
  solve [ reflexivity | intros; reflexivity | assumption
        | intros; simpl; auto with bool ].

Ltac ex_weaken :=
  let e := fresh "e" in
  let H := fresh "H" in
  intros e H; destruct e; simpl in *;
  solve [ discriminate | reflexivity | assumption | auto with bool ].

Ltac handler_cases tac :=
  let e := fresh "e" in
  let h := fresh "h" in
  let H := fresh "H" in
  intros e h H; destruct e; simpl in H; try discriminate H;
  injection H as <-; tac.

Ltac run_step :=
  cbv zeta;
  lazymatch goal with
  | |- run_ok _ _ _ _ (ret _) => apply run_ok_ret
  | |- run_ok _ _ _ _ (print _) => apply run_ok_print; [assumption | ev_side]
  | |- run_ok _ _ _ _ (emit _) => apply run_ok_emit; [assumption | ev_side]
  | |- run_ok _ _ _ _ (raise _) => apply run_ok_raise; ex_side
  | |- run_ok _ _ _ _ (input _) =>
      apply run_ok_input; [assumption | ev_side | ex_side | ex_side]
  | |- run_ok _ _ _ _ (send _ _) =>
      apply run_ok_send; [assumption | ev_side | ex_side]
  | |- run_ok _ _ _ _ (raise_for_status _) =>
      apply run_ok_raise_for_status; ex_side
  | |- run_ok _ _ _ _ (bind get_world _) =>
      apply run_ok_get_world; intros ? ?
  | |- run_ok _ _ _ _ (bind _ _) => apply run_ok_bind; [ | intros ? ]
  | |- run_ok _ _ _ _ (try_except _ _) =>
      apply run_ok_try; [ | handler_cases idtac ]
  | |- run_ok _ _ _ _ (for_in _ _ _) => apply run_ok_for_in; intros ? ?
  | |- run_ok _ _ _ _ (if ?b then _ else _) => destruct b eqn:?
  | |- run_ok _ _ _ _ (match ?x with _ => _ end) => destruct x eqn:?
  | |- run_ok _ _ _ _ _ =>
      solve [ eapply run_ok_exn; [ solve [eauto with runs] | ex_weaken ] ]
  end.

Ltac run_auto := repeat run_step.

Ltac turn_start :=
  apply try_input;
  [ assumption | ev_side | reflexivity | reflexivity | reflexivity
  | intros ? | handler_cases idtac ].

Section Functions.

Variable E : environment.
Variable I : world -> Prop.
Hypothesis I_stable : stable I.

Lemma get_folder_assets_ok dry n p :
  run_ok n I (allowed dry) no_exn (get_folder_assets E p).
Proof. unfold get_folder_assets. run_auto. Qed.
Hint Resolve get_folder_assets_ok : runs.

Lemma get_all_subdirectories_ok dry n p :
  run_ok n I (allowed dry) no_exn (get_all_subdirectories E p).
Proof. unfold get_all_subdirectories. run_auto. Qed.
Hint Resolve get_all_subdirectories_ok : runs.

Lemma get_all_assets_recursive_ok dry n p :
  run_ok n I (allowed dry) no_exn (get_all_assets_recursive E p).
Proof. unfold get_all_assets_recursive. run_auto. Qed.
Hint Resolve get_all_assets_recursive_ok : runs.

Lemma collect_assets_ok dry n p : run_ok n I (allowed dry) no_exn (collect_assets E p).
Proof. unfold collect_assets. run_auto. Qed.
Hint Resolve collect_assets_ok : runs.

Lemma get_all_albums_ok dry n : run_ok n I (allowed dry) no_exn (get_all_albums E).
Proof. unfold get_all_albums. run_auto. Qed.
Hint Resolve get_all_albums_ok : runs.

Lemma album_exists_ok dry n name : run_ok n I (allowed dry) no_exn (album_exists E name).
Proof. unfold album_exists. run_auto. Qed.
Hint Resolve album_exists_ok : runs.

Lemma create_album_ok dry n name ids :
  run_ok n I (allowed dry) no_exn (create_album E name ids dry).
Proof.
  unfold create_album. run_auto.
Qed.
Hint Resolve create_album_ok : runs.

Lemma add_assets_to_album_ok dry n id ids :
  run_ok n I (allowed dry) no_exn (add_assets_to_album E id ids dry).
Proof.
  unfold add_assets_to_album. run_auto.
Qed.
Hint Resolve add_assets_to_album_ok : runs.

Lemma perform_operation_ok dry n new name id ids :
  run_ok n I (allowed dry) no_exn (perform_operation E new name id ids dry).
Proof. unfold perform_operation. run_auto. Qed.
Hint Resolve perform_operation_ok : runs.

(** A [try] block that first reads the globals. *)
Lemma try_get_world {A} dry n ex (f : world -> M A) handler :
  (forall w0, I w0 ->
     run_ok n I (allowed dry) ex (try_except (f w0) handler) /\
     consuming n I (try_except (f w0) handler)) ->
  run_ok n I (allowed dry) ex (try_except (bind get_world f) handler) /\
  consuming n I (try_except (bind get_world f) handler).
Proof.
  intros H. split; intros w Hw HI; destruct (H w HI) as [H1 H2].
  - exact (H1 w Hw HI).
  - exact (H2 w Hw HI).
Qed.

Lemma get_immich_host_from_user_ok dry fuel :
  forall n, n <= fuel ->
  run_ok n I (allowed dry) is_EOFError (get_immich_host_from_user fuel).
Proof.
  induction fuel as [|fuel IH]; intros n Hn.
  - intros w Hw. lia.
  - assert (IH' := IH (n - 1) ltac:(lia)). simpl.
    turn_start; run_auto.
Qed.

Lemma get_api_key_from_user_ok dry fuel :
  forall n, n <= fuel ->
  run_ok n I (allowed dry) is_EOFError (get_api_key_from_user fuel).
Proof.
  induction fuel as [|fuel IH]; intros n Hn.
  - intros w Hw. lia.
  - assert (IH' := IH (n - 1) ltac:(lia)). simpl.
    turn_start; run_auto.
Qed.

Lemma get_library_root_turn_ok dry n :
  run_ok n I (allowed dry) is_EOFError (get_library_root_turn E) /\
  consuming n I (get_library_root_turn E).
Proof. unfold get_library_root_turn. turn_start; run_auto. Qed.

Lemma get_library_root_from_user_ok dry fuel n :
  n <= fuel ->
  run_ok n I (allowed dry) is_EOFError (get_library_root_from_user E fuel).
Proof.
  intros Hn. destruct (get_library_root_turn_ok dry n).
  apply run_ok_while; auto.
Qed.

Lemma get_new_album_name_turn_ok dry n :
  run_ok n I (allowed dry) is_EOFError (get_new_album_name_turn E) /\
  consuming n I (get_new_album_name_turn E).
Proof. unfold get_new_album_name_turn. turn_start; run_auto. Qed.

Lemma get_new_album_name_ok dry fuel n :
  n <= fuel ->
  run_ok n I (allowed dry) is_EOFError (get_new_album_name E fuel).
Proof.
  intros Hn. destruct (get_new_album_name_turn_ok dry n).
  apply run_ok_while; auto.
Qed.

Lemma select_album_turn_ok dry fuel albums n :
  n <= fuel ->
  run_ok n I (allowed dry) is_EOFError (select_album_turn E fuel albums) /\
  consuming n I (select_album_turn E fuel albums).
Proof.
  intros Hn. unfold select_album_turn.
  assert (Hname := get_new_album_name_ok dry fuel (n - 1) ltac:(lia)).
  turn_start; run_auto.
  exfalso.
  match goal with
  | H : nth_error _ _ = None |- _ => apply nth_error_None in H
  end.
  lia.
Qed.

Lemma select_album_interactive_ok dry fuel n :
  n <= fuel ->
  run_ok n I (allowed dry) is_EOFError (select_album_interactive E fuel).
Proof.
  intros Hn. unfold select_album_interactive. run_auto.
  match goal with
  | |- run_ok _ _ _ _ (while_true _ (select_album_turn _ _ ?albums)) =>
      destruct (select_album_turn_ok dry fuel albums n Hn)
  end.
  apply run_ok_while; auto.
Qed.

End Functions.

#[local] Hint Resolve stable_root_set stable_True : runs.
#[local] Hint Resolve get_folder_assets_ok get_all_subdirectories_ok
  get_all_assets_recursive_ok collect_assets_ok get_all_albums_ok
  album_exists_ok create_album_ok add_assets_to_album_ok
  perform_operation_ok : runs.

Section Program.

Variable E : environment.

Lemma get_path_turn_ok dry n :
  run_ok n root_set (allowed dry) is_EOFError (get_path_turn E) /\
  consuming n root_set (get_path_turn E).
Proof.
  pose proof stable_root_set as Hs.
  unfold get_path_turn. apply try_get_world. intros w0 Hw0.
  turn_start; run_auto.
Qed.

Lemma get_path_from_user_ok dry fuel n :
  n <= fuel ->
  run_ok n root_set (allowed dry) is_EOFError (get_path_from_user E fuel).
Proof.
  intros Hn. destruct (get_path_turn_ok dry n).
  apply run_ok_while; auto using stable_root_set.
Qed.

Lemma manage_album_ok dry fuel n :
  n <= fuel ->
  run_ok n root_set (allowed dry) is_EOFError (manage_album E fuel dry).
Proof.
  intros Hn. pose proof stable_root_set as Hs.
  pose proof (select_album_interactive_ok E root_set Hs dry fuel n Hn).
  pose proof (get_path_from_user_ok dry fuel n Hn).
  unfold manage_album. run_auto.
Qed.

Lemma same_input_continues ev w0 w w' :
  trace w0 = trace w -> stdin w0 = stdin w ->
  continues ev w0 w' -> continues ev w w'.
Proof. unfold continues. intros -> ->. auto. Qed.

Lemma run_ok_set n ev ex (set : M unit) :
  (forall w, fst (set w) = Returns tt /\ trace (snd (set w)) = trace w /\
             stdin (snd (set w)) = stdin w) ->
  run_ok n (fun _ => True) ev ex set.
Proof.
  intros H w Hw _. destruct (H w) as (Ho & Ht & Hs).
  split; [|split; [exact Logic.I | rewrite Ho; exact Logic.I]].
  apply (same_input_continues ev (snd (set w))); auto using continues_refl.
Qed.

Lemma run_ok_set_root {A} n ev ex r (rest : M A) :
  run_ok n root_set ev ex rest ->
  run_ok n (fun _ => True) ev ex (set_LIBRARY_ROOT (Some r) ;; rest).
Proof.
  intros H w Hw _. unfold bind, set_LIBRARY_ROOT.
  match goal with
  | |- context [rest ?w1] =>
      destruct (H w1) as (Hc & _ & Ho); [exact Hw | discriminate |]
  end.
  split; [|split; [exact Logic.I | exact Ho]].
  eapply same_input_continues; [| |exact Hc]; reflexivity.
Qed.

Lemma run_ok_forget {A} n I ev ex (m : M A) :
  run_ok n I ev ex m -> forall w, List.length (stdin w) < n -> I w ->
  continues ev w (snd (m w)) /\ outcome_ok ex (fst (m w)).
Proof. intros H w Hw HI. destruct (H w Hw HI) as (? & _ & ?). auto. Qed.

Lemma interactive_album_manager_ok dry fuel n :
  n <= fuel ->
  run_ok n (fun _ => True) (allowed dry) is_EOFError
    (interactive_album_manager E fuel dry).
Proof.
  intros Hn. pose proof stable_True as Hs.
  pose proof (get_immich_host_from_user_ok _ Hs dry fuel n Hn).
  pose proof (get_api_key_from_user_ok _ Hs dry fuel n Hn).
  pose proof (get_library_root_from_user_ok E _ Hs dry fuel n Hn).
  pose proof (manage_album_ok dry fuel n Hn) as Hm.
  unfold interactive_album_manager.
  repeat
    lazymatch goal with
    | |- run_ok _ _ _ _ (bind (set_LIBRARY_ROOT ?v) _) =>
        destruct v;
        [ apply run_ok_set_root
        | apply run_ok_bind;
          [ apply run_ok_set; intros ?; repeat split | intros ? ] ]
    | |- run_ok _ (fun _ => True) _ _ (set_IMMICH_HOST _) =>
        apply run_ok_set; intros ?; repeat split
    | |- run_ok _ (fun _ => True) _ _ (set_API_KEY _) =>
        apply run_ok_set; intros ?; repeat split
    | |- run_ok _ (fun _ => True) _ _ (set_HEADERS _) =>
        apply run_ok_set; intros ?; repeat split
    | |- run_ok _ root_set _ _ (bind _ _) =>
        apply run_ok_bind; [apply run_ok_print;
                            [apply stable_root_set | ev_side] | intros ?]
    | |- run_ok _ root_set _ _ (manage_album _ _ _) => exact Hm
    | _ => run_step
    end.
Qed.

(** A run of the script from the start: it ends by returning or, when the
    terminal has no more input, by [EOFError]; its loops never lack fuel;
    it emits only the events its flag allows. *)
Lemma main_ok dry keys :
  continues (allowed dry) (initial_world keys)
    (snd (main E dry (initial_world keys))) /\
  outcome_ok is_EOFError (fst (main E dry (initial_world keys))).
Proof.
  unfold main, bind, get_world.
  apply (run_ok_forget (S (List.length keys)) (fun _ => True)).
  - apply interactive_album_manager_ok. simpl. lia.
  - simpl. lia.
  - exact Logic.I.
Qed.

End Program.

(** ** Deduplication *)

Lemma existsb_eqb_In (x : string) (l : list string) :
  existsb (String.eqb x) l = true <-> In x l.
Proof.
  rewrite existsb_exists. split.
  - intros (y & Hy & Heq). apply String.eqb_eq in Heq. subst. exact Hy.
  - intros H. exists x. split; [exact H | apply String.eqb_refl].
Qed.

Lemma first_occurrences_from_seen (seen seen' l : list string) :
  (forall y, In y seen <-> In y seen') ->
  first_occurrences_from seen l = first_occurrences_from seen' l.
Proof.
  revert seen seen'. induction l as [|x l IH]; intros seen seen' H; simpl.
  - reflexivity.
  - assert (Hx : existsb (String.eqb x) seen = existsb (String.eqb x) seen').
    { apply eq_true_iff_eq. rewrite !existsb_eqb_In. apply H. }
    rewrite Hx. destruct (existsb (String.eqb x) seen').
    + apply IH, H.
    + f_equal. apply IH. intros y. simpl. rewrite (H y). reflexivity.
Qed.

Lemma keys_set (d : PyDict.t unit) (k : string) :
  PyDict.keys (PyDict.set d k tt) =
  if existsb (String.eqb k) (PyDict.keys d) then PyDict.keys d
  else (PyDict.keys d ++ [k])%list.
Proof.
  induction d as [|[k' v'] d IH]; simpl.
  - reflexivity.
  - destruct (k =? k')%string eqn:Hk; simpl.
    + reflexivity.
    + unfold PyDict.keys in *. rewrite IH.
      destruct (existsb _ _); reflexivity.
Qed.

Lemma keys_fold_set (l : list string) (d : PyDict.t unit) :
  PyDict.keys (fold_left (fun d k => PyDict.set d k tt) l d) =
  (PyDict.keys d ++ first_occurrences_from (PyDict.keys d) l)%list.
Proof.
  revert d. induction l as [|x l IH]; intros d; simpl.
  - rewrite app_nil_r. reflexivity.
  - rewrite IH, keys_set.
    destruct (existsb (String.eqb x) (PyDict.keys d)); [reflexivity|].
    rewrite <- app_assoc. simpl. do 2 f_equal.
    apply first_occurrences_from_seen. intros y.
    rewrite in_app_iff. simpl. tauto.
Qed.

(** [list(dict.fromkeys(l))] keeps the first occurrence of each element. *)
Lemma fromkeys_first_occurrences (l : list string) :
  PyDict.keys (PyDict.fromkeys l) = first_occurrences l.
Proof. unfold PyDict.fromkeys. rewrite keys_fold_set. reflexivity. Qed.

Lemma first_occurrences_from_In (seen l : list string) (x : string) :
  In x (first_occurrences_from seen l) <-> In x l /\ ~ In x seen.
Proof.
  revert seen. induction l as [|y l IH]; intros seen; simpl.
  - tauto.
  - destruct (existsb (String.eqb y) seen) eqn:Hy.
    + apply existsb_eqb_In in Hy. rewrite IH. split.
      * tauto.
      * intros [[->|H] Hn]; tauto.
    + assert (Hn : ~ In y seen)
        by (rewrite <- existsb_eqb_In, Hy; discriminate).
      simpl. rewrite IH. simpl. split.
      * intros [->|[H1 H2]]; tauto.
      * intros [[->|H] Hs]; [tauto|].
        destruct (string_dec y x); tauto.
Qed.

Lemma first_occurrences_from_NoDup (seen l : list string) :
  NoDup (first_occurrences_from seen l).
Proof.
  revert seen. induction l as [|y l IH]; intros seen; simpl.
  - constructor.
  - destruct (existsb (String.eqb y) seen); [apply IH|].
    constructor; [|apply IH].
    rewrite first_occurrences_from_In. simpl. tauto.
Qed.

Lemma first_occurrences_In (l : list string) (x : string) :
  In x (first_occurrences l) <-> In x l.
Proof. unfold first_occurrences. rewrite first_occurrences_from_In. simpl. tauto. Qed.

Lemma first_occurrences_NoDup (l : list string) : NoDup (first_occurrences l).
Proof. apply first_occurrences_from_NoDup. Qed.

Lemma first_occurrences_once (l : list string) (x : string) :
  In x l -> count_occ string_dec (first_occurrences l) x = 1.
Proof.
  intros H. apply NoDup_count_occ'; [apply first_occurrences_NoDup|].
  apply first_occurrences_In, H.
Qed.

(** The kept occurrence is the first one: an element that is new after
    [l1] stays right behind what is kept of [l1]. *)
Lemma first_occurrences_from_app (seen l1 l2 : list string) :
  first_occurrences_from seen (l1 ++ l2) =
  (first_occurrences_from seen l1
     ++ first_occurrences_from (rev l1 ++ seen) l2)%list.
Proof.
  revert seen. induction l1 as [|y l1 IH]; intros seen; simpl.
  - reflexivity.
  - destruct (existsb (String.eqb y) seen) eqn:Hy.
    + rewrite IH. f_equal. apply first_occurrences_from_seen.
      apply existsb_eqb_In in Hy. intros z.
      rewrite !in_app_iff. simpl. split; [tauto|].
      intros [[H|[<-|[]]]|H]; tauto.
    + simpl. rewrite IH. do 2 f_equal. apply first_occurrences_from_seen.
      intros z. rewrite !in_app_iff. simpl. tauto.
Qed.

Lemma first_occurrences_first (l1 l2 : list string) (x : string) :
  ~ In x l1 ->
  first_occurrences (l1 ++ x :: l2) =
  (first_occurrences l1 ++ x :: first_occurrences_from (x :: rev l1) l2)%list.
Proof.
  intros Hx. unfold first_occurrences. rewrite first_occurrences_from_app.
  rewrite app_nil_r. simpl.
  destruct (existsb (String.eqb x) (rev l1)) eqn:H; [|reflexivity].
  apply existsb_eqb_In in H. rewrite <- in_rev in H. contradiction.
Qed.

(** ** The walk *)

Lemma dirtree_induction (P : dirtree -> Prop) :
  (forall dirs, Forall (fun d => P (snd d)) dirs -> P (Dir dirs)) ->
  forall t, P t.
Proof.
  intros H. fix IH 1. intros [dirs]. apply H.
  induction dirs as [|d dirs IHd]; constructor; [apply IH | exact IHd].
Qed.

Lemma fold_left_append {A B} (f : A -> list B) (l : list A) (acc : list B) :
  fold_left (fun acc x => (acc ++ f x)%list) l acc = (acc ++ flat_map f l)%list.
Proof.
  revert acc. induction l as [|x l IH]; intros acc; simpl.
  - rewrite app_nil_r. reflexivity.
  - rewrite IH, app_assoc. reflexivity.
Qed.

Lemma inner_loop (root : string) (dirs : list string) (acc : list string) :
  fold_left (fun subdirs dir_name =>
               (subdirs ++ [PosixPath.join root dir_name])%list) dirs acc
  = (acc ++ map (PosixPath.join root) dirs)%list.
Proof.
  rewrite (fold_left_append (fun d => [PosixPath.join root d])).
  f_equal; induction dirs; simpl; congruence.
Qed.

Lemma outer_loop (triples : list (string * list string)) (acc : list string) :
  fold_left
    (fun subdirs triple =>
       fold_left
         (fun subdirs dir_name =>
            (subdirs ++ [PosixPath.join (fst triple) dir_name])%list)
         (snd triple) subdirs)
    triples acc
  = (acc ++ flat_map (fun tr => map (PosixPath.join (fst tr)) (snd tr))
              triples)%list.
Proof.
  revert acc. induction triples as [|tr triples IH]; intros acc; simpl.
  - rewrite app_nil_r. reflexivity.
  - rewrite IH, inner_loop, app_assoc. reflexivity.
Qed.

(** The two loops of [get_all_subdirectories] list, triple after triple,
    the subdirectories the triple names. *)
Lemma subdirectories_of_flat_map (triples : list (string * list string)) :
  subdirectories_of triples =
  flat_map (fun tr => map (PosixPath.join (fst tr)) (snd tr)) triples.
Proof. unfold subdirectories_of. apply outer_loop. Qed.

(** The order of the walk: the subdirectories of a directory, as listed,
    and then for each of them in turn the subdirectories below it. *)
Lemma subdirectories_walk_order (top : string) (dirs : list (string * dirtree)) :
  subdirectories_of (os_walk top (Dir dirs)) =
  (map (fun d => PosixPath.join top (fst d)) dirs
     ++ flat_map
          (fun d =>
             subdirectories_of (os_walk (PosixPath.join top (fst d)) (snd d)))
          dirs)%list.
Proof.
  rewrite subdirectories_of_flat_map. simpl. rewrite map_map. f_equal.
  induction dirs as [|d dirs IH]; simpl.
  - reflexivity.
  - rewrite flat_map_app, IH, subdirectories_of_flat_map. reflexivity.
Qed.

(** Every descendant directory is listed, and listed once: the list of
    the walk is a rearrangement of the descendants. *)
Lemma subdirectories_are_descendants (t : dirtree) :
  forall top,
    Permutation (subdirectories_of (os_walk top t)) (descendants top t).
Proof.
  induction t as [dirs IH] using dirtree_induction. intros top.
  rewrite subdirectories_walk_order. simpl.
  induction dirs as [|d dirs IHd]; simpl.
  - constructor.
  - inversion IH as [|? ? Hd Hdirs]; subst.
    apply perm_skip.
    rewrite (Permutation_app_comm (subdirectories_of _)), app_assoc.
    rewrite (IHd Hdirs).
    rewrite Permutation_app_comm. apply Permutation_app_tail, Hd.
Qed.

(** ** Aggregation *)

Section Aggregation.

Variable E : environment.
Variable table : string -> list string.
Hypothesis oracle : folder_oracle E table.

Lemma get_folder_assets_oracle (p : string) (w : world) :
  exists w',
    get_folder_assets E p w
    = (Returns (table (convert_to_immich_path (LIBRARY_ROOT w) p)), w') /\
    same_globals w w'.
Proof.
  unfold get_folder_assets, bind, get_world, try_except, send, bind, get_world.
  simpl.
  match goal with
  | |- context [view_folder _ ?h ?r] =>
      destruct (oracle h r) as (resp & Hr & Hs & Hj); rewrite Hr
  end.
  simpl in Hs. unfold ret, raise_for_status. rewrite Hs. unfold ret.
  rewrite Hj. unfold requested_folder. simpl.
  eexists. split; [reflexivity|]. repeat split.
Qed.

Lemma for_in_collect (f : string -> list string) (G : world -> Prop)
    (body : string -> list string -> M (list string)) :
  (forall d acc w, G w ->
     exists w', body d acc w = (Returns (acc ++ f d)%list, w') /\ G w') ->
  forall l acc w, G w ->
    exists w',
      for_in l acc body w = (Returns (acc ++ flat_map f l)%list, w') /\ G w'.
Proof.
  intros Hb. induction l as [|d l IH]; intros acc w HG; simpl.
  - exists w. rewrite app_nil_r. auto.
  - unfold bind. destruct (Hb d acc w HG) as (w1 & -> & HG1).
    destruct (IH (acc ++ f d)%list w1 HG1) as (w2 & -> & HG2).
    exists w2. rewrite app_assoc. auto.
Qed.

Lemma get_all_assets_recursive_value (root_folder : string) (w : world) :
  let lists := fun d => table (convert_to_immich_path (LIBRARY_ROOT w) d) in
  let subdirs :=
    subdirectories_of
      match fs_tree (env_fs E) root_folder with
      | Some t => os_walk root_folder t
      | None => []
      end in
  fst (get_all_assets_recursive E root_folder w)
  = Returns (first_occurrences (lists root_folder ++ flat_map lists subdirs)).
Proof.
  intros lists subdirs. unfold get_all_assets_recursive.
  unfold bind at 1.
  destruct (get_folder_assets_oracle root_folder w) as (w1 & -> & G1).
  unfold bind at 1. unfold get_all_subdirectories. unfold bind at 1.
  unfold emit at 1. cbv iota beta. unfold ret at 1. cbv iota beta.
  fold subdirs. unfold bind at 1.
  match goal with
  | |- context [for_in subdirs ?a ?body ?w2] =>
      assert (Hbody : forall d acc w0, LIBRARY_ROOT w0 = LIBRARY_ROOT w ->
                exists w', body d acc w0 = (Returns (acc ++ lists d)%list, w')
                           /\ LIBRARY_ROOT w' = LIBRARY_ROOT w);
      [| destruct (for_in_collect lists
                     (fun w' => LIBRARY_ROOT w' = LIBRARY_ROOT w) body Hbody
                     subdirs a w2) as (w3 & -> & G3) ]
  end.
  - intros d acc w0 HG. unfold bind at 1.
    destruct (get_folder_assets_oracle d w0) as (w' & -> & G').
    unfold lists. rewrite <- HG.
    destruct G' as (_ & _ & G' & _).
    destruct (nonempty _); unfold bind, get_world, print, emit, ret; simpl;
      eexists; (split; [reflexivity | simpl; congruence]).
  - destruct G1 as (_ & _ & G1 & _). simpl. exact G1.
  - simpl. rewrite fromkeys_first_occurrences. reflexivity.
Qed.

End Aggregation.

(** ** What each call site does *)

Lemma after_after (w : world) (l1 l2 : list event) :
  after (after w l1) l2 = after w (l1 ++ l2).
Proof. unfold after. simpl. rewrite app_assoc. reflexivity. Qed.

Lemma requests_of_app (l1 l2 : list event) :
  requests_of (l1 ++ l2) = (requests_of l1 ++ requests_of l2)%list.
Proof. unfold requests_of. apply flat_map_app. Qed.

Ltac run_unfold :=
  cbv beta iota zeta delta
    [bind get_world try_except send raise_for_status print emit ret raise
     except_RequestException request_fails failure_text fst snd].

Ltac run_cases :=
  run_unfold;
  repeat match goal with
         | |- context [match ?x with Fails _ => _ | Responds _ => _ end] =>
             destruct x; run_unfold
         | |- context [if ?b then _ else _] => destruct b; run_unfold
         end;
  unfold after; simpl; rewrite <- ?app_assoc; reflexivity.

Section CallSites.

Variable E : environment.

(** [get_folder_assets]: one GET; a failure is printed and gives []. *)
Lemma get_folder_assets_run (p : string) (w : world) :
  let r := folder_request w p in
  let answer := view_folder (env_server E) (requests_of (trace w)) r in
  get_folder_assets E p w =
  match answer with
  | Responds resp =>
      if request_fails answer
      then (Returns [],
            after w [Requested r;
                     Printed ("[ERROR] Failed to get assets for '"
                                ++ convert_to_immich_path (LIBRARY_ROOT w) p
                                ++ "': " ++ failure_text answer)])
      else (Returns (map asset_id (json resp)), after w [Requested r])
  | Fails _ =>
      (Returns [],
       after w [Requested r;
                Printed ("[ERROR] Failed to get assets for '"
                           ++ convert_to_immich_path (LIBRARY_ROOT w) p
                           ++ "': " ++ failure_text answer)])
  end.
Proof.
  intros r answer. subst r answer. unfold get_folder_assets, folder_request.
  run_cases.
Qed.

(** [get_all_albums]: one GET; a failure is printed and gives []. *)
Lemma get_all_albums_run (w : world) :
  let r := albums_request w in
  let answer := list_albums (env_server E) (requests_of (trace w)) r in
  get_all_albums E w =
  match answer with
  | Responds resp =>
      if request_fails answer
      then (Returns [],
            after w [Requested r;
                     Printed ("[ERROR] Failed to get albums: "
                                ++ failure_text answer)])
      else (Returns (json resp), after w [Requested r])
  | Fails _ =>
      (Returns [],
       after w [Requested r;
                Printed ("[ERROR] Failed to get albums: "
                           ++ failure_text answer)])
  end.
Proof.
  intros r answer. subst r answer. unfold get_all_albums, albums_request.
  run_cases.
Qed.

(** [album_exists] returns a truth value and leaves the globals and the
    pending input alone. *)
Lemma album_exists_run (name : string) (w : world) :
  exists (b : bool) (l : list event),
    album_exists E name w = (Returns b, after w l) /\
    forallb not_mutating l = true /\
    (b = true ->
     exists resp,
       list_albums (env_server E) (requests_of (trace w)) (albums_request w)
       = Responds resp /\
       l = [Requested (albums_request w)]).
Proof.
  unfold album_exists, bind. rewrite get_all_albums_run. cbv zeta.
  destruct (list_albums (env_server E) _ _) as [e|resp] eqn:Ha.
  - eexists _, _. split; [reflexivity|]. split; [reflexivity|]. discriminate.
  - destruct (request_fails _).
    + eexists _, _. split; [reflexivity|]. split; [reflexivity|]. discriminate.
    + eexists _, _. split; [reflexivity|]. split; [reflexivity|]. eauto.
Qed.

(** [create_album] once the album is known not to exist. *)
Lemma create_album_absent (name : string) (ids : list string) (dry : bool)
    (w w1 : world) :
  album_exists E name w = (Returns false, w1) ->
  create_album E name ids dry w =
  if dry then
    (Returns PyNone,
     after w1 [Printed ("[DRY-RUN] Would create album '" ++ name ++ "' with "
                          ++ PyStr.of_nat (List.length ids) ++ " assets.")])
  else
    let r := create_request w1 name ids in
    let answer := post_album (env_server E) (requests_of (trace w1)) r in
    if request_fails answer
    then (Returns PyNone,
          after w1 [Requested r;
                    Printed ("[ERROR] Failed to create album '" ++ name
                               ++ "': " ++ failure_text answer)])
    else (Returns PyNone,
          after w1 [Requested r;
                    Printed ("[OK] Album created: " ++ name ++ " ("
                               ++ PyStr.of_nat (List.length ids)
                               ++ " assets)")]).
Proof.
  intros H. unfold create_album. unfold bind at 1. rewrite H.
  destruct dry; [reflexivity|].
  unfold create_request. run_cases.
Qed.

(** [create_album] once the album is known to exist. *)
Lemma create_album_present (name : string) (ids : list string) (dry : bool)
    (w w1 : world) :
  album_exists E name w = (Returns true, w1) ->
  create_album E name ids dry w =
  (Returns PyNone,
   after w1 [Printed ("[SKIP] Album '" ++ name ++ "' already exists.")]).
Proof.
  intros H. unfold create_album. unfold bind at 1. rewrite H. reflexivity.
Qed.

(** [add_assets_to_album] with something to add. *)
Lemma add_assets_to_album_run (id : option string) (x : string)
    (ids : list string) (dry : bool) (w : world) :
  let n := PyStr.of_nat (List.length (x :: ids)) in
  add_assets_to_album E id (x :: ids) dry w =
  if dry then
    (Returns true,
     after w [Printed ("[DRY-RUN] Would add " ++ n ++ " assets to album.")])
  else
    let r := append_request w id (x :: ids) in
    let answer := put_album_assets (env_server E) (requests_of (trace w)) r in
    if request_fails answer
    then (Returns false,
          after w [Requested r;
                   Printed ("[ERROR] Failed to add assets to album: "
                              ++ failure_text answer)])
    else (Returns true,
          after w [Requested r;
                   Printed ("[OK] Added " ++ n ++ " assets to album.")]).
Proof.
  intros n. subst n. unfold add_assets_to_album.
  change (negb (nonempty (x :: ids))) with false. cbv iota.
  destruct dry; [reflexivity|].
  unfold append_request. run_cases.
Qed.

End CallSites.

(** ** The walk order *)

Lemma subdirectories_in_walk_order (t : dirtree) :
  forall top, subdirectories_of (os_walk top t) = walk_order top t.
Proof.
  induction t as [dirs IH] using dirtree_induction. intros top.
  rewrite subdirectories_walk_order. simpl. f_equal.
  induction IH as [|d dirs Hd _ IHdirs]; simpl; [reflexivity|].
  rewrite Hd, IHdirs. reflexivity.
Qed.

(** In a deeper tree the subdirectories of the root come before the
    directories below them. *)
Example walk_order_two_levels :
  subdirectories_of (os_walk "/lib" two_levels)
  = ["/lib/a"; "/lib/b"; "/lib/a/x"; "/lib/b/y"].
Proof. reflexivity. Qed.

(** ** The claims on aggregation *)

(** C3: with the folder view as an oracle, [get_all_assets_recursive]
    returns the list of the root followed by the lists of the directories
    below it in walk order, reduced to first occurrences: no identifier is
    repeated, every reported identifier occurs once, nothing else occurs,
    and the directories asked are the descendants of the root. *)
Theorem aggregation_first_seen (E : environment)
    (table : string -> list string) (root_folder : string) (t : dirtree)
    (w : world) :
  folder_oracle E table ->
  fs_tree (env_fs E) root_folder = Some t ->
  let lists := fun d => table (convert_to_immich_path (LIBRARY_ROOT w) d) in
  let discovered :=
    (lists root_folder ++ flat_map lists (walk_order root_folder t))%list in
  let unique_assets := first_occurrences discovered in
  fst (get_all_assets_recursive E root_folder w) = Returns unique_assets /\
  NoDup unique_assets /\
  (forall x, In x discovered -> count_occ string_dec unique_assets x = 1) /\
  (forall x, In x unique_assets -> In x discovered) /\
  Permutation (walk_order root_folder t) (descendants root_folder t).
Proof.
  intros Ho Ht lists discovered unique_assets.
  split; [|split; [|split; [|split]]].
  - rewrite (get_all_assets_recursive_value E table Ho), Ht.
    rewrite subdirectories_in_walk_order. reflexivity.
  - apply first_occurrences_NoDup.
  - intros x. apply first_occurrences_once.
  - intros x. apply first_occurrences_In.
  - rewrite <- subdirectories_in_walk_order.
    apply subdirectories_are_descendants.
Qed.

Lemma demo_folder_oracle : folder_oracle Demo.env Demo.folder_table.
Proof.
  intros history r. eexists. split; [reflexivity|]. split; [reflexivity|].
  simpl. rewrite map_map. simpl. apply map_id.
Defined.

(** The example of the specification: "/lib" with the folders "a"
    (assets 1, 2) and "b" (assets 2, 3) aggregates to 1, 2, 3. *)
Lemma aggregation_first_seen_witness :
  fst (get_all_assets_recursive Demo.env "/lib" (Demo.configured []))
  = Returns ["1"; "2"; "3"].
Proof.
  apply (aggregation_first_seen Demo.env Demo.folder_table "/lib"
           Demo.tree_lib (Demo.configured [])).
  - exact demo_folder_oracle.
  - reflexivity.
Defined.

(** ** The claims on the calls that change the server *)


(** A dry run that picks an existing album: the trace has no PUT and ends
    with the two lines that report the simulated action. *)
Example dry_run_existing_album :
  let w := snd (main Demo.env true (initial_world Demo.session_existing_album)) in
  filter mutating (trace w) = [] /\
  skipn (List.length (trace w) - 2) (trace w)
  = [Printed "[DRY-RUN] Would add 2 assets to album.";
     Printed "[DRY-RUN] 模拟完成：将 2 个资源添加到相册 'Holiday'"].
Proof. vm_compute. split; reflexivity. Qed.

(** C5: when the server's album list has an album of the given name,
    [create_album] sends the listing request and nothing else, prints the
    skip message and returns [None]. *)
Theorem create_album_skips_existing (E : environment) (name : string)
    (ids : list string) (dry : bool) (w : world)
    (resp : response (list album)) :
  list_albums (env_server E) (requests_of (trace w)) (albums_request w)
  = Responds resp ->
  request_fails (Responds resp) = false ->
  (exists a, In a (json resp) /\ albumName a = Some name) ->
  create_album E name ids dry w =
  (Returns PyNone,
   after w [Requested (albums_request w);
            Printed ("[SKIP] Album '" ++ name ++ "' already exists.")]).
Proof.
  intros Hresp Hok (a & Ha & Hname).
  assert (Hex : album_exists E name w
                = (Returns true, after w [Requested (albums_request w)])).
  { unfold album_exists, bind. rewrite get_all_albums_run. cbv zeta.
    rewrite Hresp, Hok. unfold ret. f_equal. f_equal.
    apply existsb_exists. exists a. split; [exact Ha|].
    rewrite Hname. simpl. apply String.eqb_refl. }
  rewrite (create_album_present E name ids dry w _ Hex), after_after.
  reflexivity.
Qed.

Lemma create_album_skips_existing_witness :
  create_album Demo.env "Holiday" ["1"; "2"] false (Demo.configured []) =
  (Returns PyNone,
   after (Demo.configured [])
     [Requested (albums_request (Demo.configured []));
      Printed "[SKIP] Album 'Holiday' already exists."]).
Proof.
  apply (create_album_skips_existing Demo.env "Holiday" ["1"; "2"] false
           (Demo.configured [])
           {| status_code := 200; status_error := EmptyString; json := [Demo.holiday] |}).
  - reflexivity.
  - reflexivity.
  - exists Demo.holiday. split; [left; reflexivity | reflexivity].
Defined.

(** C6: for a target path that is not a directory (an existing file in
    particular) the collection is the folder query of the containing
    directory: one request, for [dirname] of the path, and no walk. *)
Theorem file_target_queries_parent (E : environment) (path : string)
    (w : world) :
  fs_isdir (env_fs E) path = false ->
  collect_assets E path w = get_folder_assets E (PosixPath.dirname path) w /\
  exists l,
    trace (snd (collect_assets E path w)) =
    (trace w ++ Requested (folder_request w (PosixPath.dirname path)) :: l)%list
    /\ forallb (fun e => negb (is_request e) && negb (is_walk e)) l = true.
Proof.
  intros Hdir. unfold collect_assets. rewrite Hdir. split; [reflexivity|].
  rewrite get_folder_assets_run. cbv zeta.
  destruct (view_folder _ _ _); [|destruct (request_fails _)];
    eexists; (split; [reflexivity | reflexivity]).
Qed.

Lemma file_target_queries_parent_witness :
  fs_exists Demo.files "/lib/x.jpg" = true /\
  collect_assets Demo.env "/lib/x.jpg" (Demo.configured [])
  = get_folder_assets Demo.env "/lib" (Demo.configured []) /\
  exists l,
    trace (snd (collect_assets Demo.env "/lib/x.jpg" (Demo.configured []))) =
    (trace (Demo.configured [])
       ++ Requested (folder_request (Demo.configured []) "/lib") :: l)%list
    /\ forallb (fun e => negb (is_request e) && negb (is_walk e)) l = true.
Proof.
  split; [reflexivity|].
  apply (file_target_queries_parent Demo.env "/lib/x.jpg" (Demo.configured [])).
  reflexivity.
Defined.

(** A run of the script on a file: both collections ask for the folder
    "a" that holds the file, nothing is walked, and the two assets of the
    folder are added. *)
Example file_session :
  let w := snd (main Demo.env false (initial_world Demo.session_file)) in
  filter is_walk (trace w) = [] /\
  map requested_folder
    (filter (fun r => PyStr.endswith (req_url r) "/api/view/folder")
       (requests_of (trace w)))
  = ["a"; "a"] /\
  skipn (List.length (trace w) - 1) (trace w)
  = [Printed "成功将 2 个资源添加到相册 'Holiday'"].
Proof. vm_compute. repeat split; reflexivity. Qed.

(** ** Runs that return *)

Lemma returns_of_no_exn {A} (o : outcome A) :
  outcome_ok no_exn o -> exists v, o = Returns v.
Proof. destruct o; simpl; [eauto | discriminate | contradiction]. Qed.

Lemma run_ok_returns {A} (m : M A) :
  (forall n, run_ok n (fun _ => True) any_event no_exn m) ->
  forall w, exists v, fst (m w) = Returns v.
Proof.
  intros H w. apply returns_of_no_exn.
  apply (H (S (List.length (stdin w))) w); [lia | exact Logic.I].
Qed.

(** The script offline, from its start: every request fails, every
    failure is printed, and the run returns. *)
Example offline_session :
  let r := main Demo.offline false (initial_world Demo.session_offline) in
  fst r = Returns tt /\
  filter (fun e => match e with
                   | Printed line => PyStr.startswith line "[ERROR]"
                   | _ => false
                   end) (trace (snd r))
  = [Printed "[ERROR] Failed to get albums: Connection refused";
     Printed "[ERROR] Failed to get albums: Connection refused";
     Printed "[ERROR] Failed to get assets for 'a': Connection refused"].
Proof. vm_compute. split; reflexivity. Qed.

(** ** The claims on return values *)

(** C8: [create_album] returns [None] whatever happens, so that without
    [--dry-run] the new-album branch of [interactive_album_manager] ends
    by printing the failure line, also when the album has just been
    created. *)
Theorem create_album_returns_None (E : environment) :
  (forall name ids dry w,
     fst (create_album E name ids dry w) = Returns PyNone) /\
  (forall name id ids w,
     perform_operation E true name id ids false w =
     (Returns tt,
      after (snd (create_album E name ids false w))
        [Printed "创建新相册失败"])) /\
  (forall name ids w w1,
     album_exists E name w = (Returns false, w1) ->
     request_fails
       (post_album (env_server E) (requests_of (trace w1))
          (create_request w1 name ids)) = false ->
     forall id,
       perform_operation E true name id ids false w =
       (Returns tt,
        after w1
          [Requested (create_request w1 name ids);
           Printed ("[OK] Album created: " ++ name ++ " ("
                      ++ PyStr.of_nat (List.length ids) ++ " assets)");
           Printed "创建新相册失败"])).
Proof.
  assert (Hnone : forall name ids dry w,
            fst (create_album E name ids dry w) = Returns PyNone).
  { intros name ids dry w.
    destruct (album_exists_run E name w) as (b & l & Hrun & _).
    destruct b.
    - rewrite (create_album_present E name ids dry w _ Hrun). reflexivity.
    - rewrite (create_album_absent E name ids dry w _ Hrun).
      destruct dry; [reflexivity|]. cbv zeta.
      destruct (request_fails _); reflexivity. }
  assert (Hfail : forall name id ids w,
            perform_operation E true name id ids false w =
            (Returns tt,
             after (snd (create_album E name ids false w))
               [Printed "创建新相册失败"])).
  { intros name id ids w. unfold perform_operation, bind.
    specialize (Hnone name ids false w).
    destruct (create_album E name ids false w) as [o w1]. simpl in *.
    subst o. reflexivity. }
  split; [exact Hnone | split; [exact Hfail|]].
  intros name ids w w1 Hex Hok id. rewrite Hfail.
  rewrite (create_album_absent E name ids false w w1 Hex). cbv zeta.
  rewrite Hok. simpl snd. rewrite after_after. reflexivity.
Qed.

Lemma create_album_returns_None_witness :
  perform_operation Demo.env true "Trip" None ["1"; "2"] false
    (Demo.configured []) =
  (Returns tt,
   after (snd (album_exists Demo.env "Trip" (Demo.configured [])))
     [Requested
        (create_request (snd (album_exists Demo.env "Trip" (Demo.configured [])))
           "Trip" ["1"; "2"]);
      Printed "[OK] Album created: Trip (2 assets)";
      Printed "创建新相册失败"]).
Proof.
  destruct (create_album_returns_None Demo.env) as (_ & _ & H).
  apply (H "Trip" ["1"; "2"] (Demo.configured [])
           (snd (album_exists Demo.env "Trip" (Demo.configured []))));
    reflexivity.
Defined.

(** The same in a run of the script from its start: the album "Trip" is
    created, and the last two lines contradict each other. *)
Example new_album_session :
  let w := snd (main Demo.env false (initial_world Demo.session_new_album)) in
  map req_method (requests_of (trace w)) = [GET; GET; GET; GET; GET; POST] /\
  skipn (List.length (trace w) - 2) (trace w)
  = [Printed "[OK] Album created: Trip (2 assets)"; Printed "创建新相册失败"].
Proof. vm_compute. split; reflexivity. Qed.

(** C10: with nothing to add, [add_assets_to_album] prints the error line
    and returns [False] without a request, whatever the flag. *)
Theorem add_nothing_is_an_error (E : environment) (id : option string)
    (dry : bool) (w : world) :
  add_assets_to_album E id [] dry w =
  (Returns false, after w [Printed "[ERROR] No assets to add."]).
Proof. reflexivity. Qed.

(** ** The claim on failing requests *)

(** *** No [RequestException] leaves a call site *)

Lemma contained_ret {A} (a : A) : contained (ret a).
Proof. intros w t H. discriminate H. Qed.

Lemma contained_emit (e : event) : contained (emit e).
Proof. intros w t H. discriminate H. Qed.

Lemma contained_raise {A} (e : exn) :
  (forall t, e <> RequestException t) -> contained (@raise A e).
Proof. intros He w t H. simpl in H. injection H as H. exact (He t H). Qed.

Lemma contained_bind {A B} (m : M A) (k : A -> M B) :
  contained m -> (forall a, contained (k a)) -> contained (bind m k).
Proof.
  intros Hm Hk w t. unfold bind. specialize (Hm w t).
  destruct (m w) as [[a|e|] w1]; simpl in *.
  - apply Hk.
  - intros H. apply Hm. injection H as H. rewrite H. reflexivity.
  - discriminate.
Qed.

Lemma contained_get_world {B} (k : world -> M B) :
  (forall w0, contained (k w0)) -> contained (bind get_world k).
Proof. intros Hk w t. apply (Hk w w t). Qed.

(** Whatever the body of the [try] does, a handler for
    [RequestException] that raises none lets none through. *)
Lemma contained_try {A} (body : M A) (h : string -> M A) :
  (forall t, contained (h t)) ->
  contained (try_except body (except_RequestException h)).
Proof.
  intros Hh w t. unfold try_except.
  destruct (body w) as [[a|e|] w1]; simpl; try discriminate.
  destruct e; simpl; try discriminate. apply Hh.
Qed.

Lemma contained_for_in {A S} (l : list A) (body : A -> S -> M S) :
  (forall x s, contained (body x s)) -> forall s, contained (for_in l s body).
Proof.
  intros Hb. induction l as [|x l IH]; intros s; simpl.
  - apply contained_ret.
  - apply contained_bind; auto.
Qed.

Lemma contained_any {A} (l : list A) (test : A -> M bool) :
  (forall x, contained (test x)) -> contained (Wire.any l test).
Proof.
  intros Ht. induction l as [|x l IH]; simpl.
  - apply contained_ret.
  - apply contained_bind; [apply Ht|].
    intros [|]; [apply contained_ret | exact IH].
Qed.

Lemma contained_iterate (v : Wire.value) : contained (Wire.iterate v).
Proof.
  destruct v; simpl;
    first [apply contained_ret | apply contained_raise; discriminate].
Qed.

Lemma contained_getitem (v : Wire.value) (key : string) :
  contained (Wire.getitem v key).
Proof.
  destruct v; simpl; try (apply contained_raise; discriminate).
  destruct (Wire.member key members);
    [apply contained_ret | apply contained_raise; discriminate].
Qed.

Lemma contained_get (v : Wire.value) (key : string) :
  contained (Wire.get v key).
Proof.
  destruct v; simpl; try (apply contained_raise; discriminate).
  destruct (Wire.member key members); apply contained_ret.
Qed.

Ltac contained_step :=
  cbv zeta;
  lazymatch goal with
  | |- contained (ret _) => apply contained_ret
  | |- contained (print _) => apply contained_emit
  | |- contained (bind get_world _) => apply contained_get_world; intros ?
  | |- contained (bind _ _) => apply contained_bind; [ | intros ? ]
  | |- contained (try_except _ (except_RequestException _)) =>
      apply contained_try; intros ?
  | |- contained (Wire.iterate _) => apply contained_iterate
  | |- contained (Wire.getitem _ _) => apply contained_getitem
  | |- contained (Wire.get _ _) => apply contained_get
  | |- contained (Wire.any _ _) => apply contained_any; intros ?
  | |- contained (if ?b then _ else _) => destruct b
  end.

Ltac wire_unfold :=
  cbv beta iota zeta delta
    [bind get_world try_except Wire.call Wire.raise_for_status
     Wire.call_error print emit ret raise except_RequestException fst snd].

Ltac wire_cases :=
  wire_unfold;
  repeat match goal with
         | |- context [match ?x with Wire.Throws _ => _ | Wire.Gives _ => _ end] =>
             destruct x as [[]|]; wire_unfold
         | |- context [if ?b then _ else _] => destruct b; wire_unfold
         end;
  try exact Logic.I;
  unfold after; simpl; rewrite <- ?app_assoc; reflexivity.

Section WireCalls.

Variable L : Wire.library.

Lemma contained_get_folder_assets p : contained (Wire.get_folder_assets L p).
Proof. unfold Wire.get_folder_assets. repeat contained_step. Qed.

Lemma contained_get_all_albums : contained (Wire.get_all_albums L).
Proof. unfold Wire.get_all_albums. repeat contained_step. Qed.

Lemma contained_album_exists name : contained (Wire.album_exists L name).
Proof.
  unfold Wire.album_exists.
  apply contained_bind; [apply contained_get_all_albums | intros albums].
  repeat contained_step.
Qed.

Lemma contained_create_album name ids dry :
  contained (Wire.create_album L name ids dry).
Proof.
  unfold Wire.create_album.
  apply contained_bind; [apply contained_album_exists | intros b].
  repeat contained_step.
Qed.

Lemma contained_add_assets_to_album id ids dry :
  contained (Wire.add_assets_to_album L id ids dry).
Proof. unfold Wire.add_assets_to_album. repeat contained_step. Qed.

(** *** What a call that fails ends in *)

Lemma get_folder_assets_fails (p : string) (w : world) :
  let r := folder_request w p in
  match Wire.call_error (Wire.folder_call L (requests_of (trace w)) r) with
  | Some (RequestException t) =>
      Wire.get_folder_assets L p w =
      (Returns [],
       after w [Requested r;
                Printed ("[ERROR] Failed to get assets for '"
                           ++ convert_to_immich_path (LIBRARY_ROOT w) p
                           ++ "': " ++ t)])
  | Some e => Wire.get_folder_assets L p w = (Raises e, after w [Requested r])
  | None => True
  end.
Proof.
  intros r. subst r. unfold Wire.get_folder_assets, folder_request.
  wire_cases.
Qed.

Lemma get_all_albums_fails (w : world) :
  let r := albums_request w in
  match Wire.call_error (Wire.albums_call L (requests_of (trace w)) r) with
  | Some (RequestException t) =>
      Wire.get_all_albums L w =
      (Returns (Wire.JList []),
       after w [Requested r;
                Printed ("[ERROR] Failed to get albums: " ++ t)])
  | Some e => Wire.get_all_albums L w = (Raises e, after w [Requested r])
  | None => True
  end.
Proof.
  intros r. subst r. unfold Wire.get_all_albums, albums_request.
  wire_cases.
Qed.

Lemma add_assets_to_album_fails (id : option string) (x : string)
    (ids : list string) (w : world) :
  let r := append_request w id (x :: ids) in
  match Wire.call_error (Wire.append_call L (requests_of (trace w)) r) with
  | Some (RequestException t) =>
      Wire.add_assets_to_album L id (x :: ids) false w =
      (Returns false,
       after w [Requested r;
                Printed ("[ERROR] Failed to add assets to album: " ++ t)])
  | Some e =>
      Wire.add_assets_to_album L id (x :: ids) false w =
      (Raises e, after w [Requested r])
  | None => True
  end.
Proof.
  intros r. subst r. unfold Wire.add_assets_to_album, append_request.
  change (negb (nonempty (x :: ids))) with false. cbv iota.
  wire_cases.
Qed.

Lemma create_album_fails (name : string) (ids : list string) (w w1 : world) :
  Wire.album_exists L name w = (Returns false, w1) ->
  let r := create_request w1 name ids in
  match Wire.call_error (Wire.create_call L (requests_of (trace w1)) r) with
  | Some (RequestException t) =>
      Wire.create_album L name ids false w =
      (Returns PyNone,
       after w1 [Requested r;
                 Printed ("[ERROR] Failed to create album '" ++ name
                            ++ "': " ++ t)])
  | Some e =>
      Wire.create_album L name ids false w = (Raises e, after w1 [Requested r])
  | None => True
  end.
Proof.
  intros H r. subst r.
  remember (Wire.create_album L name ids false w) as run eqn:Hrun.
  unfold Wire.create_album in Hrun. unfold bind at 1 in Hrun.
  rewrite H in Hrun. cbv iota in Hrun. subst run.
  unfold create_request.
  wire_cases.
Qed.

End WireCalls.

(** *** On documented answers the two embeddings agree *)

Lemma collect_ids (assets : list asset) (acc : list Wire.value) (w : world) :
  for_in (map asset_value assets) acc
    (fun item asset_ids =>
       id <- Wire.getitem item "id" ;;
       ret (asset_ids ++ [id])%list) w
  = (Returns (acc ++ map (fun a => Wire.JStr (asset_id a)) assets)%list, w).
Proof.
  revert acc. induction assets as [|a assets IH]; intros acc; simpl.
  - rewrite app_nil_r. reflexivity.
  - unfold bind at 1. simpl. rewrite IH, <- app_assoc. reflexivity.
Qed.

Lemma album_name_member (a : album) :
  Wire.get (album_value a) "albumName"
  = ret match albumName a with
        | Some n => Wire.JStr n
        | None => Wire.JNull
        end.
Proof.
  unfold album_value, Wire.get, Wire.member.
  destruct (albumName a), (album_id a), (assetCount a), (create_new a);
    reflexivity.
Qed.

Lemma any_album_named (albums : list album) (name : string) (w : world) :
  Wire.any (map album_value albums)
    (fun album =>
       n <- Wire.get album "albumName" ;;
       ret (Wire.equals n name)) w
  = (Returns (existsb (fun album => get_equals (albumName album) name) albums),
     w).
Proof.
  induction albums as [|a albums IH]; cbn [map Wire.any existsb];
    [reflexivity|].
  unfold bind at 1. rewrite album_name_member. unfold bind at 1, ret at 1.
  destruct (albumName a) as [n|]; cbn [Wire.equals get_equals fst snd].
  - destruct (n =? name); [reflexivity | exact IH].
  - exact IH.
Qed.

Lemma bind_run {A B} (m : M A) (k : A -> M B) (w : world) :
  bind m k w = match m w with
               | (Returns a, w') => k a w'
               | (Raises e, w') => (Raises e, w')
               | (OutOfFuel, w') => (OutOfFuel, w')
               end.
Proof. reflexivity. Qed.

Section Documented.

Variable E : environment.

Lemma documented_get_folder_assets p w :
  Wire.get_folder_assets (documented (env_server E)) p w
  = through (map Wire.JStr) (get_folder_assets E p w).
Proof.
  rewrite get_folder_assets_run. cbv zeta.
  unfold Wire.get_folder_assets, folder_request, documented, documented_reply,
    through, Wire.response_json, Wire.iterate.
  set (collect := fun (item : Wire.value) (asset_ids : list Wire.value) =>
                    id <- Wire.getitem item "id" ;;
                    ret (asset_ids ++ [id])%list).
  cbn [Wire.folder_call].
  wire_unfold.
  destruct (view_folder (env_server E) _ _) as [e|resp]; wire_unfold.
  - unfold after. simpl. rewrite <- ?app_assoc. reflexivity.
  - unfold request_fails.
    cbn [Wire.status Wire.reason Wire.decoded].
    destruct ((400 <=? status_code resp)%Z && (status_code resp <? 600)%Z);
      wire_unfold.
    + unfold after, failure_text. simpl. rewrite <- ?app_assoc. reflexivity.
    + subst collect. rewrite collect_ids. simpl. rewrite map_map. reflexivity.
Qed.

Lemma documented_get_all_albums w :
  Wire.get_all_albums (documented (env_server E)) w
  = through (fun albums => Wire.JList (map album_value albums))
      (get_all_albums E w).
Proof.
  rewrite get_all_albums_run. cbv zeta.
  unfold Wire.get_all_albums, albums_request, documented, documented_reply,
    through, Wire.response_json.
  cbn [Wire.albums_call].
  wire_unfold.
  destruct (list_albums (env_server E) _ _) as [e|resp]; wire_unfold.
  - unfold after. simpl. rewrite <- ?app_assoc. reflexivity.
  - unfold request_fails.
    cbn [Wire.status Wire.reason Wire.decoded].
    destruct ((400 <=? status_code resp)%Z && (status_code resp <? 600)%Z);
      wire_unfold.
    + unfold after, failure_text. simpl. rewrite <- ?app_assoc. reflexivity.
    + reflexivity.
Qed.

Lemma documented_album_exists name w :
  Wire.album_exists (documented (env_server E)) name w
  = album_exists E name w.
Proof.
  unfold Wire.album_exists, album_exists.
  rewrite (bind_run (Wire.get_all_albums _)), (bind_run (get_all_albums E)).
  rewrite documented_get_all_albums. unfold through.
  destruct (get_all_albums E w) as [[albums|e|] w1]; cbn [fst snd];
    try reflexivity.
  rewrite bind_run. cbn [Wire.iterate]. unfold ret at 1.
  rewrite any_album_named. reflexivity.
Qed.

Lemma documented_create_album name ids dry w :
  Wire.create_album (documented (env_server E)) name ids dry w
  = create_album E name ids dry w.
Proof.
  unfold Wire.create_album, create_album.
  rewrite (bind_run (Wire.album_exists _ _)), (bind_run (album_exists E _)).
  rewrite documented_album_exists.
  destruct (album_exists E name w) as [[[|]|e|] w1]; try reflexivity.
  destruct dry; [reflexivity|].
  unfold documented, documented_reply. cbn [Wire.create_call].
  run_unfold. wire_unfold.
  destruct (post_album (env_server E) _ _) as [e|resp]; run_unfold; wire_unfold.
  - reflexivity.
  - cbn [Wire.status Wire.reason Wire.decoded].
    destruct ((400 <=? status_code resp)%Z && (status_code resp <? 600)%Z);
      reflexivity.
Qed.

Lemma documented_add_assets_to_album id ids dry w :
  Wire.add_assets_to_album (documented (env_server E)) id ids dry w
  = add_assets_to_album E id ids dry w.
Proof.
  unfold Wire.add_assets_to_album, add_assets_to_album.
  destruct (negb (nonempty ids)); [reflexivity|].
  destruct dry; [reflexivity|].
  unfold documented, documented_reply. cbn [Wire.append_call].
  run_unfold. wire_unfold.
  destruct (put_album_assets (env_server E) _ _) as [e|resp];
    run_unfold; wire_unfold.
  - reflexivity.
  - cbn [Wire.status Wire.reason Wire.decoded].
    destruct ((400 <=? status_code resp)%Z && (status_code resp <? 600)%Z);
      reflexivity.
Qed.

End Documented.

(** On answers of the documented shape the four functions do what their
    embedding in the script does, seen through the encoding of the
    values: nothing is lost by working there with typed answers. *)
Theorem documented_calls_agree (E : environment) :
  let L := documented (env_server E) in
  (forall p w,
     Wire.get_folder_assets L p w
     = through (map Wire.JStr) (get_folder_assets E p w)) /\
  (forall w,
     Wire.get_all_albums L w
     = through (fun albums => Wire.JList (map album_value albums))
         (get_all_albums E w)) /\
  (forall name w, Wire.album_exists L name w = album_exists E name w) /\
  (forall name ids dry w,
     Wire.create_album L name ids dry w = create_album E name ids dry w) /\
  (forall id ids dry w,
     Wire.add_assets_to_album L id ids dry w
     = add_assets_to_album E id ids dry w).
Proof.
  intros L. subst L. repeat split; intros.
  - apply documented_get_folder_assets.
  - apply documented_get_all_albums.
  - apply documented_album_exists.
  - apply documented_create_album.
  - apply documented_add_assets_to_album.
Qed.

(** C7 as stated fails: an exception that is no [RequestException] is not
    caught at the call site. With a server that answers 200 and the
    object [{"message": "ok"}], [get_folder_assets] subscripts the key
    "message" with "id" and raises [TypeError]; with an API key outside
    latin-1 the call itself raises [UnicodeEncodeError], here in
    [get_all_albums], and goes on through [album_exists] and
    [create_album], which call it. None of them returns, and nothing is
    printed. *)
Lemma other_exceptions_are_not_caught :
  (Wire.get_folder_assets WireDemo.talkative "/lib/a" (Demo.configured [])
   = (Raises TypeError,
      after (Demo.configured [])
        [Requested (folder_request (Demo.configured []) "/lib/a")]) /\
   ~ degrades (Wire.get_folder_assets WireDemo.talkative "/lib/a")
       (Demo.configured [])) /\
  (Wire.get_all_albums WireDemo.immich (WireDemo.configured "密钥")
   = (Raises UnicodeEncodeError,
      after (WireDemo.configured "密钥")
        [Requested (albums_request (WireDemo.configured "密钥"))]) /\
   ~ degrades (Wire.get_all_albums WireDemo.immich)
       (WireDemo.configured "密钥")) /\
  (Wire.create_album WireDemo.immich "Trip" ["1"; "2"] false
     (WireDemo.configured "密钥")
   = (Raises UnicodeEncodeError,
      after (WireDemo.configured "密钥")
        [Requested (albums_request (WireDemo.configured "密钥"))]) /\
   ~ degrades (Wire.create_album WireDemo.immich "Trip" ["1"; "2"] false)
       (WireDemo.configured "密钥")).
Proof.
  split; [|split]; split.
  - vm_compute. reflexivity.
  - intros [a H]. vm_compute in H. discriminate H.
  - vm_compute. reflexivity.
  - intros [a H]. vm_compute in H. discriminate H.
  - vm_compute. reflexivity.
  - intros [a H]. vm_compute in H. discriminate H.
Qed.

(** C7, amended: at each of the four HTTP call sites a
    [RequestException], raised by the call or by [raise_for_status] for
    an error status, is caught where the call is made: the error line is
    printed and the function returns its empty or falsy value, [] from
    [get_folder_assets] and [get_all_albums], [False] from
    [add_assets_to_album], [None] from [create_album]. Whatever the
    library and the server do, no [RequestException] leaves any of the
    four functions. An exception of another class is not caught: the
    function raises it and prints nothing. *)
Theorem request_exceptions_are_caught (L : Wire.library) :
  (forall p w t,
     fst (Wire.get_folder_assets L p w) <> Raises (RequestException t)) /\
  (forall w t,
     fst (Wire.get_all_albums L w) <> Raises (RequestException t)) /\
  (forall id ids dry w t,
     fst (Wire.add_assets_to_album L id ids dry w)
     <> Raises (RequestException t)) /\
  (forall name ids dry w t,
     fst (Wire.create_album L name ids dry w) <> Raises (RequestException t)) /\
  (forall p w,
     let r := folder_request w p in
     match Wire.call_error (Wire.folder_call L (requests_of (trace w)) r) with
     | Some (RequestException t) =>
         Wire.get_folder_assets L p w =
         (Returns [],
          after w [Requested r;
                   Printed ("[ERROR] Failed to get assets for '"
                              ++ convert_to_immich_path (LIBRARY_ROOT w) p
                              ++ "': " ++ t)])
     | Some e =>
         Wire.get_folder_assets L p w = (Raises e, after w [Requested r])
     | None => True
     end) /\
  (forall w,
     let r := albums_request w in
     match Wire.call_error (Wire.albums_call L (requests_of (trace w)) r) with
     | Some (RequestException t) =>
         Wire.get_all_albums L w =
         (Returns (Wire.JList []),
          after w [Requested r;
                   Printed ("[ERROR] Failed to get albums: " ++ t)])
     | Some e => Wire.get_all_albums L w = (Raises e, after w [Requested r])
     | None => True
     end) /\
  (forall id x ids w,
     let r := append_request w id (x :: ids) in
     match Wire.call_error (Wire.append_call L (requests_of (trace w)) r) with
     | Some (RequestException t) =>
         Wire.add_assets_to_album L id (x :: ids) false w =
         (Returns false,
          after w [Requested r;
                   Printed ("[ERROR] Failed to add assets to album: " ++ t)])
     | Some e =>
         Wire.add_assets_to_album L id (x :: ids) false w =
         (Raises e, after w [Requested r])
     | None => True
     end) /\
  (forall name ids w w1,
     Wire.album_exists L name w = (Returns false, w1) ->
     let r := create_request w1 name ids in
     match Wire.call_error (Wire.create_call L (requests_of (trace w1)) r) with
     | Some (RequestException t) =>
         Wire.create_album L name ids false w =
         (Returns PyNone,
          after w1 [Requested r;
                    Printed ("[ERROR] Failed to create album '" ++ name
                               ++ "': " ++ t)])
     | Some e =>
         Wire.create_album L name ids false w
         = (Raises e, after w1 [Requested r])
     | None => True
     end).
Proof.
  split; [intros p; apply contained_get_folder_assets|].
  split; [apply contained_get_all_albums|].
  split; [intros id ids dry; apply contained_add_assets_to_album|].
  split; [intros name ids dry; apply contained_create_album|].
  split; [apply get_folder_assets_fails|].
  split; [apply get_all_albums_fails|].
  split; [apply add_assets_to_album_fails|].
  apply create_album_fails.
Qed.

Lemma request_exceptions_are_caught_witness :
  let offline := documented Demo.unreachable in
  let w := Demo.configured [] in
  let w1 := snd (Wire.album_exists offline "Trip" w) in
  Wire.create_album offline "Trip" ["1"; "2"] false w =
  (Returns PyNone,
   after w1
     [Requested (create_request w1 "Trip" ["1"; "2"]);
      Printed "[ERROR] Failed to create album 'Trip': Connection refused"]) /\
  Wire.add_assets_to_album offline (Some "alb-1") ["1"; "2"] false w =
  (Returns false,
   after w
     [Requested (append_request w (Some "alb-1") ["1"; "2"]);
      Printed "[ERROR] Failed to add assets to album: Connection refused"]) /\
  Wire.add_assets_to_album WireDemo.immich (Some "alb-1") ["1"; "2"] false
    (WireDemo.configured "密钥") =
  (Raises UnicodeEncodeError,
   after (WireDemo.configured "密钥")
     [Requested (append_request (WireDemo.configured "密钥") (Some "alb-1")
                   ["1"; "2"])]).
Proof.
  intros offline w w1.
  destruct (request_exceptions_are_caught offline)
    as (_ & _ & _ & _ & _ & _ & Hadd & Hcreate).
  destruct (request_exceptions_are_caught WireDemo.immich)
    as (_ & _ & _ & _ & _ & _ & Hkey & _).
  split; [|split].
  - apply (Hcreate "Trip" ["1"; "2"] w w1). vm_compute. reflexivity.
  - apply (Hadd (Some "alb-1") "1" ["2"] w).
  - apply (Hkey (Some "alb-1") "1" ["2"] (WireDemo.configured "密钥")).
Defined.

(** ** Reading a run backwards *)

Lemma bind_returns {A B} (m : M A) (k : A -> M B) w b w' :
  bind m k w = (Returns b, w') ->
  exists a w1, m w = (Returns a, w1) /\ k a w1 = (Returns b, w').
Proof.
  unfold bind. destruct (m w) as [[a|e|] w1]; intros H; try discriminate H.
  eauto.
Qed.

Lemma bind_raises {A B} (m : M A) (k : A -> M B) w e w' :
  bind m k w = (Raises e, w') ->
  m w = (Raises e, w') \/
  exists a w1, m w = (Returns a, w1) /\ k a w1 = (Raises e, w').
Proof.
  unfold bind. destruct (m w) as [[a|e0|] w1]; intros H; try discriminate H.
  - right. eauto.
  - left. inversion H. reflexivity.
Qed.

Lemma try_returns {A} (body : M A) handler w a w' :
  try_except body handler w = (Returns a, w') ->
  body w = (Returns a, w') \/
  exists e w1 h,
    body w = (Raises e, w1) /\ handler e = Some h /\ h w1 = (Returns a, w').
Proof.
  unfold try_except. destruct (body w) as [[a0|e|] w1]; intros H.
  - left. exact H.
  - right. destruct (handler e) as [h|] eqn:Hh; [|discriminate H].
    exists e, w1, h. auto.
  - discriminate H.
Qed.

Lemma try_raises {A} (body : M A) handler w e w' :
  try_except body handler w = (Raises e, w') ->
  (body w = (Raises e, w') /\ handler e = None) \/
  exists e0 w1 h,
    body w = (Raises e0, w1) /\ handler e0 = Some h /\ h w1 = (Raises e, w').
Proof.
  unfold try_except. destruct (body w) as [[a0|e0|] w1]; intros H.
  - discriminate H.
  - destruct (handler e0) as [h|] eqn:Hh.
    + right. exists e0, w1, h. auto.
    + left. inversion H; subst. auto.
  - discriminate H.
Qed.

Lemma print_runs line w o w' :
  print line w = (o, w') -> o = Returns tt /\ w' = after w [Printed line].
Proof. unfold print, emit. intros H. inversion H. auto. Qed.

Lemma input_returns p w s w' :
  input p w = (Returns s, w') ->
  stdin w = Line s :: stdin w' /\ same_globals w w' /\
  trace w' = (trace w ++ [Prompted p])%list.
Proof.
  unfold input, bind, emit. simpl.
  destruct (stdin w) as [|[s0|] rest] eqn:Hs; intros H; inversion H; subst.
  simpl. repeat split.
Qed.

Lemma input_raises p w e w' :
  input p w = (Raises e, w') ->
  (e = EOFError /\ stdin w = []) \/
  (e = KeyboardInterrupt /\ stdin w = Interrupt :: stdin w').
Proof.
  unfold input, bind, emit. simpl.
  destruct (stdin w) as [|[s0|] rest] eqn:Hs; intros H; inversion H; subst;
    simpl; auto.
Qed.

Ltac run_inv :=
  repeat
    (cbv beta zeta in *;
     match goal with
     | H : bind _ _ _ = (Returns _, _) |- _ =>
         apply bind_returns in H; destruct H as (? & ? & ? & ?)
     | H : bind _ _ _ = (Raises _, _) |- _ =>
         apply bind_raises in H; destruct H as [H | (? & ? & ? & H)]
     | H : try_except _ _ _ = (Returns _, _) |- _ =>
         apply try_returns in H; destruct H as [H | (? & ? & ? & ? & ? & H)]
     | H : get_world _ = _ |- _ =>
         unfold get_world in H; inversion H; subst; clear H
     | H : ret _ _ = _ |- _ => unfold ret in H; inversion H; subst; clear H
     | H : raise _ _ = _ |- _ => unfold raise in H; inversion H; subst; clear H
     | H : out_of_fuel _ = _ |- _ => discriminate H
     | H : print _ _ = _ |- _ =>
         apply print_runs in H; destruct H as [? ?]; subst
     | H : input _ _ = (Returns _, _) |- _ =>
         apply input_returns in H; destruct H as (? & ? & ?)
     | H : input _ _ = (Raises _, _) |- _ =>
         apply input_raises in H; destruct H as [[? ?] | [? ?]]; subst
     | H : try_except _ _ _ = (Raises _, _) |- _ =>
         apply try_raises in H;
         destruct H as [[H ?] | (? & ? & ? & ? & ? & H)]
     | H : except_KeyboardInterrupt _ ?e = Some _ |- _ =>
         try (is_var e; destruct e); cbn [except_KeyboardInterrupt] in H;
         first [discriminate H | injection H as <-]
     | H : except_KeyboardInterrupt _ ?e = None |- _ =>
         try (is_var e; destruct e); cbn [except_KeyboardInterrupt] in H;
         first [discriminate H | clear H]
     | H : OutOfFuel = _ |- _ => discriminate H
     | H : (OutOfFuel, _) = _ |- _ => discriminate H
     | H : Returns _ = Returns _ |- _ => injection H as ?; subst
     | H : Returns _ = Raises _ |- _ => discriminate H
     | H : Raises _ = Returns _ |- _ => discriminate H
     | H : match ?e with
           | KeyboardInterrupt => _
           | EOFError => _
           | ValueError => _
           | TypeError => _
           | IndexError => _
           | KeyError => _
           | AttributeError => _
           | UnicodeEncodeError => _
           | RequestException _ => _
           end = Some _ |- _ =>
         try (is_var e; destruct e); cbv iota in H;
         first [discriminate H | injection H as <-]
     | H : Some _ = Some ?h |- _ => is_var h; injection H as H; subst h
     | H : None = Some _ |- _ => discriminate H
     | H : (if ?b then _ else _) _ = _ |- _ => destruct b eqn:?
     | H : (match ?x with _ => _ end) _ = _ |- _ => destruct x eqn:?
     end).

Lemma after_stdin w l : stdin (after w l) = stdin w.
Proof. reflexivity. Qed.

(** ** The prompts for the settings *)

Lemma host_prompt_raises (fuel : nat) (w w' : world) (e : exn) :
  get_immich_host_from_user fuel w = (Raises e, w') -> e = EOFError.
Proof.
  revert w w' e. induction fuel as [|fuel IH]; intros w w' e H.
  - discriminate H.
  - cbn [get_immich_host_from_user] in H. run_inv; eauto; congruence.
Qed.

Lemma host_prompt_returns (fuel : nat) (w w' : world) (o : option string) :
  get_immich_host_from_user fuel w = (Returns o, w') ->
  match o with
  | Some host =>
      host <> EmptyString /\
      (host = default_host \/ exists s, typed s w /\ host = PyStr.strip s)
  | None => interrupted w
  end.
Proof.
  revert w w' o. induction fuel as [|fuel IH]; intros w w' o H.
  - discriminate H.
  - cbn [get_immich_host_from_user] in H. unfold typed, interrupted in *.
    run_inv.
    all: repeat match goal with
                | H : stdin _ = _ |- _ => rewrite H in *; clear H
                | H : context [stdin (after _ _)] |- _ =>
                    rewrite after_stdin in H
                end.
    all: try match goal with
             | H : get_immich_host_from_user _ _ = _ |- _ =>
                 apply IH in H; rewrite ?after_stdin in H; rename H into HIH
             end.
    all: try (exfalso;
              match goal with
              | H : get_immich_host_from_user _ _ = (Raises _, _) |- _ =>
                  apply host_prompt_raises in H
              end; congruence).
    all: try congruence.
    all: try (simpl; tauto).
    + destruct o as [host|]; [|simpl; tauto].
      destruct HIH as [Hne [Hd|(s & Hs & Heq)]]; split; auto.
      right. exists s. simpl. auto.
    + match goal with
      | |- context [(PyStr.strip ?x =? EmptyString)%string] =>
          destruct (PyStr.strip x =? EmptyString)%string eqn:He;
          [ split; [discriminate | left; reflexivity]
          | apply String.eqb_neq in He; split; [exact He|];
            right; exists x; simpl; auto ]
      end.
    + match goal with
      | |- context [(PyStr.strip ?x =? EmptyString)%string] =>
          destruct (PyStr.strip x =? EmptyString)%string eqn:He;
          [ split; [discriminate | left; reflexivity]
          | apply String.eqb_neq in He; split; [exact He|];
            right; exists x; simpl; auto ]
      end.
Qed.



Lemma api_key_prompt_raises (fuel : nat) (w w' : world) (e : exn) :
  get_api_key_from_user fuel w = (Raises e, w') -> e = EOFError.
Proof.
  revert w w' e. induction fuel as [|fuel IH]; intros w w' e H.
  - discriminate H.
  - cbn [get_api_key_from_user] in H. run_inv; eauto; congruence.
Qed.

Lemma api_key_prompt_returns (fuel : nat) (w w' : world) (o : option string) :
  get_api_key_from_user fuel w = (Returns o, w') ->
  match o with
  | Some key =>
      key <> EmptyString /\ exists s, typed s w /\ key = PyStr.strip s
  | None => interrupted w
  end.
Proof.
  revert w w' o. induction fuel as [|fuel IH]; intros w w' o H.
  - discriminate H.
  - cbn [get_api_key_from_user] in H. unfold typed, interrupted in *.
    run_inv.
    all: repeat match goal with
                | H : stdin _ = _ |- _ => rewrite H in *; clear H
                end.
    all: try match goal with
             | H : get_api_key_from_user _ _ = (Returns _, _) |- _ =>
                 apply IH in H; rewrite ?after_stdin in H; rename H into HIH
             end.
    all: try (exfalso;
              match goal with
              | H : get_api_key_from_user _ _ = (Raises _, _) |- _ =>
                  apply api_key_prompt_raises in H
              end; congruence).
    all: try congruence.
    all: try (simpl; tauto).
    + destruct o as [key|]; [|simpl; tauto].
      destruct HIH as [Hne (s & Hs & Heq)]. split; auto.
      exists s. simpl. auto.
    + match goal with
      | Hb : (PyStr.strip ?x =? EmptyString)%string = false |- _ =>
          apply String.eqb_neq in Hb; split; [exact Hb|];
          exists x; simpl; auto
      end.
Qed.

(** X2: what [get_api_key_from_user] returns. A key it returns is not
    empty and is a line of the terminal without the blanks around it, an
    empty line being asked again; [None] is returned only after Ctrl-C. *)
Theorem api_key_prompt_result (fuel : nat) (w w' : world) (o : option string) :
  get_api_key_from_user fuel w = (Returns o, w') ->
  match o with
  | Some key =>
      key <> EmptyString /\ exists s, typed s w /\ key = PyStr.strip s
  | None => interrupted w
  end.
Proof. apply api_key_prompt_returns. Qed.

Lemma api_key_prompt_result_witness :
  "secret-key" <> EmptyString /\
  exists s, typed s (initial_world [Line "   "; Line "secret-key"])
            /\ "secret-key" = PyStr.strip s.
Proof.
  apply (api_key_prompt_result 3 (initial_world [Line "   "; Line "secret-key"])
           (snd (get_api_key_from_user 3
                   (initial_world [Line "   "; Line "secret-key"])))
           (Some "secret-key")).
  vm_compute. reflexivity.
Defined.

(** ** Functions that leave the terminal and the globals alone *)

Lemma same_globals_refl w : same_globals w w.
Proof. repeat split. Qed.

Lemma same_globals_trans w1 w2 w3 :
  same_globals w1 w2 -> same_globals w2 w3 -> same_globals w1 w3.
Proof.
  unfold same_globals. intros (? & ? & ? & ?) (? & ? & ? & ?).
  repeat split; congruence.
Qed.

Lemma quiet_ret {A} (a : A) : quiet (ret a).
Proof. intros w. split; [reflexivity | apply same_globals_refl]. Qed.

Lemma quiet_raise {A} e : quiet (@raise A e).
Proof. intros w. split; [reflexivity | apply same_globals_refl]. Qed.

Lemma quiet_emit e : quiet (emit e).
Proof. intros w. split; [reflexivity | apply emit_globals]. Qed.

Lemma quiet_bind {A B} (m : M A) (k : A -> M B) :
  quiet m -> (forall a, quiet (k a)) -> quiet (bind m k).
Proof.
  intros Hm Hk w. unfold bind. destruct (Hm w) as [Hs Hg].
  destruct (m w) as [[a|e|] w1]; simpl in *; auto.
  destruct (Hk a w1) as [Hs2 Hg2].
  split; [congruence | eapply same_globals_trans; eauto].
Qed.

Lemma quiet_get_world {B} (k : world -> M B) :
  (forall w0, quiet (k w0)) -> quiet (bind get_world k).
Proof. intros Hk w. apply (Hk w w). Qed.

Lemma quiet_try {A} (body : M A) handler :
  quiet body -> (forall e h, handler e = Some h -> quiet h) ->
  quiet (try_except body handler).
Proof.
  intros Hb Hh w. unfold try_except. destruct (Hb w) as [Hs Hg].
  destruct (body w) as [[a|e|] w1]; simpl in *; auto.
  destruct (handler e) as [h|] eqn:He; simpl; auto.
  destruct (Hh e h He w1) as [Hs2 Hg2].
  split; [congruence | eapply same_globals_trans; eauto].
Qed.

Lemma quiet_for_in {A S} (l : list A) (body : A -> S -> M S) :
  (forall x s, quiet (body x s)) -> forall s, quiet (for_in l s body).
Proof.
  intros Hb. induction l as [|x l IH]; intros s; simpl.
  - apply quiet_ret.
  - apply quiet_bind; auto.
Qed.

Lemma quiet_send {A} (endpoint : list request -> request -> reply A) r :
  quiet (send endpoint r).
Proof.
  unfold send. apply quiet_get_world. intros w0.
  apply quiet_bind; [apply quiet_emit|]. intros _.
  destruct (endpoint _ r); [apply quiet_raise | apply quiet_ret].
Qed.

Lemma quiet_raise_for_status {A} (resp : response A) :
  quiet (raise_for_status resp).
Proof.
  unfold raise_for_status.
  destruct (_ && _); [apply quiet_raise | apply quiet_ret].
Qed.

Lemma quiet_run {A} (m : M A) w o w' :
  quiet m -> m w = (o, w') -> stdin w' = stdin w /\ same_globals w w'.
Proof. intros Hq H. specialize (Hq w). rewrite H in Hq. exact Hq. Qed.

Create HintDb quiets discriminated.

Ltac quiet_step :=
  cbv zeta;
  lazymatch goal with
  | |- quiet (ret _) => apply quiet_ret
  | |- quiet (print _) => apply quiet_emit
  | |- quiet (emit _) => apply quiet_emit
  | |- quiet (raise _) => apply quiet_raise
  | |- quiet (send _ _) => apply quiet_send
  | |- quiet (raise_for_status _) => apply quiet_raise_for_status
  | |- quiet (bind get_world _) => apply quiet_get_world; intros ?
  | |- quiet (bind _ _) => apply quiet_bind; [ | intros ? ]
  | |- quiet (try_except _ _) =>
      apply quiet_try; [ | handler_cases idtac ]
  | |- quiet (for_in _ _ _) => apply quiet_for_in; intros ? ?
  | |- quiet (if ?b then _ else _) => destruct b
  | |- quiet (match ?x with _ => _ end) => destruct x
  | |- quiet _ => solve [eauto with quiets]
  end.

Ltac quiet_auto := repeat quiet_step.

Lemma quiet_get_folder_assets E p : quiet (get_folder_assets E p).
Proof. unfold get_folder_assets. quiet_auto. Qed.
#[local] Hint Resolve quiet_get_folder_assets : quiets.

Lemma quiet_get_all_subdirectories E p : quiet (get_all_subdirectories E p).
Proof. unfold get_all_subdirectories. quiet_auto. Qed.
#[local] Hint Resolve quiet_get_all_subdirectories : quiets.

Lemma quiet_get_all_assets_recursive E p :
  quiet (get_all_assets_recursive E p).
Proof. unfold get_all_assets_recursive. quiet_auto. Qed.
#[local] Hint Resolve quiet_get_all_assets_recursive : quiets.

Lemma quiet_collect_assets E p : quiet (collect_assets E p).
Proof. unfold collect_assets. quiet_auto. Qed.
#[local] Hint Resolve quiet_collect_assets : quiets.

Lemma quiet_get_all_albums E : quiet (get_all_albums E).
Proof. unfold get_all_albums. quiet_auto. Qed.
#[local] Hint Resolve quiet_get_all_albums : quiets.

Lemma quiet_album_exists E name : quiet (album_exists E name).
Proof. unfold album_exists. quiet_auto. Qed.
#[local] Hint Resolve quiet_album_exists : quiets.

Lemma quiet_create_album E name ids dry : quiet (create_album E name ids dry).
Proof. unfold create_album. quiet_auto. Qed.
#[local] Hint Resolve quiet_create_album : quiets.

Lemma quiet_add_assets_to_album E id ids dry :
  quiet (add_assets_to_album E id ids dry).
Proof. unfold add_assets_to_album. quiet_auto. Qed.
#[local] Hint Resolve quiet_add_assets_to_album : quiets.

Lemma quiet_perform_operation E new name id ids dry :
  quiet (perform_operation E new name id ids dry).
Proof. unfold perform_operation. quiet_auto. Qed.
#[local] Hint Resolve quiet_perform_operation : quiets.

(** ** Loops *)

Lemma later_input_refl w : later_input w w.
Proof. intros k H. exact H. Qed.

Lemma later_input_trans w1 w2 w3 :
  later_input w1 w2 -> later_input w2 w3 -> later_input w1 w3.
Proof. intros H1 H2 k H. auto. Qed.

Lemma later_input_cons w w' k :
  stdin w = k :: stdin w' -> later_input w w'.
Proof. intros H k' Hk. rewrite H. right. exact Hk. Qed.

Lemma later_input_same w w' : stdin w' = stdin w -> later_input w w'.
Proof. intros H k Hk. rewrite <- H. exact Hk. Qed.

(** What a [while True] loop returns was returned by one of its turns,
    all of which started in a state that satisfies the invariant. *)
Lemma while_true_returns {A} (I : world -> Prop) (P : A -> world -> Prop)
    (body : M (turn A)) :
  (forall w t w1, I w -> body w = (Returns t, w1) ->
     match t with
     | Continue => I w1
     | Return a => P a w1
     end) ->
  forall fuel w a w',
    I w -> while_true fuel body w = (Returns a, w') -> P a w'.
Proof.
  intros Hb. induction fuel as [|fuel IH]; intros w a w' HI H.
  - discriminate H.
  - simpl in H. apply bind_returns in H. destruct H as (t & w1 & Ht & H).
    specialize (Hb w t w1 HI Ht). destruct t as [|a0]; cbv beta iota in H.
    + exact (IH w1 a w' Hb H).
    + unfold ret in H. inversion H; subst. exact Hb.
Qed.

(** A loop raises what one of its turns raises. *)
Lemma while_true_raises {A} (body : M (turn A)) (ok : exn -> Prop) :
  (forall w e w1, body w = (Raises e, w1) -> ok e) ->
  forall fuel w e w', while_true fuel body w = (Raises e, w') -> ok e.
Proof.
  intros Hb. induction fuel as [|fuel IH]; intros w e w' H.
  - discriminate H.
  - simpl in H. apply bind_raises in H.
    destruct H as [H | (t & w1 & Ht & H)]; [eauto|].
    destruct t; cbv beta iota in H; [eauto | discriminate H].
Qed.

Ltac bool_facts :=
  repeat match goal with
         | H : negb _ = true |- _ => apply negb_true_iff in H
         | H : negb _ = false |- _ => apply negb_false_iff in H
         | H : (_ =? _)%string = false |- _ => apply String.eqb_neq in H
         | H : (_ =? _)%string = true |- _ => apply String.eqb_eq in H
         end.

Ltac stdin_facts :=
  repeat match goal with
         | H : context [stdin (after _ _)] |- _ => rewrite after_stdin in H
         | |- context [stdin (after _ _)] => rewrite after_stdin
         end.

(** What one turn of the loop took from the terminal, and what it made
    of it. *)
Lemma library_root_turn_returns E w t w1 :
  get_library_root_turn E w = (Returns t, w1) ->
  exists read,
    stdin w = (read ++ stdin w1)%list /\
    match t with
    | Return (Some p) =>
        exists s,
          read = [Line s] /\
          PyStr.strip s <> EmptyString /\ p = library_root_of E s /\
          fs_exists (env_fs E) p = true /\ fs_isdir (env_fs E) p = true
    | Return None =>
        read = [Interrupt] \/
        (exists s, read = [Line s; Interrupt]) \/
        exists s r,
          read = [Line s; Line r] /\
          PyStr.strip s <> EmptyString /\
          (fs_exists (env_fs E) (library_root_of E s) = false \/
           fs_isdir (env_fs E) (library_root_of E s) = false) /\
          PyStr.lower (PyStr.strip r) <> "y"
    | Continue => True
    end.
Proof.
  unfold get_library_root_turn, library_root_of.
  intros H. run_inv; stdin_facts.
  all: repeat match goal with
              | H : stdin _ = _ |- _ => rewrite H in *; clear H
              end.
  all: try congruence.
  all: bool_facts.
  all: match goal with
       | |- exists read, ?a :: ?b :: stdin ?w1 = _ /\ _ => exists [a; b]
       | |- exists read, ?a :: stdin ?w1 = _ /\ _ => exists [a]
       end; (split; [reflexivity|]).
  all: try exact Logic.I.
  all: try (left; reflexivity).
  all: try (right; left; eexists; reflexivity).
  all: try (right; right; do 2 eexists; split; [reflexivity|]; auto).
  eexists. split; [reflexivity|]. auto.
Qed.

(** X3: what [get_library_root_from_user] returns. A path it returns is
    an existing directory, the absolute form of the last line read;
    [None] is returned only when the last thing read is Ctrl-C, or when
    the last two lines read are a path that does not exist or is no
    directory and an answer other than "y" to the question whether to try
    again. *)
Theorem library_root_prompt_result (E : environment) (fuel : nat)
    (w w' : world) (o : option string) :
  get_library_root_from_user E fuel w = (Returns o, w') ->
  library_root_answer E w w' o.
Proof.
  unfold get_library_root_from_user. intros H.
  apply (while_true_returns
           (fun w0 => exists read, stdin w = (read ++ stdin w0)%list)
           (fun o w1 => library_root_answer E w w1 o)
           (get_library_root_turn E)) with (fuel := fuel) (w := w) (w' := w');
    [ | exists []; reflexivity | exact H ].
  intros w0 t w1 [read0 Hread0] Ht.
  destruct (library_root_turn_returns E w0 t w1 Ht) as (read & Hread & Hp).
  assert (Hall : stdin w = ((read0 ++ read) ++ stdin w1)%list).
  { rewrite Hread0, Hread. apply app_assoc. }
  destruct t as [|[p|]].
  - exists (read0 ++ read)%list. exact Hall.
  - exists (read0 ++ read)%list. split; [exact Hall|].
    destruct Hp as (s & -> & Hp). exists read0, s. auto.
  - exists (read0 ++ read)%list. split; [exact Hall|].
    destruct Hp as [-> | [(s & ->) | (s & r & -> & Hp)]].
    + left. exists read0. reflexivity.
    + left. exists (read0 ++ [Line s])%list.
      rewrite <- app_assoc. reflexivity.
    + right. exists read0, s, r. auto.
Qed.

Lemma library_root_prompt_result_witness :
  library_root_answer Demo.env
    (initial_world [Line "/nowhere"; Line "Y"; Line " /lib"])
    (snd (get_library_root_from_user Demo.env 4
            (initial_world [Line "/nowhere"; Line "Y"; Line " /lib"])))
    (Some "/lib").
Proof.
  apply (library_root_prompt_result Demo.env 4
           (initial_world [Line "/nowhere"; Line "Y"; Line " /lib"])).
  vm_compute. reflexivity.
Defined.

(** ** Functions that only read *)

Lemma reading_of_quiet {A} (m : M A) : quiet m -> reading m.
Proof.
  intros H w. destruct (H w) as [Hs Hg].
  split; [apply later_input_same, Hs | exact Hg].
Qed.

Lemma reading_ret {A} (a : A) : reading (ret a).
Proof. apply reading_of_quiet, quiet_ret. Qed.

Lemma reading_raise {A} e : reading (@raise A e).
Proof. apply reading_of_quiet, quiet_raise. Qed.

Lemma reading_out_of_fuel {A} : reading (@out_of_fuel A).
Proof. intros w. split; [apply later_input_refl | apply same_globals_refl]. Qed.

Lemma reading_print s : reading (print s).
Proof. apply reading_of_quiet, quiet_emit. Qed.

Lemma reading_input p : reading (input p).
Proof.
  intros w. unfold input, bind, emit. simpl.
  destruct (stdin w) as [|[s|] rest] eqn:Hs; simpl;
    (split; [|repeat split]); intros k Hk; simpl in *;
    rewrite ?Hs; simpl; auto.
Qed.

Lemma reading_bind {A B} (m : M A) (k : A -> M B) :
  reading m -> (forall a, reading (k a)) -> reading (bind m k).
Proof.
  intros Hm Hk w. unfold bind. destruct (Hm w) as [Hs Hg].
  destruct (m w) as [[a|e|] w1]; simpl in *; auto.
  destruct (Hk a w1) as [Hs2 Hg2].
  split; [eapply later_input_trans | eapply same_globals_trans]; eauto.
Qed.

Lemma reading_get_world {B} (k : world -> M B) :
  (forall w0, reading (k w0)) -> reading (bind get_world k).
Proof. intros Hk w. apply (Hk w w). Qed.

Lemma reading_try {A} (body : M A) handler :
  reading body -> (forall e h, handler e = Some h -> reading h) ->
  reading (try_except body handler).
Proof.
  intros Hb Hh w. unfold try_except. destruct (Hb w) as [Hs Hg].
  destruct (body w) as [[a|e|] w1]; simpl in *; auto.
  destruct (handler e) as [h|] eqn:He; simpl; auto.
  destruct (Hh e h He w1) as [Hs2 Hg2].
  split; [eapply later_input_trans | eapply same_globals_trans]; eauto.
Qed.

Lemma reading_for_in {A S} (l : list A) (body : A -> S -> M S) :
  (forall x s, reading (body x s)) -> forall s, reading (for_in l s body).
Proof.
  intros Hb. induction l as [|x l IH]; intros s; simpl.
  - apply reading_ret.
  - apply reading_bind; auto.
Qed.

Lemma reading_while {A} (body : M (turn A)) fuel :
  reading body -> reading (while_true fuel body).
Proof.
  intros Hb. induction fuel as [|fuel IH]; simpl.
  - apply reading_out_of_fuel.
  - apply reading_bind; [exact Hb|]. intros [|a]; [exact IH | apply reading_ret].
Qed.

Lemma reading_run {A} (m : M A) w o w' :
  reading m -> m w = (o, w') -> later_input w w' /\ same_globals w w'.
Proof. intros Hq H. specialize (Hq w). rewrite H in Hq. exact Hq. Qed.

Create HintDb readings discriminated.

Ltac reading_step :=
  cbv zeta;
  lazymatch goal with
  | |- reading (ret _) => apply reading_ret
  | |- reading (print _) => apply reading_print
  | |- reading (input _) => apply reading_input
  | |- reading (raise _) => apply reading_raise
  | |- reading (bind get_world _) => apply reading_get_world; intros ?
  | |- reading (bind _ _) => apply reading_bind; [ | intros ? ]
  | |- reading (try_except _ _) =>
      apply reading_try; [ | handler_cases idtac ]
  | |- reading (for_in _ _ _) => apply reading_for_in; intros ? ?
  | |- reading (while_true _ _) => apply reading_while
  | |- reading (if ?b then _ else _) => destruct b
  | |- reading (match ?x with _ => _ end) => destruct x
  | |- reading _ =>
      solve [ eauto with readings
            | apply reading_of_quiet; eauto with quiets ]
  end.

Ltac reading_auto := repeat reading_step.

Lemma reading_get_immich_host_from_user fuel :
  reading (get_immich_host_from_user fuel).
Proof.
  induction fuel as [|fuel IH]; [apply reading_out_of_fuel|].
  cbn [get_immich_host_from_user]. reading_auto.
Qed.

Lemma reading_get_api_key_from_user fuel :
  reading (get_api_key_from_user fuel).
Proof.
  induction fuel as [|fuel IH]; [apply reading_out_of_fuel|].
  cbn [get_api_key_from_user]. reading_auto.
Qed.

Lemma reading_get_library_root_from_user E fuel :
  reading (get_library_root_from_user E fuel).
Proof.
  unfold get_library_root_from_user, get_library_root_turn. reading_auto.
Qed.

Lemma reading_get_new_album_name E fuel : reading (get_new_album_name E fuel).
Proof. unfold get_new_album_name, get_new_album_name_turn. reading_auto. Qed.
#[local] Hint Resolve reading_get_new_album_name : readings.

Lemma reading_select_album_turn E fuel albums :
  reading (select_album_turn E fuel albums).
Proof. unfold select_album_turn. reading_auto. Qed.
#[local] Hint Resolve reading_select_album_turn : readings.

Lemma reading_select_album_interactive E fuel :
  reading (select_album_interactive E fuel).
Proof. unfold select_album_interactive. reading_auto. Qed.
#[local] Hint Resolve reading_select_album_interactive : readings.

Lemma reading_get_path_turn E : reading (get_path_turn E).
Proof. unfold get_path_turn. reading_auto. Qed.
#[local] Hint Resolve reading_get_path_turn : readings.

Lemma reading_get_path_from_user E fuel : reading (get_path_from_user E fuel).
Proof. unfold get_path_from_user. reading_auto. Qed.
#[local] Hint Resolve reading_get_path_from_user : readings.

Lemma reading_manage_album E fuel dry : reading (manage_album E fuel dry).
Proof. unfold manage_album. reading_auto. Qed.

(** ** The prompts for the album and the path *)

Lemma album_exists_returns E name w e w' :
  album_exists E name w = (Raises e, w') -> False.
Proof.
  intros H. destruct (album_exists_run E name w) as (b & l & Hr & _).
  rewrite Hr in H. discriminate H.
Qed.

Ltac no_raise :=
  try (exfalso;
       match goal with
       | H : album_exists _ _ _ = (Raises _, _) |- _ =>
           exact (album_exists_returns _ _ _ _ _ H)
       end).

Lemma new_album_name_turn_returns E w t w1 :
  get_new_album_name_turn E w = (Returns t, w1) ->
  match t with
  | Return o => new_album_name_answer E w w1 o
  | Continue => True
  end.
Proof.
  unfold get_new_album_name_turn, new_album_name_answer, typed, interrupted.
  intros H. run_inv; stdin_facts.
  all: no_raise.
  all: try congruence.
  all: bool_facts.
  all: repeat match goal with
              | H : stdin _ = _ :: _ |- _ => rewrite H in *; clear H
              end.
  all: try exact Logic.I.
  all: try (simpl; tauto).
  match goal with
  | H : album_exists _ (PyStr.strip ?s) _ = _ |- _ =>
      split; [assumption|]; split; [exists s; simpl; auto | eauto]
  end.
Qed.

Lemma new_album_name_returns E fuel w o w' :
  get_new_album_name E fuel w = (Returns o, w') ->
  new_album_name_answer E w w' o.
Proof.
  unfold get_new_album_name. intros H.
  apply (while_true_returns (later_input w)
           (fun o w' => new_album_name_answer E w w' o)
           (get_new_album_name_turn E)) with (fuel := fuel) (w := w);
    [ | apply later_input_refl | exact H ].
  intros w0 t w1 HI Ht.
  pose proof (new_album_name_turn_returns E w0 t w1 Ht) as Hp.
  assert (Hl : later_input w0 w1).
  { refine (proj1 (reading_run _ _ _ _ _ Ht)).
    unfold get_new_album_name_turn. reading_auto. }
  destruct t as [|[name|]]; unfold new_album_name_answer, typed, interrupted in *.
  - eapply later_input_trans; eauto.
  - destruct Hp as (Hne & (s & Hs & Heq) & Hex). split; [exact Hne|].
    split; [exists s; auto | exact Hex].
  - auto.
Qed.

(** X4: what [get_new_album_name] returns. A name it returns is a typed
    line without the blanks around it, is not empty, and was not among the
    server's albums when the function looked last, which is the last
    thing it did; [None] is returned only after Ctrl-C. *)
Theorem new_album_name_result (E : environment) (fuel : nat) (w w' : world)
    (o : option string) :
  get_new_album_name E fuel w = (Returns o, w') ->
  new_album_name_answer E w w' o.
Proof. apply new_album_name_returns. Qed.

Lemma new_album_name_result_witness :
  new_album_name_answer Demo.env
    (Demo.configured [Line EmptyString; Line "Holiday"; Line " Trip "])
    (snd (get_new_album_name Demo.env 4
            (Demo.configured [Line EmptyString; Line "Holiday"; Line " Trip "])))
    (Some "Trip").
Proof.
  apply (new_album_name_result Demo.env 4
           (Demo.configured [Line EmptyString; Line "Holiday"; Line " Trip "])).
  vm_compute. reflexivity.
Defined.

Lemma select_album_turn_returns E fuel albums w t w1 :
  select_album_turn E fuel albums w = (Returns t, w1) ->
  match t with
  | Return (Some a) => album_choice albums w a
  | _ => True
  end.
Proof.
  unfold select_album_turn, album_choice, typed.
  intros H. run_inv; stdin_facts.
  all: try exact Logic.I.
  all: try congruence.
  all: repeat match goal with
              | H : get_new_album_name _ _ _ = (Returns _, _) |- _ =>
                  apply new_album_name_returns in H;
                  unfold new_album_name_answer, typed in H
              end.
  all: repeat match goal with
              | H : stdin _ = _ :: _ |- _ => rewrite H in *; clear H
              end.
  all: bool_facts.
  - match goal with
    | Ht : PyStr.truthy ?o = true,
      Ha : match ?o with Some _ => _ | None => _ end |- _ =>
        destruct o as [[|c name]|]; try discriminate Ht;
        destruct Ha as (Hne & (s & Hs & Heq) & _);
        left; repeat split; exists (String c name), s; simpl; auto
    end.
  - right.
    match goal with
    | Hi : PyStr.int (PyStr.strip ?s) = Some ?k,
      Hn : nth_error _ _ = Some _ |- _ =>
        exists s, k; split; [simpl; auto|]; split; [exact Hi|];
        split; [|exact Hn]
    end.
    match goal with
    | Hb : _ && _ = true |- _ => apply andb_true_iff in Hb; destruct Hb
    end.
    lia.
Qed.

(** X5: what [select_album_interactive] chooses. An album it returns is,
    with [albums] what the listing request at the start returned, either
    the request for a new album under a typed, non-empty name, or the
    album at the typed position of the list (positions count from 1; 0
    asks for a new album; other numbers and other text are asked again). *)
Theorem selection_is_listed_or_new (E : environment) (fuel : nat)
    (w w' : world) (a : album) :
  select_album_interactive E fuel w = (Returns (Some a), w') ->
  exists albums w1,
    get_all_albums E w = (Returns albums, w1) /\ album_choice albums w a.
Proof.
  unfold select_album_interactive. intros H.
  apply bind_returns in H. destruct H as (albums & w1 & Halbums & H).
  exists albums, w1. split; [exact Halbums|].
  destruct (quiet_run _ _ _ _ (quiet_get_all_albums E) Halbums) as [Hs1 _].
  apply bind_returns in H. destruct H as (u1 & w2 & Hp1 & H).
  apply print_runs in Hp1. destruct Hp1 as [_ ->].
  apply bind_returns in H. destruct H as (u2 & w3 & Hp2 & H).
  apply print_runs in Hp2. destruct Hp2 as [_ ->].
  apply bind_returns in H. destruct H as (u3 & w4 & Hfor & H).
  assert (Hs4 : stdin w4 = stdin w).
  { refine (eq_trans (proj1 (quiet_run _ _ _ _ _ Hfor)) _).
    - apply quiet_for_in. intros x s. cbv zeta. apply quiet_emit.
    - rewrite !after_stdin. exact Hs1. }
  assert (Hchoice : album_choice albums w4 a).
  { apply (while_true_returns (later_input w4)
             (fun o _ => match o with
                         | Some a => album_choice albums w4 a
                         | None => True
                         end)
             (select_album_turn E fuel albums)) with (fuel := fuel) (w := w4)
            (a := Some a) (w' := w');
      [ | apply later_input_refl | exact H ].
    intros w0 t w5 HI Ht.
    pose proof (select_album_turn_returns E fuel albums w0 t w5 Ht) as Hp.
    destruct (reading_run _ _ _ _ (reading_select_album_turn E fuel albums) Ht)
      as [Hl _].
    destruct t as [|[a0|]]; auto.
    - eapply later_input_trans; eauto.
    - unfold album_choice, typed in *.
      destruct Hp as [(Hn & Hi & Hc & name & s & Ha & Hne & Hs & Heq)
                     |(s & k & Hs & Hint & Hk & Hnth)].
      + left. repeat split; auto. exists name, s. auto.
      + right. exists s, k. auto. }
  unfold album_choice, typed in *. rewrite Hs4 in Hchoice. exact Hchoice.
Qed.

Lemma selection_is_listed_or_new_witness :
  exists albums w1,
    get_all_albums Demo.env (Demo.configured [Line "7"; Line "x"; Line " 1 "])
    = (Returns albums, w1) /\
    album_choice albums (Demo.configured [Line "7"; Line "x"; Line " 1 "])
      Demo.holiday.
Proof.
  apply (selection_is_listed_or_new Demo.env 4
           (Demo.configured [Line "7"; Line "x"; Line " 1 "])
           (snd (select_album_interactive Demo.env 4
                   (Demo.configured [Line "7"; Line "x"; Line " 1 "])))).
  vm_compute. reflexivity.
Defined.

Lemma get_path_turn_returns E w t w1 :
  get_path_turn E w = (Returns t, w1) ->
  match t with
  | Return r => path_answer E w r
  | Continue => True
  end.
Proof.
  unfold get_path_turn, path_answer, typed.
  intros H. run_inv; stdin_facts.
  all: try exact Logic.I.
  all: try congruence.
  all: try reflexivity.
  all: repeat match goal with
              | H : stdin _ = _ :: _ |- _ => rewrite H in *; clear H
              end.
  all: bool_facts.
  match goal with
  | Hn : (List.length _ =? 0)%nat = false,
    Hr : LIBRARY_ROOT _ = Some ?root,
    Hs : PyStr.strip ?s <> EmptyString |- _ =>
      apply Nat.eqb_neq in Hn; split; [lia|]; split; [assumption|];
      split; [exists root, s; simpl; auto | eauto]
  end.
Qed.



(** ** The walk and the queries *)

Lemma get_all_subdirectories_run (E : environment) (root : string) (w : world) :
  get_all_subdirectories E root w
  = (Returns (listed E root), after w [Walked root]).
Proof.
  unfold get_all_subdirectories, listed, bind, emit, ret. simpl.
  destruct (fs_tree (env_fs E) root) as [t|].
  - rewrite subdirectories_in_walk_order. reflexivity.
  - reflexivity.
Qed.

(** X7: [get_all_subdirectories] walks once, asks the server nothing, and
    returns the directories below the root in walk order: every
    descendant, each as often as the tree holds it; nothing when the walk
    finds nothing to list. *)
Theorem subdirectories_listing (E : environment) (root : string) (w : world) :
  get_all_subdirectories E root w
  = (Returns (listed E root), after w [Walked root]) /\
  match fs_tree (env_fs E) root with
  | Some t => Permutation (listed E root) (descendants root t)
  | None => listed E root = []
  end.
Proof.
  split.
  - apply get_all_subdirectories_run.
  - unfold listed. destruct (fs_tree (env_fs E) root) as [t|]; [|reflexivity].
    rewrite <- subdirectories_in_walk_order.
    apply subdirectories_are_descendants.
Qed.

Lemma folder_request_globals w w1 p :
  same_globals w w1 -> folder_request w1 p = folder_request w p.
Proof.
  intros (Hh & _ & Hr & Hd). unfold folder_request. rewrite Hh, Hr, Hd.
  reflexivity.
Qed.

Lemma after_globals w l : same_globals w (after w l).
Proof. repeat split. Qed.

(** One folder query: a request, then at most a printed line. *)
Lemma get_folder_assets_events E p w :
  exists ids l,
    get_folder_assets E p w = (Returns ids, after w l) /\
    requests_of l = [folder_request w p] /\ filter is_walk l = [].
Proof.
  rewrite get_folder_assets_run. cbv zeta.
  destruct (view_folder _ _ _); [|destruct (request_fails _)];
    eexists _, _; (split; [reflexivity|]); split; reflexivity.
Qed.

Lemma filter_walk_app (l1 l2 : list event) :
  filter is_walk (l1 ++ l2) = (filter is_walk l1 ++ filter is_walk l2)%list.
Proof. apply filter_app. Qed.

Lemma for_in_queries (f : string -> request) (G : world -> Prop)
    (body : string -> list string -> M (list string)) :
  (forall w l, G w -> G (after w l)) ->
  (forall d acc w, G w ->
     exists acc' l, body d acc w = (Returns acc', after w l) /\
                    requests_of l = [f d] /\ filter is_walk l = []) ->
  forall ds acc w, G w ->
    exists acc' l, for_in ds acc body w = (Returns acc', after w l) /\
                   requests_of l = map f ds /\ filter is_walk l = [].
Proof.
  intros HG Hb. induction ds as [|d ds IH]; intros acc w Hw; simpl.
  - exists acc, []. unfold ret, after. rewrite app_nil_r.
    destruct w; auto.
  - unfold bind. destruct (Hb d acc w Hw) as (acc1 & l1 & -> & Hr1 & Hw1).
    destruct (IH acc1 (after w l1) (HG _ _ Hw)) as (acc2 & l2 & -> & Hr2 & Hw2).
    exists acc2, (l1 ++ l2)%list. rewrite after_after.
    split; [reflexivity|].
    rewrite requests_of_app, filter_walk_app, Hr1, Hr2, Hw1, Hw2. auto.
Qed.

(** What the aggregation does on documented answers. *)
Lemma aggregation_run (E : environment) (root : string) (w : world) :
  exists ids l,
    get_all_assets_recursive E root w = (Returns ids, after w l) /\
    requests_of l = map (folder_request w) (root :: listed E root) /\
    filter is_walk l = [Walked root] /\
    NoDup ids.
Proof.
  unfold get_all_assets_recursive. unfold bind at 1.
  destruct (get_folder_assets_events E root w) as (ids0 & l0 & -> & Hr0 & Hw0).
  unfold bind at 1.
  rewrite (get_all_subdirectories_run E root (after w l0)).
  unfold bind at 1.
  match goal with
  | |- context [for_in ?ds ?acc0 ?body ?w1] =>
      assert (Hbody : forall d acc w0, same_globals w w0 ->
                exists acc' l, body d acc w0 = (Returns acc', after w0 l) /\
                               requests_of l = [folder_request w d] /\
                               filter is_walk l = []);
      [| assert (HG : forall w0 l, same_globals w w0 ->
                                   same_globals w (after w0 l));
         [| destruct (for_in_queries (folder_request w)
                        (fun w' => same_globals w w') body HG Hbody
                        ds acc0 w1) as (all & l1 & -> & Hr1 & Hw1) ] ]
  end.
  - intros d acc w0 Hg. unfold bind at 1.
    destruct (get_folder_assets_events E d w0) as (ids1 & l1 & -> & Hr1 & Hw1).
    rewrite (folder_request_globals w w0 d Hg) in Hr1.
    destruct (nonempty ids1).
    + eexists _, _. unfold bind, get_world, print, emit, ret. simpl.
      split; [rewrite <- after_after; reflexivity|].
      rewrite requests_of_app, filter_walk_app, Hr1, Hw1. auto.
    + eexists _, _. unfold bind, ret. simpl.
      split; [reflexivity|]. auto.
  - intros w0 l Hg. eapply same_globals_trans; [exact Hg|apply after_globals].
  - rewrite !after_after. repeat split.
  - unfold ret. rewrite !after_after.
    eexists _, _. split; [reflexivity|].
    rewrite !requests_of_app, !filter_walk_app, Hr0, Hw0, Hr1, Hw1.
    simpl. repeat split.
    rewrite fromkeys_first_occurrences. apply first_occurrences_NoDup.
Qed.



(** The aggregation with the server out of reach: as many requests as
    there are folders, and nothing found. *)
Example aggregation_offline :
  let r := get_all_assets_recursive Demo.offline "/lib" (Demo.configured []) in
  fst r = Returns [] /\
  map requested_folder (requests_of (trace (snd r))) = [EmptyString; "a"; "b"].
Proof. vm_compute. split; reflexivity. Qed.

(** ** The last step and the settings *)

(** X9: the existing-album branch of [interactive_album_manager] reports
    what happened: after a PUT that succeeds it prints the success line,
    after one that fails the failure line, and with [--dry-run] it sends
    nothing and prints the two simulation lines. *)
Theorem existing_album_report (E : environment) (name : string)
    (id : option string) (x : string) (ids : list string) (w : world) :
  let n := PyStr.of_nat (List.length (x :: ids)) in
  let r := append_request w id (x :: ids) in
  let answer := put_album_assets (env_server E) (requests_of (trace w)) r in
  perform_operation E false name id (x :: ids) false w =
  (if request_fails answer then
     (Returns tt,
      after w [Requested r;
               Printed ("[ERROR] Failed to add assets to album: "
                          ++ failure_text answer);
               Printed "添加资源到相册失败"])
   else
     (Returns tt,
      after w [Requested r;
               Printed ("[OK] Added " ++ n ++ " assets to album.");
               Printed ("成功将 " ++ n ++ " 个资源添加到相册 '" ++ name ++ "'")])) /\
  perform_operation E false name id (x :: ids) true w =
  (Returns tt,
   after w [Printed ("[DRY-RUN] Would add " ++ n ++ " assets to album.");
            Printed ("[DRY-RUN] 模拟完成：将 " ++ n ++ " 个资源添加到相册 '"
                       ++ name ++ "'")]).
Proof.
  intros n r answer. unfold perform_operation, bind.
  rewrite !add_assets_to_album_run. cbv zeta. fold r. fold answer.
  split.
  - destruct (request_fails answer); cbv beta iota; unfold print, emit, after;
      simpl; rewrite <- ?app_assoc; reflexivity.
  - cbv beta iota. unfold print, emit, after. simpl.
    rewrite <- ?app_assoc. reflexivity.
Qed.

(** X10: the settings are written once. Whatever happens, the functions
    that [interactive_album_manager] calls, and all it does after the
    settings are in place, leave the four globals as they are. *)
Theorem settings_are_kept (E : environment) (fuel : nat) (dry : bool)
    (w : world) :
  same_globals w (snd (get_immich_host_from_user fuel w)) /\
  same_globals w (snd (get_api_key_from_user fuel w)) /\
  same_globals w (snd (get_library_root_from_user E fuel w)) /\
  same_globals w (snd (select_album_interactive E fuel w)) /\
  same_globals w (snd (get_path_from_user E fuel w)) /\
  same_globals w (snd (manage_album E fuel dry w)).
Proof.
  repeat split.
  all: first
         [ apply (reading_get_immich_host_from_user fuel w)
         | apply (reading_get_api_key_from_user fuel w)
         | apply (reading_get_library_root_from_user E fuel w)
         | apply (reading_select_album_interactive E fuel w)
         | apply (reading_get_path_from_user E fuel w)
         | apply (reading_manage_album E fuel dry w) ].
Qed.

(** ** One change of the server per run *)

Lemma mutates_last_quiet l : forallb not_mutating l = true -> mutates_last l.
Proof.
  intros H. exists l, []. rewrite app_nil_r. auto.
Qed.

Lemma mutates_last_after pre l :
  forallb not_mutating pre = true -> mutates_last l ->
  mutates_last (pre ++ l).
Proof.
  intros Hp (pre' & post & -> & Hpre' & Hpost).
  exists (pre ++ pre')%list, post. rewrite app_assoc, forallb_app, Hp, Hpre'.
  auto.
Qed.

Lemma mutates_last_request pre r rest :
  forallb not_mutating pre = true ->
  forallb (fun e => negb (is_request e)) rest = true ->
  mutates_last (pre ++ Requested r :: rest).
Proof.
  intros Hp Hr. destruct (mutating (Requested r)) eqn:Hm.
  - exists pre, (Requested r :: rest). split; [reflexivity|].
    split; [exact Hp|]. right. exists r, rest. auto.
  - apply mutates_last_quiet. rewrite forallb_app, Hp. simpl.
    unfold not_mutating at 1. rewrite Hm. simpl.
    clear -Hr. induction rest as [|e rest IH]; [reflexivity|].
    simpl in *. apply andb_true_iff in Hr. destruct Hr as [He Hr].
    rewrite (IH Hr), andb_true_r. destruct e; try reflexivity; discriminate.
Qed.

Section Once.

Variable E : environment.

Lemma run_once_of_ok {A} n I ex (m : M A) :
  run_ok n I not_mutating ex m -> run_once n I m.
Proof.
  intros H w Hw HI. destruct (H w Hw HI) as ([(l & Hl & Hf) _] & _).
  exists l. split; [exact Hl | apply mutates_last_quiet, Hf].
Qed.

Lemma run_once_bind {A B} n I ex (m : M A) (k : A -> M B) :
  run_ok n I not_mutating ex m -> (forall a, run_once n I (k a)) ->
  run_once n I (bind m k).
Proof.
  intros Hm Hk w Hw HI. unfold bind.
  destruct (Hm w Hw HI) as (Hc & HI1 & _).
  pose proof (continues_stdin _ _ _ _ Hc Hw) as Hw1.
  destruct Hc as [(l1 & Hl1 & Hf1) _].
  destruct (m w) as [[a|e|] w1]; simpl in *.
  - destruct (Hk a w1 Hw1 HI1) as (l2 & Hl2 & Hm2).
    exists (l1 ++ l2)%list. rewrite Hl2, Hl1, app_assoc.
    split; [reflexivity | apply mutates_last_after; auto].
  - exists l1. split; [exact Hl1 | apply mutates_last_quiet, Hf1].
  - exists l1. split; [exact Hl1 | apply mutates_last_quiet, Hf1].
Qed.

Lemma run_once_set_root {A} n r (rest : M A) :
  run_once n root_set rest ->
  run_once n (fun _ => True) (set_LIBRARY_ROOT (Some r) ;; rest).
Proof.
  intros H w Hw _. unfold bind, set_LIBRARY_ROOT.
  match goal with
  | |- context [rest ?w1] =>
      destruct (H w1) as (l & Hl & Hm); [exact Hw | discriminate |]
  end.
  exists l. split; [exact Hl | exact Hm].
Qed.

Lemma perform_operation_once n I new name id ids dry :
  run_once n I (perform_operation E new name id ids dry).
Proof.
  intros w _ _. unfold perform_operation. destruct new.
  - unfold bind at 1.
    destruct (album_exists_run E name w) as (b & l & Hrun & Hl & _).
    destruct b.
    + rewrite (create_album_present E name ids dry w _ Hrun).
      cbv beta iota. destruct dry; simpl; rewrite <- !app_assoc;
        (eexists; split; [reflexivity|]);
        apply mutates_last_quiet; rewrite forallb_app, Hl; reflexivity.
    + rewrite (create_album_absent E name ids dry w _ Hrun).
      destruct dry; cbv beta iota zeta.
      * simpl. rewrite <- !app_assoc. eexists. split; [reflexivity|].
        apply mutates_last_quiet. rewrite forallb_app, Hl. reflexivity.
      * destruct (request_fails _); cbv beta iota; simpl;
          rewrite <- !app_assoc; (eexists; split; [reflexivity|]);
          apply mutates_last_request; auto.
  - unfold bind at 1. destruct ids as [|x ids].
    + simpl. rewrite <- !app_assoc. eexists. split; [reflexivity|].
      apply mutates_last_quiet. reflexivity.
    + rewrite add_assets_to_album_run. destruct dry; cbv beta iota zeta.
      * simpl. rewrite <- !app_assoc. eexists. split; [reflexivity|].
        apply mutates_last_quiet. reflexivity.
      * destruct (request_fails _); cbv beta iota; simpl;
          rewrite <- !app_assoc; (eexists; split; [reflexivity|]);
          apply (mutates_last_request []); auto.
Qed.

Ltac once_step Hs :=
  cbv zeta;
  lazymatch goal with
  | |- run_once _ _ (perform_operation _ _ _ _ _ _) =>
      apply perform_operation_once
  | |- run_once _ _ (bind _ _) =>
      eapply (run_once_bind _ _ is_EOFError);
      [ change not_mutating with (allowed true);
        first [ eassumption
              | apply run_ok_print; [exact Hs | reflexivity]
              | eapply run_ok_exn;
                [ solve [eauto with runs] | ex_weaken ]
              | run_auto ]
      | intros ? ]
  | |- run_once _ _ (print _) =>
      eapply (run_once_of_ok _ _ is_EOFError);
      apply run_ok_print; [exact Hs | reflexivity]
  | |- run_once _ _ (if ?b then _ else _) => destruct b eqn:?
  | |- run_once _ _ (match ?x with _ => _ end) => destruct x eqn:?
  end.

Lemma manage_album_once dry fuel n :
  n <= fuel -> run_once n root_set (manage_album E fuel dry).
Proof.
  intros Hn. pose proof stable_root_set as Hs.
  pose proof (select_album_interactive_ok E root_set Hs true fuel n Hn).
  pose proof (get_path_from_user_ok E true fuel n Hn).
  unfold manage_album.
  repeat once_step Hs.
Qed.

Lemma interactive_album_manager_once dry fuel n :
  n <= fuel ->
  run_once n (fun _ => True) (interactive_album_manager E fuel dry).
Proof.
  intros Hn. pose proof stable_True as Hs.
  pose proof (get_immich_host_from_user_ok _ Hs true fuel n Hn).
  pose proof (get_api_key_from_user_ok _ Hs true fuel n Hn).
  pose proof (get_library_root_from_user_ok E _ Hs true fuel n Hn).
  pose proof (manage_album_once dry fuel n Hn) as Hm.
  unfold interactive_album_manager.
  repeat
    lazymatch goal with
    | |- run_once _ _ (bind (set_LIBRARY_ROOT ?v) _) =>
        destruct v;
        [ apply run_once_set_root
        | eapply (run_once_bind _ _ is_EOFError);
          [ apply run_ok_set; intros ?; repeat split | intros ? ] ]
    | |- run_once _ (fun _ => True) (bind (set_IMMICH_HOST _) _) =>
        eapply (run_once_bind _ _ is_EOFError);
        [ apply run_ok_set; intros ?; repeat split | intros ? ]
    | |- run_once _ (fun _ => True) (bind (set_API_KEY _) _) =>
        eapply (run_once_bind _ _ is_EOFError);
        [ apply run_ok_set; intros ?; repeat split | intros ? ]
    | |- run_once _ (fun _ => True) (bind (set_HEADERS _) _) =>
        eapply (run_once_bind _ _ is_EOFError);
        [ apply run_ok_set; intros ?; repeat split | intros ? ]
    | |- run_once _ root_set (bind (print _) _) =>
        eapply (run_once_bind _ _ is_EOFError);
        [ apply run_ok_print; [apply stable_root_set | reflexivity]
        | intros ? ]
    | |- run_once _ root_set (manage_album _ _ _) => exact Hm
    | _ => once_step Hs
    end.
Qed.

End Once.

(** X11: a run of the script changes the server at most once, and by its
    last request: in the trace of a run from the start, with or without
    [--dry-run], a POST or PUT is preceded by no other and followed by no
    request at all. *)
Theorem run_mutates_at_most_once (E : environment) (dry : bool)
    (keys : list keyboard) :
  mutates_last (trace (snd (main E dry (initial_world keys)))).
Proof.
  unfold main, bind, get_world.
  destruct (interactive_album_manager_once E dry (S (List.length keys))
              (S (List.length keys)) (le_n _) (initial_world keys))
    as (l & Hl & Hm); [simpl; lia | exact Logic.I |].
  simpl in *. rewrite Hl. exact Hm.
Qed.

(** ** Requests carry the settings *)

Lemma api_prefix (host rest : string) :
  PyStr.startswith ("http://" ++ host ++ "/api/" ++ rest)
    ("http://" ++ host ++ "/api/") = true.
Proof.
  unfold PyStr.startswith. simpl.
  induction host as [|c host IH]; simpl.
  - destruct rest; reflexivity.
  - destruct (ascii_dec c c); [exact IH | congruence].
Qed.

Lemma sent_with_request (host key : string) (w : world) (r : request)
    (rest : string) :
  configured_with host key w ->
  req_headers r = HEADERS w ->
  req_url r = "http://" ++ PyStr.format (IMMICH_HOST w) ++ "/api/" ++ rest ->
  sent_with host key (Requested r) = true.
Proof.
  intros (Hh & _ & Hd & _) Hr Hu. unfold sent_with.
  rewrite Hr, Hd, Hu, Hh. simpl PyStr.format.
  destruct (headers_dec _ _) as [_|Hn]; [|congruence].
  simpl andb. apply api_prefix.
Qed.

Lemma stable_configured_with host key : stable (configured_with host key).
Proof.
  intros w w' (Hh & Hk & Hr & Hd) (H1 & H2 & H3 & H4).
  unfold configured_with. rewrite Hh, Hk, Hr, Hd. auto.
Qed.

Ltac sent_side :=
  match goal with
  | H : configured_with _ _ ?w |- sent_with _ _ (Requested _) = true =>
      first
        [ exact (sent_with_request _ _ w _ "view/folder" H eq_refl eq_refl)
        | exact (sent_with_request _ _ w _ "albums" H eq_refl eq_refl)
        | eapply (sent_with_request _ _ w _ _ H); reflexivity ]
  end.

Ltac ev_side ::=
  solve [ assumption | reflexivity
        | apply allowed_not_mutating; reflexivity | apply allowed_real
        | sent_side ].


Section Sent.

Variable E : environment.
Variables host key : string.

Lemma try_get_world_any {A} ev n I ex (f : world -> M A) handler :
  (forall w0, I w0 ->
     run_ok n I ev ex (try_except (f w0) handler) /\
     consuming n I (try_except (f w0) handler)) ->
  run_ok n I ev ex (try_except (bind get_world f) handler) /\
  consuming n I (try_except (bind get_world f) handler).
Proof.
  intros H. split; intros w Hw HI; destruct (H w HI) as [H1 H2].
  - exact (H1 w Hw HI).
  - exact (H2 w Hw HI).
Qed.

Lemma get_folder_assets_sent n p :
  run_ok n (configured_with host key) (sent_with host key) no_exn
    (get_folder_assets E p).
Proof. pose proof (stable_configured_with host key) as Hs. unfold get_folder_assets. run_auto. Qed.
Hint Resolve get_folder_assets_sent : runs.

Lemma get_all_subdirectories_sent n p :
  run_ok n (configured_with host key) (sent_with host key) no_exn
    (get_all_subdirectories E p).
Proof. pose proof (stable_configured_with host key) as Hs. unfold get_all_subdirectories. run_auto. Qed.
Hint Resolve get_all_subdirectories_sent : runs.

Lemma get_all_assets_recursive_sent n p :
  run_ok n (configured_with host key) (sent_with host key) no_exn
    (get_all_assets_recursive E p).
Proof. pose proof (stable_configured_with host key) as Hs. unfold get_all_assets_recursive. run_auto. Qed.
Hint Resolve get_all_assets_recursive_sent : runs.

Lemma collect_assets_sent n p :
  run_ok n (configured_with host key) (sent_with host key) no_exn
    (collect_assets E p).
Proof. pose proof (stable_configured_with host key) as Hs. unfold collect_assets. run_auto. Qed.
Hint Resolve collect_assets_sent : runs.

Lemma get_all_albums_sent n :
  run_ok n (configured_with host key) (sent_with host key) no_exn
    (get_all_albums E).
Proof. pose proof (stable_configured_with host key) as Hs. unfold get_all_albums. run_auto. Qed.
Hint Resolve get_all_albums_sent : runs.

Lemma album_exists_sent n name :
  run_ok n (configured_with host key) (sent_with host key) no_exn
    (album_exists E name).
Proof. pose proof (stable_configured_with host key) as Hs. unfold album_exists. run_auto. Qed.
Hint Resolve album_exists_sent : runs.

Lemma create_album_sent n name ids dry :
  run_ok n (configured_with host key) (sent_with host key) no_exn
    (create_album E name ids dry).
Proof. pose proof (stable_configured_with host key) as Hs. unfold create_album. run_auto. Qed.
Hint Resolve create_album_sent : runs.

Lemma add_assets_to_album_sent n id ids dry :
  run_ok n (configured_with host key) (sent_with host key) no_exn
    (add_assets_to_album E id ids dry).
Proof. pose proof (stable_configured_with host key) as Hs. unfold add_assets_to_album. run_auto. Qed.
Hint Resolve add_assets_to_album_sent : runs.

Lemma perform_operation_sent n new name id ids dry :
  run_ok n (configured_with host key) (sent_with host key) no_exn
    (perform_operation E new name id ids dry).
Proof. pose proof (stable_configured_with host key) as Hs. unfold perform_operation. run_auto. Qed.
Hint Resolve perform_operation_sent : runs.

Lemma get_new_album_name_sent fuel n :
  n <= fuel ->
  run_ok n (configured_with host key) (sent_with host key) is_EOFError
    (get_new_album_name E fuel).
Proof.
  intros Hn. pose proof (stable_configured_with host key) as Hs.
  assert (Ht : run_ok n (configured_with host key) (sent_with host key)
                 is_EOFError (get_new_album_name_turn E) /\
               consuming n (configured_with host key)
                 (get_new_album_name_turn E))
    by (unfold get_new_album_name_turn; turn_start; run_auto).
  destruct Ht. apply run_ok_while; auto.
Qed.

Lemma select_album_interactive_sent fuel n :
  n <= fuel ->
  run_ok n (configured_with host key) (sent_with host key) is_EOFError
    (select_album_interactive E fuel).
Proof.
  intros Hn. pose proof (stable_configured_with host key) as Hs.
  assert (Hname := get_new_album_name_sent fuel (n - 1) ltac:(lia)).
  assert (Ht : forall albums,
             run_ok n (configured_with host key) (sent_with host key)
               is_EOFError (select_album_turn E fuel albums) /\
             consuming n (configured_with host key)
               (select_album_turn E fuel albums)).
  { intros albums. unfold select_album_turn. turn_start; run_auto.
    exfalso.
    match goal with
    | H : nth_error _ _ = None |- _ => apply nth_error_None in H
    end.
    lia. }
  unfold select_album_interactive. run_auto.
  match goal with
  | |- run_ok _ _ _ _ (while_true _ (select_album_turn _ _ ?albums)) =>
      destruct (Ht albums)
  end.
  apply run_ok_while; auto.
Qed.

Lemma get_path_from_user_sent fuel n :
  n <= fuel ->
  run_ok n (configured_with host key) (sent_with host key) is_EOFError
    (get_path_from_user E fuel).
Proof.
  intros Hn. pose proof (stable_configured_with host key) as Hs.
  assert (Ht : run_ok n (configured_with host key) (sent_with host key)
                 is_EOFError (get_path_turn E) /\
               consuming n (configured_with host key) (get_path_turn E)).
  { unfold get_path_turn. apply try_get_world_any. intros w0 Hw0.
    turn_start; run_auto.
    exfalso. destruct Hw0 as (_ & _ & _ & Hr). congruence. }
  destruct Ht. apply run_ok_while; auto.
Qed.

Lemma manage_album_sent dry fuel n :
  n <= fuel ->
  run_ok n (configured_with host key) (sent_with host key) is_EOFError
    (manage_album E fuel dry).
Proof.
  intros Hn. pose proof (stable_configured_with host key) as Hs.
  pose proof (select_album_interactive_sent fuel n Hn).
  pose proof (get_path_from_user_sent fuel n Hn).
  unfold manage_album. run_auto.
Qed.

End Sent.

Section Configured.

Variable E : environment.

Lemma get_immich_host_from_user_silent I (Hs : stable I) fuel :
  forall n, n <= fuel ->
  run_ok n I no_request is_EOFError (get_immich_host_from_user fuel).
Proof.
  induction fuel as [|fuel IH]; intros n Hn.
  - intros w Hw. lia.
  - assert (IH' := IH (n - 1) ltac:(lia)). simpl.
    turn_start; run_auto.
Qed.

Lemma get_api_key_from_user_silent I (Hs : stable I) fuel :
  forall n, n <= fuel ->
  run_ok n I no_request is_EOFError (get_api_key_from_user fuel).
Proof.
  induction fuel as [|fuel IH]; intros n Hn.
  - intros w Hw. lia.
  - assert (IH' := IH (n - 1) ltac:(lia)). simpl.
    turn_start; run_auto.
Qed.

Lemma get_library_root_from_user_silent I (Hs : stable I) fuel n :
  n <= fuel ->
  run_ok n I no_request is_EOFError (get_library_root_from_user E fuel).
Proof.
  intros Hn.
  assert (Ht : run_ok n I no_request is_EOFError (get_library_root_turn E) /\
               consuming n I (get_library_root_turn E))
    by (unfold get_library_root_turn; turn_start; run_auto).
  destruct Ht. apply run_ok_while; auto.
Qed.

Lemma no_request_none (l : list event) :
  forallb no_request l = true -> requests_of l = [].
Proof.
  induction l as [|e l IH]; simpl; [reflexivity|].
  intros H. apply andb_true_iff in H. destruct H as [He Hl].
  destruct e; try discriminate He; simpl; auto.
Qed.

Lemma sent_as_configured_silent w :
  requests_of (trace w) = [] -> sent_as_configured w.
Proof. intros H r Hr. rewrite H in Hr. contradiction. Qed.

(** A step that asks the server nothing. *)
Lemma ends_sent_bind {A B} n P ex (m : M A) (k : A -> M B) :
  run_ok n P no_request ex m ->
  (forall a, (exists w w1, m w = (Returns a, w1)) -> ends_sent n P (k a)) ->
  ends_sent n P (bind m k).
Proof.
  intros Hm Hk w Hw Hr HP. unfold bind.
  destruct (Hm w Hw HP) as (Hc & HP1 & _).
  pose proof (continues_stdin _ _ _ _ Hc Hw) as Hw1.
  destruct Hc as [(l & Hl & Hf) _].
  assert (Hr1 : requests_of (trace (snd (m w))) = [])
    by (rewrite Hl, requests_of_app, Hr, (no_request_none l Hf); reflexivity).
  destruct (m w) as [[a|e|] w1] eqn:Hmw; simpl in *.
  - apply (Hk a); eauto.
  - apply sent_as_configured_silent, Hr1.
  - apply sent_as_configured_silent, Hr1.
Qed.

Lemma ends_sent_silent {A} n P ex (m : M A) :
  run_ok n P no_request ex m -> ends_sent n P m.
Proof.
  intros Hm w Hw Hr HP. destruct (Hm w Hw HP) as ([(l & Hl & Hf) _] & _).
  apply sent_as_configured_silent.
  rewrite Hl, requests_of_app, Hr, (no_request_none l Hf). reflexivity.
Qed.

(** A step that writes a global. *)
Lemma ends_sent_set {A} n (P P' : world -> Prop) (set : M unit) (rest : M A) :
  (forall w, fst (set w) = Returns tt /\ trace (snd (set w)) = trace w /\
             stdin (snd (set w)) = stdin w /\ (P w -> P' (snd (set w)))) ->
  ends_sent n P' rest -> ends_sent n P (set ;; rest).
Proof.
  intros Hset Hrest w Hw Hr HP. unfold bind.
  destruct (Hset w) as (Ho & Ht & Hs & HP').
  destruct (set w) as [o w1]; simpl in *. subst o.
  apply Hrest; [rewrite Hs; exact Hw | rewrite Ht; exact Hr | auto].
Qed.

(** The rest of the run, once the settings are in place. *)
Lemma ends_sent_manage host key dry fuel n :
  n <= fuel -> host <> EmptyString -> key <> EmptyString ->
  ends_sent n (configured_with host key) (manage_album E fuel dry).
Proof.
  intros Hn Hhost Hkey w Hw Hr HP.
  destruct (manage_album_sent E host key dry fuel n Hn w Hw HP)
    as ([(l & Hl & Hf) _] & HP' & _).
  intros r Hin. exists host, key. split; [exact HP'|].
  split; [exact Hhost|]. split; [exact Hkey|].
  rewrite Hl, requests_of_app, Hr in Hin. simpl in Hin.
  assert (Hsent : sent_with host key (Requested r) = true).
  { rewrite forallb_forall in Hf. apply Hf.
    unfold requests_of in Hin. apply in_flat_map in Hin.
    destruct Hin as (e & He & Hre). destruct e; try contradiction.
    destruct Hre as [->|[]]. exact He. }
  unfold sent_with in Hsent. apply andb_true_iff in Hsent.
  destruct Hsent as [Hh Hu]. split; [|exact Hu].
  destruct (headers_dec _ _); [assumption | discriminate].
Qed.

Ltac stable_tac :=
  let w := fresh "w" in
  let w' := fresh "w'" in
  intros w w' (? & ? & ? & ?) ?; unfold configured_with in *;
  intuition congruence.

Ltac silent_print Hs :=
  eapply (ends_sent_bind _ _ is_EOFError);
  [ apply run_ok_print; [exact Hs | reflexivity] | intros _ _ ].

Lemma interactive_album_manager_sent dry fuel n :
  n <= fuel ->
  ends_sent n (fun _ => True) (interactive_album_manager E fuel dry).
Proof.
  intros Hn. unfold interactive_album_manager.
  silent_print stable_True. silent_print stable_True.
  eapply ends_sent_bind;
    [ apply (get_immich_host_from_user_silent _ stable_True fuel n Hn) |].
  intros o (w & w1 & Hrun). apply host_prompt_returns in Hrun.
  destruct o as [host|].
  2:{ eapply (ends_sent_set n _ (fun _ => True));
        [ intros w0; repeat split |].
      eapply (ends_sent_silent _ _ is_EOFError).
      apply run_ok_print; [exact stable_True | reflexivity]. }
  destruct Hrun as [Hhost _].
  assert (Hs1 : stable (fun w => IMMICH_HOST w = Some host)) by stable_tac.
  eapply (ends_sent_set n _ (fun w => IMMICH_HOST w = Some host));
    [ intros w0; repeat split |].
  cbv iota.
  eapply ends_sent_bind;
    [ apply (get_api_key_from_user_silent _ Hs1 fuel n Hn) |].
  clear w w1. intros o (w & w1 & Hrun). apply api_key_prompt_returns in Hrun.
  assert (Hs2 : forall k, stable (fun w => IMMICH_HOST w = Some host /\
                                          API_KEY w = k)) by (intros k; stable_tac).
  destruct o as [key|].
  2:{ eapply (ends_sent_set n _ (fun w => IMMICH_HOST w = Some host /\
                                          API_KEY w = None));
        [ intros w0; repeat split; auto |].
      eapply (ends_sent_silent _ _ is_EOFError).
      apply run_ok_print; [exact (Hs2 None) | reflexivity]. }
  destruct Hrun as [Hkey _].
  eapply (ends_sent_set n _ (fun w => IMMICH_HOST w = Some host /\
                                      API_KEY w = Some key));
    [ intros w0; repeat split; auto |].
  cbv iota.
  assert (Hs3 : stable (fun w => (IMMICH_HOST w = Some host /\
                                  API_KEY w = Some key) /\
                                 HEADERS w = Some (setup_headers key)))
    by stable_tac.
  eapply (ends_sent_set n _ (fun w => (IMMICH_HOST w = Some host /\
                                       API_KEY w = Some key) /\
                                      HEADERS w = Some (setup_headers key)));
    [ intros w0; repeat split; simpl; tauto |].
  eapply ends_sent_bind;
    [ apply (get_library_root_from_user_silent _ Hs3 fuel n Hn) |].
  clear w w1. intros o _.
  destruct o as [root|].
  2:{ eapply (ends_sent_set n _ (fun _ => True));
        [ intros w0; repeat split |].
      eapply (ends_sent_silent _ _ is_EOFError).
      apply run_ok_print; [exact stable_True | reflexivity]. }
  eapply (ends_sent_set n _ (configured_with host key));
    [ intros w0; repeat split; simpl; try tauto; discriminate |].
  cbv iota.
  pose proof (stable_configured_with host key) as Hs4.
  silent_print Hs4. silent_print Hs4. silent_print Hs4. silent_print Hs4.
  apply ends_sent_manage; assumption.
Qed.

End Configured.

(** X12: the requests of a run carry the settings. In the trace of a run
    of the script from its start, every request was sent after the three
    settings had been entered: the address and the key are not empty, a
    library root is set, the request carries the key in its [x-api-key]
    header and goes to [http://<address>/api/...]; the settings have not
    changed since. When a prompt for a setting is cancelled, nothing is
    requested. *)
Theorem requests_carry_the_settings (E : environment) (dry : bool)
    (keys : list keyboard) :
  sent_as_configured (snd (main E dry (initial_world keys))).
Proof.
  unfold main, bind, get_world.
  apply (interactive_album_manager_sent E dry (S (List.length keys))
           (S (List.length keys)) (le_n _) (initial_world keys)).
  - simpl. lia.
  - reflexivity.
  - exact Logic.I.
Qed.

(** A run that is cancelled at the prompt for the key asks the server
    nothing. *)
Example cancelled_at_the_key :
  requests_of
    (trace (snd (main Demo.env false (initial_world [Line EmptyString; Interrupt]))))
  = [].
Proof. vm_compute. reflexivity. Qed.

(** ** Paths typed below the library root *)

Lemma no_leading_of_startswith (s : string) :
  PyStr.startswith s os_sep = false -> no_leading_separator s.
Proof.
  intros H s' ->. change (os_sep ++ s') with (String "/" s') in H.
  unfold PyStr.startswith in H. simpl in H. destruct s'; discriminate H.
Qed.

(** X13: a relative path comes back. For a non-empty library root and a
    path that does not begin with the separator, converting the path that
    [get_path_from_user] and the walk build with [os.path.join] gives the
    relative path again, whether the root ends with a separator or not. *)
Theorem joined_path_converts_back (root rel : string) :
  root <> EmptyString ->
  PyStr.startswith rel os_sep = false ->
  convert_to_immich_path (Some root) (PosixPath.join root rel) = rel.
Proof.
  intros Hroot Hrel. unfold PosixPath.join. rewrite Hrel.
  pose proof (no_leading_of_startswith rel Hrel) as Hnl.
  destruct ((root =? EmptyString) || PyStr.endswith root os_sep)%bool.
  - rewrite (convert_under_root root (root ++ rel) Hroot
               (startswith_of_app root rel)).
    rewrite slice_from_app. apply lstrip_sep_fixed, Hnl.
  - rewrite (convert_under_root root (root ++ os_sep ++ rel) Hroot
               (startswith_of_app root (os_sep ++ rel))).
    rewrite slice_from_app. change (os_sep ++ rel) with (String "/" rel).
    simpl. apply lstrip_sep_fixed, Hnl.
Qed.

Lemma joined_path_converts_back_witness :
  convert_to_immich_path (Some "/lib/") (PosixPath.join "/lib/" "2024/summer")
  = "2024/summer".
Proof.
  apply (joined_path_converts_back "/lib/" "2024/summer");
    [discriminate | reflexivity].
Defined.

(** A path typed with a leading separator replaces the root in the join
    and is converted as a path outside the library. *)
Example absolute_path_is_taken_as_it_is :
  PosixPath.join "/lib" "/etc" = "/etc" /\
  convert_to_immich_path (Some "/lib") (PosixPath.join "/lib" "/etc") = "/etc".
Proof. split; reflexivity. Qed.

(** ** The simulation is faithful *)

(** X14: a run with [--dry-run] and a run without it, on the same
    terminal input and against the same server and file system, are the
    same run unless they reach the last step, and then they reach it in
    the same state, with the same album and the same non-empty list of
    assets; only what [perform_operation] does differs. *)
Theorem dry_run_is_faithful (E : environment) (keys : list keyboard) :
  main E true (initial_world keys) = main E false (initial_world keys) \/
  exists new name id ids w,
    nonempty ids = true /\
    main E true (initial_world keys)
    = perform_operation E new name id ids true w /\
    main E false (initial_world keys)
    = perform_operation E new name id ids false w.
Proof.
  generalize (initial_world keys) as w0. intros w0.
  unfold main, interactive_album_manager, manage_album, bind, get_world,
    print, emit, ret, set_IMMICH_HOST, set_API_KEY, set_HEADERS,
    set_LIBRARY_ROOT.
  cbv beta iota zeta.
  repeat match goal with
         | |- context [let (_, _) := ?x in _] =>
             destruct x as [[?|?|] ?]; cbv beta iota zeta;
             try (left; reflexivity)
         | |- context [match ?x with Some _ => _ | None => _ end] =>
             destruct x; cbv beta iota zeta; try (left; reflexivity)
         | |- context [if ?b then _ else _] =>
             destruct b eqn:?; cbv beta iota zeta; try (left; reflexivity)
         end.
  all: right; eexists _, _, _, _, _;
    (split; [apply negb_false_iff; eassumption | split; reflexivity]).
Qed.

(** ** The end of the input *)

Lemma eof_ret {A} (a : A) : eof_at_end (ret a).
Proof. intros w H. discriminate H. Qed.

Lemma eof_out_of_fuel {A} : eof_at_end (@out_of_fuel A).
Proof. intros w H. discriminate H. Qed.

Lemma eof_raise {A} e : e <> EOFError -> eof_at_end (@raise A e).
Proof. intros He w H. simpl in H. congruence. Qed.

Lemma eof_returns {A} (m : M A) :
  (forall w, exists v, fst (m w) = Returns v) -> eof_at_end m.
Proof. intros H w Hr. destruct (H w) as [v Hv]. congruence. Qed.

Lemma eof_print s : eof_at_end (print s).
Proof. intros w H. discriminate H. Qed.

Lemma eof_input p : eof_at_end (input p).
Proof.
  intros w. unfold input, bind, emit. simpl.
  destruct (stdin w) as [|[s|] rest] eqn:Hs; simpl; intros H;
    try discriminate H. first [reflexivity | exact Hs].
Qed.

Lemma eof_bind {A B} (m : M A) (k : A -> M B) :
  eof_at_end m -> (forall a, eof_at_end (k a)) -> eof_at_end (bind m k).
Proof.
  intros Hm Hk w. unfold bind. specialize (Hm w).
  destruct (m w) as [[a|e|] w1]; simpl in *.
  - apply Hk.
  - intros H. apply Hm. inversion H. reflexivity.
  - intros H. discriminate H.
Qed.

Lemma eof_get_world {B} (k : world -> M B) :
  (forall w0, eof_at_end (k w0)) -> eof_at_end (bind get_world k).
Proof. intros Hk w. apply (Hk w w). Qed.

Lemma eof_try {A} (body : M A) handler :
  eof_at_end body -> handler EOFError = None ->
  (forall e h, handler e = Some h -> eof_at_end h) ->
  eof_at_end (try_except body handler).
Proof.
  intros Hb Hn Hh w. unfold try_except. specialize (Hb w).
  destruct (body w) as [[a|e|] w1]; simpl in *.
  - intros H. discriminate H.
  - destruct (handler e) as [h|] eqn:He.
    + apply (Hh e h He).
    + simpl. exact Hb.
  - intros H. discriminate H.
Qed.

Lemma eof_for_in {A S} (l : list A) (body : A -> S -> M S) :
  (forall x s, eof_at_end (body x s)) -> forall s, eof_at_end (for_in l s body).
Proof.
  intros Hb. induction l as [|x l IH]; intros s; simpl.
  - apply eof_ret.
  - apply eof_bind; auto.
Qed.

Lemma eof_while {A} (body : M (turn A)) fuel :
  eof_at_end body -> eof_at_end (while_true fuel body).
Proof.
  intros Hb. induction fuel as [|fuel IH]; simpl.
  - apply eof_out_of_fuel.
  - apply eof_bind; [exact Hb|]. intros [|a]; [exact IH | apply eof_ret].
Qed.

Lemma eof_of_no_exn {A} (m : M A) :
  (forall n, run_ok n (fun _ => True) any_event no_exn m) -> eof_at_end m.
Proof. intros H. apply eof_returns, run_ok_returns, H. Qed.

Create HintDb eofs discriminated.

Ltac eof_step :=
  cbv zeta;
  lazymatch goal with
  | |- eof_at_end (ret _) => apply eof_ret
  | |- eof_at_end (print _) => apply eof_print
  | |- eof_at_end (input _) => apply eof_input
  | |- eof_at_end (raise _) => apply eof_raise; discriminate
  | |- eof_at_end (bind get_world _) => apply eof_get_world; intros ?
  | |- eof_at_end (bind _ _) => apply eof_bind; [ | intros ? ]
  | |- eof_at_end (try_except _ _) =>
      apply eof_try; [ | reflexivity | handler_cases idtac ]
  | |- eof_at_end (for_in _ _ _) => apply eof_for_in; intros ? ?
  | |- eof_at_end (while_true _ _) => apply eof_while
  | |- eof_at_end (if ?b then _ else _) => destruct b
  | |- eof_at_end (match ?x with _ => _ end) => destruct x
  | |- eof_at_end _ => solve [ eauto with eofs ]
  end.

Ltac eof_auto := repeat eof_step.

Section EndOfInput.

Variable E : environment.

Lemma eof_collect_assets p : eof_at_end (collect_assets E p).
Proof.
  apply eof_of_no_exn. intros n. apply (collect_assets_ok E _ stable_True false).
Qed.
Hint Resolve eof_collect_assets : eofs.

Lemma eof_get_all_albums : eof_at_end (get_all_albums E).
Proof.
  apply eof_of_no_exn. intros n. apply (get_all_albums_ok E _ stable_True false).
Qed.
Hint Resolve eof_get_all_albums : eofs.

Lemma eof_album_exists name : eof_at_end (album_exists E name).
Proof.
  apply eof_of_no_exn. intros n. apply (album_exists_ok E _ stable_True false).
Qed.
Hint Resolve eof_album_exists : eofs.

Lemma eof_perform_operation new name id ids dry :
  eof_at_end (perform_operation E new name id ids dry).
Proof.
  apply eof_returns. intros w.
  destruct (perform_operation_ok E _ stable_True dry
              (S (List.length (stdin w))) new name id ids w)
    as (_ & _ & Ho); [lia | exact Logic.I |].
  apply returns_of_no_exn, Ho.
Qed.
Hint Resolve eof_perform_operation : eofs.

Lemma eof_get_immich_host_from_user fuel :
  eof_at_end (get_immich_host_from_user fuel).
Proof.
  induction fuel as [|fuel IH]; [apply eof_out_of_fuel|].
  cbn [get_immich_host_from_user]. eof_auto.
Qed.
Hint Resolve eof_get_immich_host_from_user : eofs.

Lemma eof_get_api_key_from_user fuel :
  eof_at_end (get_api_key_from_user fuel).
Proof.
  induction fuel as [|fuel IH]; [apply eof_out_of_fuel|].
  cbn [get_api_key_from_user]. eof_auto.
Qed.
Hint Resolve eof_get_api_key_from_user : eofs.

Lemma eof_get_library_root_from_user fuel :
  eof_at_end (get_library_root_from_user E fuel).
Proof.
  unfold get_library_root_from_user, get_library_root_turn. eof_auto.
Qed.
Hint Resolve eof_get_library_root_from_user : eofs.

Lemma eof_get_new_album_name fuel : eof_at_end (get_new_album_name E fuel).
Proof. unfold get_new_album_name, get_new_album_name_turn. eof_auto. Qed.
Hint Resolve eof_get_new_album_name : eofs.

Lemma eof_select_album_interactive fuel :
  eof_at_end (select_album_interactive E fuel).
Proof. unfold select_album_interactive, select_album_turn. eof_auto. Qed.
Hint Resolve eof_select_album_interactive : eofs.

Lemma eof_get_path_from_user fuel : eof_at_end (get_path_from_user E fuel).
Proof. unfold get_path_from_user, get_path_turn. eof_auto. Qed.
Hint Resolve eof_get_path_from_user : eofs.

Lemma eof_set (set : M unit) :
  (forall w, fst (set w) = Returns tt) -> eof_at_end set.
Proof. intros H. apply eof_returns. intros w. exists tt. apply H. Qed.

Lemma eof_interactive_album_manager fuel dry :
  eof_at_end (interactive_album_manager E fuel dry).
Proof.
  unfold interactive_album_manager, manage_album.
  repeat first
    [ apply eof_set; intros ?; reflexivity
    | eof_step ].
Qed.

End EndOfInput.


